(** * The formatting-range index of a slot ([Format]) and its tree view

    A shallow embedding of the class [Format] of the core package: the map from
    formatters to range lists, [merge], [stretch], [split], [shrink],
    [extract], [createFormatByRange], [discard], [extractFormatsByIndex],
    [toGrid], [toTree] and the private helpers [normalizeFormatRange],
    [tileRanges], [formatRangesToMap], [toRanges] and [equal].

    Conventions of the embedding.
    - Offsets are the slot offsets of the editor: natural numbers.  The
      subtractions of the source that are clamped by JavaScript
      ([Array.from({length: e - s})], a negative [deleteCount] of [splice])
      or guarded by [Math.max] are written with the truncated subtraction.
    - A JavaScript exception ([TypeError]) is the result [None].
    - An array hole reads as [undefined]; holes are [VUndefined].
    - Objects carry a reference ([ref]) so that [===] on objects is identity:
      two objects are the same object iff they are equal terms. *)

From stdpp Require Import base option list strings gmap sorting.

Set Default Proof Using "Type".
#[local] Set Warnings "-clear-no-such-hyp".

(** ** Format values *)

(** Primitive values.  Numbers are taken to be integers: no [NaN], so that
    [===] is reflexive, and an object that is [===] to another has the same
    keys and values. *)
Inductive Prim :=
| PStr (s : string)
| PNum (n : Z)
| PBool (b : bool).

#[global] Instance Prim_eq_dec : EqDecision Prim.
Proof. solve_decision. Defined.

(** [FormatValue]: a primitive, [null], a flat record of primitives or a
    [CleanFormatRule] wrapping a value.  [VUndefined] is what reading a hole
    or a missing property gives. *)
Inductive FormatValue :=
| VNull
| VUndefined
| VPrim (p : Prim)
| VRecord (ref : nat) (fields : gmap string Prim)
| VClean (ref : nat) (inner : FormatValue).

#[global] Instance FormatValue_eq_dec : EqDecision FormatValue.
Proof. solve_decision. Defined.

Definition isVoid (data : FormatValue) : bool :=
  match data with
  | VNull | VUndefined => true
  | _ => false
  end.

(** [left === right]. *)
Definition strict_eq (l r : FormatValue) : bool := bool_decide (l = r).

(** [typeof v === 'object'] (true of [null]). *)
Definition is_object (v : FormatValue) : bool :=
  match v with
  | VNull | VRecord _ _ | VClean _ _ => true
  | _ => false
  end.

(** [Object.keys(v)] for a value whose [typeof] is ['object']; it throws on
    [null]. *)
Definition object_keys (v : FormatValue) : option (list string) :=
  match v with
  | VRecord _ fields => Some (elements (dom fields))
  | VClean _ _ => Some ["value"%string]
  | _ => None
  end.

(** [v[key]]. *)
Definition get_prop (v : FormatValue) (key : string) : FormatValue :=
  match v with
  | VRecord _ fields =>
      match fields !! key with
      | Some p => VPrim p
      | None => VUndefined
      end
  | VClean _ inner => if decide (key = "value"%string) then inner else VUndefined
  | _ => VUndefined
  end.

(** [Format.equal]. *)
Definition equal (left right : FormatValue) : option bool :=
  if strict_eq left right then Some true
  else if is_object left && is_object right then
    leftKeys ← object_keys left;
    rightKeys ← object_keys right;
    if decide (length leftKeys = length rightKeys) then
      Some (forallb (λ key,
              bool_decide (key ∈ rightKeys)
              && strict_eq (get_prop right key) (get_prop left key)) leftKeys)
    else Some false
  else Some false.

(** ** Ranges *)

Record FormatRange := mkRange {
  startIndex : nat;
  endIndex : nat;
  value : FormatValue
}.

#[global] Instance FormatRange_eq_dec : EqDecision FormatRange.
Proof. solve_decision. Defined.

Definition set_startIndex (n : nat) (r : FormatRange) : FormatRange :=
  mkRange n (endIndex r) (value r).
Definition set_endIndex (n : nat) (r : FormatRange) : FormatRange :=
  mkRange (startIndex r) n (value r).
Definition set_value (v : FormatValue) (r : FormatRange) : FormatRange :=
  mkRange (startIndex r) (endIndex r) v.

(** ** Arrays of values *)

(** [values.length = n]: truncates, or extends with holes. *)
Definition set_length (n : nat) (values : list FormatValue) : list FormatValue :=
  resize n VUndefined values.

(** [values.fill(v, s, e)]: positions [s <= i < e] inside the array. *)
Definition fill (v : FormatValue) (s e : nat) (values : list FormatValue)
  : list FormatValue :=
  imap (λ i x, if bool_decide (s ≤ i ∧ i < e) then v else x) values.

(** [values.splice(index, deleteCount, ...items)], the array after the call. *)
Definition splice (index deleteCount : nat) (items values : list FormatValue)
  : list FormatValue :=
  take index values ++ items ++ drop (index + deleteCount) values.

(** [Format.tileRanges], with [slot.length] as [len]. *)
Definition tile_step (formatValues : list FormatValue) (range : FormatRange)
  : list FormatValue :=
  fill (value range) (startIndex range) (endIndex range)
    (set_length (length formatValues `max` endIndex range) formatValues).

Definition tileRanges (len : nat) (ranges : list FormatRange) : list FormatValue :=
  let formatValues := foldl tile_step [] ranges in
  set_length (length formatValues `min` len) formatValues.

(** [Format.toRanges].  The variable [range] of the source is either [null]
    or the range pushed last; [cur] is that range, kept apart from the
    ranges pushed before it, and [i] is the loop index. *)
Fixpoint toRanges_from (i : nat) (cur : option FormatRange)
    (values : list FormatValue) : option (list FormatRange) :=
  match values with
  | [] => Some (option_list cur)
  | item :: rest =>
      if isVoid item then
        (option_list cur ++.) <$> toRanges_from (S i) None rest
      else
        same ← equal (from_option value VUndefined cur) item;
        if (same : bool) then
          match cur with
          | Some range => toRanges_from (S i) (Some (set_endIndex (S i) range)) rest
          | None => None
          end
        else
          (option_list cur ++.) <$>
            toRanges_from (S i) (Some (mkRange i (S i) item)) rest
  end.

Definition toRanges (values : list FormatValue) : option (list FormatRange) :=
  toRanges_from 0 None values.

(** ** Formatters, slots and the store *)

Inductive FormatType := Block | Inline.

#[global] Instance FormatType_eq_dec : EqDecision FormatType.
Proof. solve_decision. Defined.

(** Modelled from the spec: the formatter descriptor of [./formatter], which
    is not among the sources.  [Format] reads [type], [overlap], [columned]
    and [name]; formatters are compared by identity, which [fid] stands
    for: two formatter objects are the same object iff they are equal terms. *)
Record Formatter := mkFormatter {
  fid : nat;
  name : string;
  type : FormatType;
  overlap : bool;
  columned : bool
}.

#[global] Instance Formatter_eq_dec : EqDecision Formatter.
Proof. solve_decision. Defined.

(** Modelled from the spec: the slot of [./slot], which is not among the
    sources.  [Format] reads only [slot.length]. *)
Record Slot := mkSlot { slot_length : nat }.

(** A JavaScript [Map] keyed by formatter identity, in insertion order. *)
Abbreviation FormatMap := (list (Formatter * list FormatRange)).

Fixpoint map_get (key : Formatter) (m : FormatMap) : option (list FormatRange) :=
  match m with
  | [] => None
  | (k, v) :: m' => if decide (key = k) then Some v else map_get key m'
  end.

Fixpoint map_set (key : Formatter) (v : list FormatRange) (m : FormatMap)
  : FormatMap :=
  match m with
  | [] => [(key, v)]
  | (k, v') :: m' =>
      if decide (key = k) then (k, v) :: m' else (k, v') :: map_set key v m'
  end.

Fixpoint map_delete (key : Formatter) (m : FormatMap) : FormatMap :=
  match m with
  | [] => []
  | (k, v) :: m' =>
      if decide (key = k) then m' else (k, v) :: map_delete key m'
  end.

(** [map.forEach(values => values.forEach(range => ...))] with a callback
    that updates the range it is given.  Each list owns its ranges: no range
    object is taken to be shared by two entries. *)
Definition map_each_range (f : FormatRange → FormatRange) (m : FormatMap)
  : FormatMap :=
  (λ kv : Formatter * list FormatRange, (kv.1, f <$> kv.2)) <$> m.

(** The class [Format]: its slot and its private [map]. *)
Record Format := mkFormat {
  slot : Slot;
  fmap_ : FormatMap
}.

Definition with_map (fmt : Format) (m : FormatMap) : Format :=
  mkFormat (slot fmt) m.

(** ** Grouping by value: [Format.formatRangesToMap] *)

(** The value-keyed [Map] of the source, in insertion order: each group with
    the value it was opened with. *)
Abbreviation ValueGroups := (list (FormatValue * list FormatRange)).

(** One round of the outer loop: the first key equal to [item.value] takes
    the item, else a new group is opened. *)
Fixpoint groups_add (item : FormatRange) (groups : ValueGroups)
  : option ValueGroups :=
  match groups with
  | [] => Some [(value item, [item])]
  | (key, ranges) :: rest =>
      hasKey ← equal key (value item);
      if (hasKey : bool) then Some ((key, ranges ++ [item]) :: rest)
      else ((key, ranges) ::.) <$> groups_add item rest
  end.

Fixpoint formatRangesToMap_from (groups : ValueGroups)
    (oldRanges : list FormatRange) : option ValueGroups :=
  match oldRanges with
  | [] => Some groups
  | item :: rest =>
      groups' ← groups_add item groups;
      formatRangesToMap_from groups' rest
  end.

Definition formatRangesToMap (oldRanges : list FormatRange)
  : option ValueGroups :=
  formatRangesToMap_from [] oldRanges.

(** [Array.from(map.values())]. *)
Definition group_values (groups : ValueGroups) : list (list FormatRange) :=
  groups.*2.

(** [groups.flat()]. *)
Definition flat (groups : list (list FormatRange)) : list FormatRange :=
  concat groups.

(** ** [Format.normalizeFormatRange] *)

(** [{...newRange, value: null}]. *)
Definition null_range (newRange : FormatRange) : FormatRange :=
  set_value VNull newRange.

(** [map.forEach(ranges => ranges.push({...newRange, value: null}))]. *)
Definition push_null_all (newRange : FormatRange) (groups : ValueGroups)
  : ValueGroups :=
  (λ g : FormatValue * list FormatRange,
     (g.1, g.2 ++ [null_range newRange])) <$> groups.

(** The loop over [map.keys()] of the overlap branch: the first key equal to
    [v] gets the null range, then [break]. *)
Fixpoint push_null_first (v : FormatValue) (newRange : FormatRange)
    (groups : ValueGroups) : option ValueGroups :=
  match groups with
  | [] => Some []
  | (item, ranges) :: rest =>
      found ← equal item v;
      if (found : bool) then Some ((item, ranges ++ [null_range newRange]) :: rest)
      else ((item, ranges) ::.) <$> push_null_first v newRange rest
  end.

(** The loop over [map.keys()] of the non-overlap branch: the first key equal
    to [v] has its group replaced by [toRanges(cleanValues)], then [break].
    The tiled and spliced [values] of the source are dropped there. *)
Fixpoint clean_first (len : nat) (v : FormatValue) (newRange : FormatRange)
    (groups : ValueGroups) : option ValueGroups :=
  match groups with
  | [] => Some []
  | (item, ranges) :: rest =>
      found ← equal item v;
      if (found : bool) then
        let values := tileRanges len ranges in
        let cleanValues :=
          replicate (endIndex newRange - startIndex newRange) VNull in
        let values' :=
          splice (startIndex newRange)
                 (endIndex newRange - startIndex newRange) cleanValues values in
        cleaned ← toRanges cleanValues;
        Some ((item, cleaned) :: rest)
      else ((item, ranges) ::.) <$> clean_first len v newRange rest
  end.

Definition normalizeFormatRange (len : nat) (formatter : Formatter)
    (oldRanges : list FormatRange) (newRange : option FormatRange)
  : option (list FormatRange) :=
  if overlap formatter then
    valueGroups ←
      match newRange with
      | Some nr =>
          match value nr with
          | VClean _ inner =>
              map ← formatRangesToMap oldRanges;
              if isVoid inner then Some (group_values (push_null_all nr map))
              else group_values <$> push_null_first inner nr map
          | v =>
              if isVoid v then
                map ← formatRangesToMap oldRanges;
                Some (group_values (push_null_all nr map))
              else group_values <$> formatRangesToMap (nr :: oldRanges)
          end
      | None => group_values <$> formatRangesToMap oldRanges
      end;
    flat <$> mapM (λ item, toRanges (tileRanges len item)) valueGroups
  else
    oldRanges' ←
      match newRange with
      | Some nr =>
          match value nr with
          | VClean _ inner =>
              map ← formatRangesToMap oldRanges;
              if isVoid inner then Some (oldRanges ++ [nr])
              else
                map' ← clean_first len (value nr) nr map;
                Some (flat (group_values map'))
          | _ => Some (oldRanges ++ [nr])
          end
      | None => Some oldRanges
      end;
    toRanges (tileRanges len oldRanges').

(** ** The operations of [Format] *)

(** The second argument of [merge]: a value for a block formatter, a range
    for an inline formatter (the two overloads of the source). *)
Inductive MergeData :=
| BlockData (data : FormatValue)
| InlineData (data : FormatRange).

(** [Format.merge].  A call that fits neither overload has no result. *)
Definition merge (formatter : Formatter) (data : MergeData) (fmt : Format)
  : option Format :=
  let len := slot_length (slot fmt) in
  let m := fmap_ fmt in
  match type formatter, data with
  | Block, BlockData data =>
      if isVoid data then Some (with_map fmt (map_delete formatter m))
      else if overlap formatter then
        match data with
        | VClean _ inner =>
            if isVoid inner then Some (with_map fmt (map_delete formatter m))
            else Some fmt
        | _ =>
            let oldRanges := default [] (map_get formatter m) in
            map ← formatRangesToMap oldRanges;
            (* [map.set(formatter, ...)]: the formatter object is no value of
               a range, so this opens one more group, the last one *)
            let groups := group_values map ++ [[mkRange 0 len data]] in
            Some (with_map fmt (map_set formatter (flat groups) m))
        end
      else
        match data with
        | VClean _ v =>
            if isVoid v then Some (with_map fmt (map_delete formatter m))
            else
              match map_get formatter m with
              | Some oldRanges =>
                  same ← equal (from_option value VUndefined (head oldRanges)) v;
                  if (same : bool)
                  then Some (with_map fmt (map_delete formatter m))
                  else Some fmt
              | None => Some fmt
              end
        | _ => Some (with_map fmt (map_set formatter [mkRange 0 len data] m))
        end
  | Inline, InlineData data =>
      match map_get formatter m with
      | None =>
          if isVoid (value data) then Some fmt
          else Some (with_map fmt (map_set formatter [data] m))
      | Some ranges =>
          newRanges ← normalizeFormatRange len formatter ranges (Some data);
          match newRanges with
          | [] => Some (with_map fmt (map_delete formatter m))
          | _ => Some (with_map fmt (map_set formatter newRanges m))
          end
      end
  | _, _ => None
  end.

(** [Format.stretch]: what the inner callback does to one range. *)
Definition stretch_range (index count : nat) (range : FormatRange) : FormatRange :=
  if decide (endIndex range < index) then range
  else
    let range' := set_endIndex (endIndex range + count) range in
    if decide (index ≤ startIndex range')
    then set_startIndex (startIndex range' + count) range'
    else range'.

Definition stretch (index count : nat) (fmt : Format) : Format :=
  with_map fmt (map_each_range (stretch_range index count) (fmap_ fmt)).

(** [Format.split]: the new range list of one entry of the map. *)
Definition split_entry (len index distance : nat) (key : Formatter)
    (formatRanges : list FormatRange) : option (list FormatRange) :=
  let expandedValues := replicate distance VUndefined in
  match type key with
  | Block =>
      Some ((λ i, set_endIndex (endIndex i + distance) i) <$> formatRanges)
  | Inline =>
      if overlap key then
        groups ← formatRangesToMap formatRanges;
        flat <$> mapM (λ group,
                   toRanges (splice index 0 expandedValues (tileRanges len group)))
                 (group_values groups)
      else
        toRanges (splice index 0 expandedValues (tileRanges len formatRanges))
  end.

Definition split (index distance : nat) (fmt : Format) : option Format :=
  let len := slot_length (slot fmt) in
  with_map fmt <$>
    mapM (λ kv : Formatter * list FormatRange,
            (λ ranges, (kv.1, ranges)) <$>
              split_entry len index distance kv.1 kv.2) (fmap_ fmt).

(** [Format.shrink]: what the inner callback of the first pass does to one
    range. *)
Definition shrink_range (startIndex' count : nat) (range : FormatRange)
  : FormatRange :=
  if decide (endIndex range ≤ startIndex') then range
  else
    let range' := set_endIndex (startIndex' `max` (endIndex range - count)) range in
    if decide (startIndex' < startIndex range')
    then set_startIndex (startIndex' `max` (startIndex range' - count)) range'
    else range'.

(** The second pass of [shrink] over the keys: each list is normalized, and
    the key deleted when nothing is left. *)
Fixpoint normalize_entries (len : nat) (m : FormatMap) : option FormatMap :=
  match m with
  | [] => Some []
  | (key, oldRanges) :: rest =>
      newRanges ← normalizeFormatRange len key oldRanges None;
      rest' ← normalize_entries len rest;
      match newRanges with
      | [] => Some rest'
      | _ => Some ((key, newRanges) :: rest')
      end
  end.

Definition shrink (startIndex' count : nat) (fmt : Format) : option Format :=
  let len := slot_length (slot fmt) in
  let m := map_each_range (shrink_range startIndex' count) (fmap_ fmt) in
  with_map fmt <$> normalize_entries len m.

(** [Format.extractFormatRangesByFormatter]. *)
Definition extract_range (startIndex' endIndex' : nat) (range : FormatRange)
  : list FormatRange :=
  if decide (endIndex' < startIndex range ∨ endIndex range < startIndex') then []
  else
    let s := startIndex range `max` startIndex' in
    let n := endIndex range `min` endIndex' in
    if decide (s < n) then [mkRange s n (value range)] else [].

Definition extractFormatRangesByFormatter (startIndex' endIndex' : nat)
    (formatter : Formatter) (fmt : Format) : list FormatRange :=
  let ranges := default [] (map_get formatter (fmap_ fmt)) in
  ranges ≫= extract_range startIndex' endIndex'.

(** The loop shared by [extract] and [createFormatByRange]: the entries are
    visited in order and set on a new map; [post] is what is done to the
    extracted ranges before they are stored. *)
Fixpoint extract_entries (post : list FormatRange → list FormatRange)
    (startIndex' endIndex' : nat) (this : Format) (keys : FormatMap)
    (acc : FormatMap) : FormatMap :=
  match keys with
  | [] => acc
  | (key, _) :: rest =>
      let extractRanges :=
        extractFormatRangesByFormatter startIndex' endIndex' key this in
      let acc' :=
        match extractRanges with
        | [] => acc
        | _ => map_set key (post extractRanges) acc
        end in
      extract_entries post startIndex' endIndex' this rest acc'
  end.

(** [Format.extract]. *)
Definition extract (startIndex' endIndex' : nat) (fmt : Format) : Format :=
  mkFormat (slot fmt)
    (extract_entries id startIndex' endIndex' fmt (fmap_ fmt) []).

(** [Format.createFormatByRange]. *)
Definition rebase (startIndex' : nat) (i : FormatRange) : FormatRange :=
  mkRange (startIndex i - startIndex') (endIndex i - startIndex') (value i).

Definition createFormatByRange (slot' : Slot) (startIndex' endIndex' : nat)
    (fmt : Format) : Format :=
  mkFormat slot'
    (extract_entries (fmap (rebase startIndex')) startIndex' endIndex' fmt
       (fmap_ fmt) []).

(** [Format.discard]: the normalized ranges are computed and dropped; the
    call returns [this]. *)
Definition discard (formatter : Formatter) (startIndex' endIndex' : nat)
    (fmt : Format) : option Format :=
  match map_get formatter (fmap_ fmt) with
  | Some oldRanges =>
      _ ← normalizeFormatRange (slot_length (slot fmt)) formatter oldRanges
            (Some (mkRange startIndex' endIndex' VNull));
      Some fmt
  | None => Some fmt
  end.

(** ** The tree view: [Format.toTree] *)

Record FormatItem := mkItem {
  item_formatter : Formatter;
  item_startIndex : nat;
  item_endIndex : nat;
  item_value : FormatValue
}.

(** [{formatter, ...range}]. *)
Definition item_of (formatter : Formatter) (range : FormatRange) : FormatItem :=
  mkItem formatter (startIndex range) (endIndex range) (value range).

(** [FormatTree]: [children] and [formats] are optional properties. *)
#[warnings="-register-all"]
Inductive FormatTree :=
| mkTree (tree_startIndex tree_endIndex : nat)
         (children : option (list FormatTree))
         (formats : option (list FormatItem)).

Definition tree_children (t : FormatTree) : option (list FormatTree) :=
  match t with mkTree _ _ children _ => children end.
Definition tree_formats (t : FormatTree) : option (list FormatItem) :=
  match t with mkTree _ _ _ formats => formats end.

(** The local variables of the first loop of [toTree]. *)
Record Scan := mkScan {
  nextStartIndex : nat;
  nextEndIndex : nat;
  scan_formats : list FormatItem;
  columnedFormats : list FormatItem
}.

(** The body of the inner loop, for one range of [formatter]; [kept] are the
    ranges of this formatter that were visited and not spliced out. *)
Definition scan_range (startIndex' endIndex' : nat) (formatter : Formatter)
    (acc : Scan * list FormatRange) (range : FormatRange)
  : Scan * list FormatRange :=
  let (st, kept) := acc in
  if decide (startIndex range = startIndex' ∧ endIndex range = endIndex') then
    if columned formatter then
      (mkScan (nextStartIndex st) (nextEndIndex st) (scan_formats st)
              (columnedFormats st ++ [item_of formatter range]),
       range :: kept)
    else
      (mkScan (nextStartIndex st) (nextEndIndex st)
              (scan_formats st ++ [item_of formatter range])
              (columnedFormats st),
       kept)
  else if decide (startIndex range < nextStartIndex st) then
    (mkScan (startIndex range) (endIndex range) (scan_formats st)
            (columnedFormats st),
     range :: kept)
  else if decide (startIndex range = nextStartIndex st) then
    (mkScan (nextStartIndex st) (nextEndIndex st `max` endIndex range)
            (scan_formats st) (columnedFormats st),
     range :: kept)
  else (st, range :: kept).

(** The inner loop runs from the last range to the first. *)
Definition scan_ranges (startIndex' endIndex' : nat) (formatter : Formatter)
    (st : Scan) (ranges : list FormatRange) : Scan * list FormatRange :=
  foldl (scan_range startIndex' endIndex' formatter) (st, []) (reverse ranges).

(** The outer loop over the keys of [copyFormat]; an entry whose list was
    emptied has been deleted from the map. *)
Fixpoint scan_entries (startIndex' endIndex' : nat) (st : Scan)
    (entries : FormatMap) : Scan * FormatMap :=
  match entries with
  | [] => (st, [])
  | (formatter, ranges) :: rest =>
      let (st', kept) := scan_ranges startIndex' endIndex' formatter st ranges in
      let (st'', rest') := scan_entries startIndex' endIndex' st' rest in
      (st'', match kept with
             | [] => rest'
             | _ => (formatter, kept) :: rest'
             end)
  end.

Definition rangeCount (m : FormatMap) : nat :=
  foldl (λ n (kv : Formatter * list FormatRange), n + length kv.2) 0 m.

(** The local function [push] of [toTree]: what it appends to
    [tree.children]. *)
Definition push (childTree : FormatTree) : list FormatTree :=
  match tree_formats childTree, tree_children childTree with
  | Some _, _ => [childTree]
  | None, Some children => children
  | None, None => [childTree]
  end.

Definition nonempty_opt {A} (l : list A) : option (list A) :=
  match l with
  | [] => None
  | _ => Some l
  end.

(** [Format.toTree], by recursion on a bound [fuel] of the nesting depth;
    [None] only when the bound is reached. *)
Fixpoint toTree_fuel (fuel : nat) (startIndex' endIndex' : nat) (fmt : Format)
  : option FormatTree :=
  match fuel with
  | 0 => None
  | S fuel' =>
      let copyFormat := extract startIndex' endIndex' fmt in
      let (st, m) :=
        scan_entries startIndex' endIndex'
          (mkScan endIndex' startIndex' [] []) (fmap_ copyFormat) in
      let copyFormat := with_map copyFormat m in
      let hasChildren := bool_decide (length (columnedFormats st) < rangeCount m) in
      if hasChildren then
        before ←
          (if decide (startIndex' < nextStartIndex st) then
             match columnedFormats st with
             | _ :: _ =>
                 childTree ←
                   toTree_fuel fuel' startIndex' (nextStartIndex st)
                     (extract startIndex' (nextStartIndex st) copyFormat);
                 Some [childTree]
             | [] => Some [mkTree startIndex' (nextStartIndex st) None None]
             end
           else Some []);
        nextTree ←
          toTree_fuel fuel' (nextStartIndex st) (nextEndIndex st) copyFormat;
        after ←
          (if decide (nextEndIndex st < endIndex') then
             afterTree ←
               toTree_fuel fuel' (nextEndIndex st) endIndex'
                 (extract (nextEndIndex st) endIndex' copyFormat);
             Some (push afterTree)
           else Some []);
        Some (mkTree startIndex' endIndex'
                (Some (before ++ push nextTree ++ after))
                (nonempty_opt (scan_formats st)))
      else
        Some (mkTree startIndex' endIndex' None
                (nonempty_opt (scan_formats st ++ columnedFormats st)))
  end.

Definition toTree (startIndex' endIndex' : nat) (fmt : Format)
  : option FormatTree :=
  toTree_fuel (S (endIndex' - startIndex')) startIndex' endIndex' fmt.

(** The spans of the leaves of a tree, from left to right: a node without
    [children] is a leaf. *)
Fixpoint leaf_spans (t : FormatTree) : list (nat * nat) :=
  match t with
  | mkTree s e None _ => [(s, e)]
  | mkTree _ _ (Some children) _ =>
      (fix go (ts : list FormatTree) : list (nat * nat) :=
         match ts with
         | [] => []
         | c :: ts' => leaf_spans c ++ go ts'
         end) children
  end.

(** ** The views: [Format.extractFormatsByIndex] and [Format.toGrid] *)

(** [Formats]: pairs of a formatter and a value. *)
Abbreviation Formats := (list (Formatter * FormatValue)).

(** [Format.extractFormatsByIndex]. *)
Definition extractFormatsByIndex (index : nat) (fmt : Format) : Formats :=
  if decide (index = 0) then
    fmap_ fmt ≫= λ kv : Formatter * list FormatRange,
      (λ i, (kv.1, value i))
        <$> filter (λ i, startIndex i = 0) kv.2
  else
    fmap_ fmt ≫= λ kv : Formatter * list FormatRange,
      (λ i, (kv.1, value i))
        <$> filter (λ i, startIndex i < index ∧ index ≤ endIndex i) kv.2.

(** [splitPoints.add(x)] on a [Set], kept in insertion order. *)
Definition set_add (x : nat) (splitPoints : list nat) : list nat :=
  if decide (x ∈ splitPoints) then splitPoints else splitPoints ++ [x].

(** [Format.toGrid]: the points of the set, sorted by [(a, b) => a - b]. *)
Definition toGrid (fmt : Format) : list nat :=
  let splitPoints := set_add (slot_length (slot fmt)) (set_add 0 []) in
  let splitPoints :=
    foldl (λ points (kv : Formatter * list FormatRange),
             foldl (λ points item,
                      set_add (endIndex item) (set_add (startIndex item) points))
                   points kv.2)
          splitPoints (fmap_ fmt) in
  merge_sort (≤) splitPoints.

(** ** The scenarios of the specification *)

Definition vtrue : FormatValue := VPrim (PBool true).
Definition vstr (s : string) : FormatValue := VPrim (PStr s).

(** Two non-overlap inline formatters and an overlap inline formatter. *)
Definition bold : Formatter := mkFormatter 0 "bold" Inline false false.
Definition italic : Formatter := mkFormatter 1 "italic" Inline false false.
Definition comment : Formatter := mkFormatter 2 "comment" Inline true false.

(** A slot of length 10, and [new Format(slot)]. *)
Definition slot10 : Slot := mkSlot 10.
Definition empty_format (s : Slot) : Format := mkFormat s [].

(** Scenario A: bold over [2, 5), then bold over [4, 8). *)
Definition scenarioA : option Format :=
  merge bold (InlineData (mkRange 2 5 vtrue)) (empty_format slot10)
  ≫= merge bold (InlineData (mkRange 4 8 vtrue)).

(** Scenario B: scenario A, then [stretch(3, 1)]. *)
Definition scenarioB : option Format := stretch 3 1 <$> scenarioA.

(** Scenario C: scenario B, then [shrink(3, 2)]. *)
Definition scenarioC : option Format := scenarioB ≫= shrink 3 2.

(** Scenario D: bold over [0, 10) and italic over [3, 7). *)
Definition scenarioD : option Format :=
  merge bold (InlineData (mkRange 0 10 vtrue)) (empty_format slot10)
  ≫= merge italic (InlineData (mkRange 3 7 vtrue)).

(** A comment with value ["a"] over [0, 5). *)
Definition commented : Format :=
  mkFormat slot10 [(comment, [mkRange 0 5 (vstr "a")])].

(** * The vocabulary of the properties *)

(** ** Arrays: [set_length], [fill] and [tileRanges] *)

(** Position [j] lies in the half-open interval of [r]. *)
Definition covers (r : FormatRange) (j : nat) : Prop :=
  startIndex r ≤ j ∧ j < endIndex r.

#[global] Instance covers_dec r j : Decision (covers r j).
Proof. unfold covers. apply _. Defined.

(** The value painted at position [j] by the ranges, in order, over [d]. *)
Definition paint_at (j : nat) (d : FormatValue) (ranges : list FormatRange)
  : FormatValue :=
  foldl (λ d r, if decide (covers r j) then value r else d) d ranges.

(** The length [tileRanges] gives its array before clipping it to the slot:
    the largest [endIndex], starting from [n]. *)
Definition max_end (n : nat) (ranges : list FormatRange) : nat :=
  foldl (λ n r, n `max` endIndex r) n ranges.

(** ** [toRanges] *)

(** The loop invariant of [toRanges] on [range]: a non-empty run that ends at
    the loop index and carries a value that is not void. *)
Definition cur_ok (i : nat) (cur : option FormatRange) : Prop :=
  match cur with
  | Some c => startIndex c < endIndex c ∧ endIndex c = i ∧ isVoid (value c) = false
  | None => True
  end.

(** ** Round trip of [toRanges] and [tileRanges] (C3) *)

(** The entry [a] carries the value of the entry [x]: where [x] is void
    ([null], [undefined] or a hole), [a] is a hole; elsewhere [Format.equal]
    holds between them. *)
Definition same_value (a x : FormatValue) : Prop :=
  if isVoid x then a = VUndefined else equal a x = Some true.

(** An entry that is a hole or a primitive. *)
Definition plain_entry (x : FormatValue) : Prop :=
  x = VUndefined ∨ ∃ p, x = VPrim p.

(** ** Normal range lists *)

(** [Format.equal] returns [true]. *)
Definition value_equal (a b : FormatValue) : Prop := equal a b = Some true.

(** A list of non-empty ranges in which each range starts at or after the end
    of the one before it and, when it starts exactly there, carries a value
    that is not equal to the one before it; [prev] is the range before the
    list. *)
Fixpoint chain (prev : option FormatRange) (rs : list FormatRange) : Prop :=
  match rs with
  | [] => True
  | r :: rs' =>
      startIndex r < endIndex r
      ∧ match prev with
        | Some p =>
            endIndex p ≤ startIndex r
            ∧ (endIndex p = startIndex r → ¬ value_equal (value p) (value r))
        | None => True
        end
      ∧ chain (Some r) rs'
  end.

(** ** Tiling a normal list and reading it back *)

(** The array that a chain of ranges tiles, from position [pos] on: holes up
    to each range, then its value. *)
Fixpoint render (pos : nat) (rs : list FormatRange) : list FormatValue :=
  match rs with
  | [] => []
  | r :: rs' =>
      replicate (startIndex r - pos) VUndefined
      ++ replicate (endIndex r - startIndex r) (value r)
      ++ render (endIndex r) rs'
  end.

(** The first range, if any, starts at or after [pos]. *)
Definition lower_bounded (pos : nat) (rs : list FormatRange) : Prop :=
  match rs with
  | [] => True
  | r :: _ => pos ≤ startIndex r
  end.

(** ** Grouping by value *)

(** A group of the value map: its key is not void, it is not empty, and its
    ranges satisfy [Q]. *)
Definition group_ok (Q : FormatRange → Prop)
    (g : FormatValue * list FormatRange) : Prop :=
  isVoid g.1 = false ∧ g.2 ≠ [] ∧ Forall Q g.2.

(** ** Stored values *)

(** No stored value is void. *)
Definition values_defined (m : FormatMap) : Prop :=
  Forall (λ kv, Forall (λ r, isVoid (value r) = false) kv.2) m.

(** ** [extract] *)

(** A range inside the window [s, e). *)
Definition within (s e : nat) (r : FormatRange) : Prop :=
  s ≤ startIndex r ∧ startIndex r < endIndex r ∧ endIndex r ≤ e.

(** ** The first loop of [toTree] *)

(** The invariant of the loop after it has kept [kept] ranges: either no
    range other than the columned ranges spanning the window was met, and
    [nextStartIndex], [nextEndIndex] are as initialized; or one was met, and
    the next window is a non-empty proper part of [s, e). *)
Definition scan_inv (s e : nat) (st : Scan) (kept : nat) : Prop :=
  (kept = length (columnedFormats st)
   ∧ nextStartIndex st = e ∧ nextEndIndex st = s)
  ∨ (length (columnedFormats st) < kept
     ∧ s ≤ nextStartIndex st ∧ nextStartIndex st < nextEndIndex st
     ∧ nextEndIndex st ≤ e
     ∧ (s < nextStartIndex st ∨ nextEndIndex st < e)).

(** ** The leaves of [toTree] (C1) *)

(** [spans] are non-empty half-open intervals that follow each other from
    [s] to [e] without a gap. *)
Fixpoint tiles (s e : nat) (spans : list (nat * nat)) : Prop :=
  match spans with
  | [] => s = e
  | (a, b) :: rest => a = s ∧ a < b ∧ tiles b e rest
  end.

(** The spans of the leaves of a list of trees. *)
Definition leaf_spans_list (ts : list FormatTree) : list (nat * nat) :=
  ts ≫= leaf_spans.

(** Position [x] lies in the span [a]. *)
Definition in_span (a : nat * nat) (x : nat) : Prop := a.1 ≤ x ∧ x < a.2.

(** The spans are contiguous, do not overlap, and their union is [s, e). *)
Definition partitions (s e : nat) (spans : list (nat * nat)) : Prop :=
  (∀ i a b, spans !! i = Some a → spans !! S i = Some b → a.2 = b.1)
  ∧ (∀ i j a b x, spans !! i = Some a → spans !! j = Some b →
                  in_span a x → in_span b x → i = j)
  ∧ (∀ x, s ≤ x ∧ x < e ↔ ∃ a, a ∈ spans ∧ in_span a x).

(** ** Cleaning on an overlap inline formatter (C9) *)

(** The stored list of an overlap formatter is in the form that
    [normalizeFormatRange] gives it: the concatenation of its value groups,
    each of them a chain of ranges inside the slot with values that are not
    void. *)
Definition grouped_normal (len : nat) (old : list FormatRange)
    (groups : ValueGroups) : Prop :=
  formatRangesToMap old = Some groups
  ∧ flat (group_values groups) = old
  ∧ Forall (λ g, chain None g.2
                 ∧ Forall (λ r, endIndex r ≤ len) g.2
                 ∧ Forall (λ r, isVoid (value r) = false) g.2) groups.

(** When a merge on an overlap inline formatter is known to change nothing:
    null-valued data and no stored ranges; or a [CleanFormatRule] whose value
    is not void and equals the key of no value group of a stored list that is
    not empty and in normal form. *)
Definition clean_without_match (fmt : Format) (f : Formatter)
    (data : FormatRange) : Prop :=
  (map_get f (fmap_ fmt) = None ∧ isVoid (value data) = true)
  ∨ ∃ old groups ref v,
      value data = VClean ref v ∧ isVoid v = false
      ∧ map_get f (fmap_ fmt) = Some old ∧ old ≠ []
      ∧ grouped_normal (slot_length (slot fmt)) old groups
      ∧ Forall (λ g, equal g.1 v = Some false) groups.

(** ** What the operations write *)

(** The call fits one of the two overloads of [merge]. *)
Definition well_typed (f : Formatter) (data : MergeData) : Prop :=
  match type f, data with
  | Block, BlockData _ | Inline, InlineData _ => True
  | _, _ => False
  end.

(** The lists that [merge] can set for its formatter. *)
Inductive merge_writes (fmt : Format) (f : Formatter)
  : MergeData → list FormatRange → Prop :=
| writes_block d :
    type f = Block → overlap f = false → isVoid d = false →
    merge_writes fmt f (BlockData d) [mkRange 0 (slot_length (slot fmt)) d]
| writes_block_overlap d groups :
    type f = Block → overlap f = true → isVoid d = false →
    formatRangesToMap (default [] (map_get f (fmap_ fmt))) = Some groups →
    merge_writes fmt f (BlockData d)
      (flat (group_values groups ++ [[mkRange 0 (slot_length (slot fmt)) d]]))
| writes_first data :
    type f = Inline → map_get f (fmap_ fmt) = None →
    isVoid (value data) = false →
    merge_writes fmt f (InlineData data) [data]
| writes_normalized data old newRanges :
    type f = Inline → map_get f (fmap_ fmt) = Some old →
    normalizeFormatRange (slot_length (slot fmt)) f old (Some data)
    = Some newRanges →
    newRanges ≠ [] →
    merge_writes fmt f (InlineData data) newRanges.

(** A non-empty range inside the slot whose value is not void. *)
Definition in_slot (len : nat) (r : FormatRange) : Prop :=
  startIndex r < endIndex r ∧ endIndex r ≤ len ∧ isVoid (value r) = false.

(** ** No empty list in the map (C7) *)

(** No key of the map has an empty list. *)
Definition no_empty (m : FormatMap) : Prop := Forall (λ kv, kv.2 ≠ []) m.

(** Every stored range of an inline formatter is a non-empty range inside
    the slot with a value that is not void. *)
Definition inline_in_slot (fmt : Format) : Prop :=
  Forall (λ kv, type kv.1 = Inline →
                Forall (in_slot (slot_length (slot fmt))) kv.2) (fmap_ fmt).

(** ** Sorted, disjoint, coalesced lists (C8) *)


(** The invariant of the list of a non-overlap formatter: it has at most
    one range, or it is a chain; a block formatter has at most one range. *)
Definition sorted_inv (f : Formatter) (rs : list FormatRange) : Prop :=
  (type f = Block → length rs ≤ 1) ∧ (length rs ≤ 1 ∨ chain None rs).

(** The invariant holds for every key whose [overlap] flag is false. *)
Definition store_sorted (m : FormatMap) : Prop :=
  Forall (λ kv, overlap kv.1 = false → sorted_inv kv.1 kv.2) m.

(** The ranges follow each other by [startIndex] and no two of them share a
    position. *)
Definition disjoint_sorted (rs : list FormatRange) : Prop :=
  ∀ i j a b, i < j → rs !! i = Some a → rs !! j = Some b →
             startIndex a ≤ startIndex b ∧ ∀ x, ¬ (covers a x ∧ covers b x).

(** Two ranges that follow each other and touch do not carry equal values. *)
Definition coalesced (rs : list FormatRange) : Prop :=
  ∀ i a b, rs !! i = Some a → rs !! S i = Some b →
           endIndex a = startIndex b → ¬ value_equal (value a) (value b).

(** ** [extract] as a map over the entries *)

(** An entry of the map clipped to the window [s, e): dropped when nothing of
    its ranges is left. *)
Definition clip_entry (s e : nat) (kv : Formatter * list FormatRange)
  : option (Formatter * list FormatRange) :=
  (λ rs, (kv.1, rs)) <$> nonempty_opt (kv.2 ≫= extract_range s e).

(** ** Stores in normal form *)

(** The list of a key in the form that [normalizeFormatRange] gives it: not
    empty, of ranges that end inside the slot with values that are not void;
    a chain for a non-overlap formatter, the concatenation of the chains of
    its value groups for an overlap formatter. *)
Definition normal_entry (len : nat) (kv : Formatter * list FormatRange) : Prop :=
  kv.2 ≠ []
  ∧ if overlap kv.1 then ∃ groups, grouped_normal len kv.2 groups
    else chain None kv.2
         ∧ Forall (λ r, endIndex r ≤ len) kv.2
         ∧ Forall (λ r, isVoid (value r) = false) kv.2.

Definition normal_store (fmt : Format) : Prop :=
  Forall (normal_entry (slot_length (slot fmt))) (fmap_ fmt).

(** ** [split] *)

(** The value that the ranges paint at position [j] of a slot of length
    [len]: nothing beyond the slot. *)
Definition slot_paint (len : nat) (rs : list FormatRange) (j : nat)
  : FormatValue :=
  if decide (j < len) then paint_at j VUndefined rs else VUndefined.

(** ** The formats of the tree *)

Definition tree_start (t : FormatTree) : nat :=
  match t with mkTree s _ _ _ => s end.
Definition tree_end (t : FormatTree) : nat :=
  match t with mkTree _ e _ _ => e end.

(** The items of all the nodes of a tree. *)
Fixpoint tree_items (t : FormatTree) : list FormatItem :=
  match t with
  | mkTree _ _ children formats =>
      default [] formats
      ++ match children with
         | Some cs =>
             (fix go (ts : list FormatTree) : list FormatItem :=
                match ts with
                | [] => []
                | c :: ts' => tree_items c ++ go ts'
                end) cs
         | None => []
         end
  end.

Definition tree_items_list (ts : list FormatTree) : list FormatItem :=
  ts ≫= tree_items.

(** Every item of a node spans the window of the node, and the window of a
    child lies inside the window of its parent. *)
Fixpoint well_spanned (t : FormatTree) : Prop :=
  match t with
  | mkTree s e children formats =>
      Forall (λ it, item_startIndex it = s ∧ item_endIndex it = e)
             (default [] formats)
      ∧ match children with
        | Some cs =>
            (fix go (ts : list FormatTree) : Prop :=
               match ts with
               | [] => True
               | c :: ts' =>
                   (s ≤ tree_start c ∧ tree_end c ≤ e ∧ well_spanned c)
                   ∧ go ts'
               end) cs
        | None => True
        end
  end.

(** A child inside the window [s, e) whose nodes are well spanned. *)
Definition child_ok (s e : nat) (c : FormatTree) : Prop :=
  s ≤ tree_start c ∧ tree_end c ≤ e ∧ well_spanned c.

(** The range spans the whole window. *)
Definition spanning (s e : nat) (r : FormatRange) : Prop :=
  startIndex r = s ∧ endIndex r = e.

#[global] Instance spanning_dec s e r : Decision (spanning s e r).
Proof. unfold spanning. apply _. Defined.

(** The ranges of a formatter that the first loop of [toTree] leaves in
    [copyFormat]: all but the spanning ranges of a formatter that is not
    columned. *)
Definition kept_ranges (s e : nat) (f : Formatter) (rs : list FormatRange)
  : list FormatRange :=
  filter (λ r, ¬ (spanning s e r ∧ columned f = false)) rs.

Definition kept_entry (s e : nat) (kv : Formatter * list FormatRange)
  : option (Formatter * list FormatRange) :=
  (λ rs, (kv.1, rs)) <$> nonempty_opt (kept_ranges s e kv.1 kv.2).

(** The store holds the value [v] for the formatter [f] at position [j]. *)
Definition stored_at (m : FormatMap) (f : Formatter) (v : FormatValue)
    (j : nat) : Prop :=
  ∃ rs r, (f, rs) ∈ m ∧ r ∈ rs ∧ value r = v ∧ covers r j.

(** An item of the tree carries the value [v] for the formatter [f] over a
    window that holds position [j]. *)
Definition tree_at (items : list FormatItem) (f : Formatter) (v : FormatValue)
    (j : nat) : Prop :=
  ∃ it, it ∈ items ∧ item_formatter it = f ∧ item_value it = v
        ∧ item_startIndex it ≤ j ∧ j < item_endIndex it.

(** The tree over the window [s, e) of the store [m]: every item spans its
    node, and the items that hold a position are the stored values there. *)
Definition tree_ok (s e : nat) (m : FormatMap) (t : FormatTree) : Prop :=
  tree_start t = s ∧ tree_end t = e ∧ well_spanned t
  ∧ ∀ f v j, tree_at (tree_items t) f v j
             ↔ s ≤ j ∧ j < e ∧ stored_at m f v j.

(** ** The value groups *)

(** What [formatRangesToMap] keeps while it has read the ranges [seen]: the
    groups hold the ranges read, each group in reading order under the value
    of its first range, with every range of the group equal to that value,
    and no key equal to a key after it. *)
Definition groups_of (seen : list FormatRange) (groups : ValueGroups) : Prop :=
  flat (group_values groups) ≡ₚ seen
  ∧ Forall (λ g, head (value <$> g.2) = Some g.1
                 ∧ Forall (λ r, equal g.1 (value r) = Some true) g.2
                 ∧ g.2 `sublist_of` seen) groups
  ∧ ∀ i j k1 k2, i < j → groups.*1 !! i = Some k1 → groups.*1 !! j = Some k2 →
                 equal k1 k2 = Some false.

(** * Properties *)

(** ** Two evaluations *)

Example tile_ex : tileRanges 10 [mkRange 2 5 vtrue; mkRange 4 8 vtrue]
  = [VUndefined; VUndefined; vtrue; vtrue; vtrue; vtrue; vtrue; vtrue].
Proof. reflexivity. Qed.

Example toRanges_ex :
  toRanges (tileRanges 10 [mkRange 2 5 vtrue; mkRange 4 8 vtrue])
  = Some [mkRange 2 8 vtrue].
Proof. vm_compute. reflexivity. Qed.

(** ** Value equality *)

Lemma strict_eq_refl v : strict_eq v v = true.
Proof. unfold strict_eq. by rewrite bool_decide_eq_true. Qed.

Lemma equal_refl v : equal v v = Some true.
Proof. unfold equal. by rewrite strict_eq_refl. Qed.

(** [equal] raises only when one side is [null] and the other an object. *)
Lemma equal_defined l r : l ≠ VNull → r ≠ VNull → is_Some (equal l r).
Proof.
  intros Hl Hr. unfold equal.
  destruct (strict_eq l r); [done|].
  destruct l, r; simpl; try done; case_decide; done.
Qed.

Lemma equal_nonvoid l r :
  isVoid l = false → isVoid r = false → is_Some (equal l r).
Proof. intros Hl Hr. apply equal_defined; by intros ->. Qed.

Lemma equal_undefined_l r : isVoid r = false → equal VUndefined r = Some false.
Proof. by destruct r. Qed.

(** A value equal to a primitive is that primitive. *)
Lemma equal_prim_r x p : equal x (VPrim p) = Some true → x = VPrim p.
Proof.
  unfold equal, strict_eq. case_bool_decide; [done|].
  rewrite andb_false_r. done.
Qed.

(** ** Arrays: [set_length], [fill] and [tileRanges] *)

Lemma paint_at_app j d l1 l2 :
  paint_at j d (l1 ++ l2) = paint_at j (paint_at j d l1) l2.
Proof. apply foldl_app. Qed.

Lemma max_end_app n l1 l2 : max_end n (l1 ++ l2) = max_end (max_end n l1) l2.
Proof. apply foldl_app. Qed.

Lemma max_end_ge n rs : n ≤ max_end n rs.
Proof.
  revert n. induction rs as [|r rs IH]; intros n; simpl; [lia|].
  specialize (IH (n `max` endIndex r)). unfold max_end in *. lia.
Qed.

Lemma max_end_mono n m rs : n ≤ m → max_end n rs ≤ max_end m rs.
Proof.
  revert n m. induction rs as [|r rs IH]; intros n m H; simpl; [done|].
  apply IH. lia.
Qed.

Lemma max_end_elem n rs r : r ∈ rs → endIndex r ≤ max_end n rs.
Proof.
  revert n. induction rs as [|r' rs IH]; intros n Hin; [by apply elem_of_nil in Hin|].
  apply elem_of_cons in Hin as [->|Hin]; simpl.
  - etrans; [|apply max_end_ge]. lia.
  - by apply IH.
Qed.

Lemma max_end_bound n rs b :
  n ≤ b → (∀ r, r ∈ rs → endIndex r ≤ b) → max_end n rs ≤ b.
Proof.
  revert n. induction rs as [|r rs IH]; intros n Hn Hb; simpl; [done|].
  apply IH.
  - specialize (Hb r ltac:(set_solver)). lia.
  - intros r' Hr'. apply Hb. set_solver.
Qed.

Lemma set_length_length n vs : length (set_length n vs) = n.
Proof. apply length_resize. Qed.

Lemma fill_length v s e vs : length (fill v s e vs) = length vs.
Proof. apply length_imap. Qed.

Lemma set_length_lookup n vs j :
  j < n → set_length n vs !! j = Some (default VUndefined (vs !! j)).
Proof.
  intros Hj. unfold set_length.
  destruct (decide (j < length vs)) as [Hlt|Hge].
  - rewrite lookup_resize by done.
    destruct (lookup_lt_is_Some_2 vs j Hlt) as [x ->]. done.
  - rewrite lookup_resize_new by lia.
    rewrite (lookup_ge_None_2 vs j) by lia. done.
Qed.

Lemma fill_lookup v s e vs j :
  fill v s e vs !! j
  = (λ x, if decide (s ≤ j ∧ j < e) then v else x) <$> vs !! j.
Proof.
  unfold fill. rewrite list_lookup_imap.
  destruct (vs !! j); simpl; [|done].
  case_bool_decide; case_decide; done.
Qed.

Lemma tile_fold_length acc rs :
  length (foldl tile_step acc rs) = max_end (length acc) rs.
Proof.
  revert acc. induction rs as [|r rs IH]; intros acc; simpl; [done|].
  rewrite IH. unfold tile_step.
  by rewrite fill_length, set_length_length.
Qed.

Lemma tile_fold_lookup acc rs j :
  j < max_end (length acc) rs →
  foldl tile_step acc rs !! j
  = Some (paint_at j (default VUndefined (acc !! j)) rs).
Proof.
  revert acc. induction rs as [|r rs IH]; intros acc Hj; simpl in *.
  - destruct (lookup_lt_is_Some_2 acc j Hj) as [x ->]. done.
  - rewrite IH.
    + f_equal. f_equal. unfold tile_step.
      rewrite fill_lookup.
      destruct (decide (j < length acc `max` endIndex r)) as [Hlt|Hge].
      * rewrite set_length_lookup by done. simpl.
        unfold covers. by repeat case_decide.
      * rewrite (lookup_ge_None_2 (set_length _ _) j)
          by (rewrite set_length_length; lia).
        rewrite (lookup_ge_None_2 acc j) by lia. simpl.
        unfold covers. case_decide; [lia|done].
    + unfold tile_step. by rewrite fill_length, set_length_length.
Qed.

Lemma tileRanges_length len rs :
  length (tileRanges len rs) = max_end 0 rs `min` len.
Proof.
  unfold tileRanges. by rewrite set_length_length, tile_fold_length.
Qed.

Lemma tileRanges_lookup len rs j :
  j < max_end 0 rs `min` len →
  tileRanges len rs !! j = Some (paint_at j VUndefined rs).
Proof.
  intros Hj. unfold tileRanges.
  rewrite tile_fold_length. simpl.
  rewrite set_length_lookup by done.
  rewrite tile_fold_lookup by (simpl; lia). done.
Qed.

(** ** [toRanges] *)

Lemma cur_ok_extend i c :
  cur_ok i (Some c) → cur_ok (S i) (Some (set_endIndex (S i) c)).
Proof. intros (?&?&?). unfold cur_ok; simpl. repeat split; [lia|done]. Qed.

Lemma cur_ok_new i item :
  isVoid item = false → cur_ok (S i) (Some (mkRange i (S i) item)).
Proof. intros ?. unfold cur_ok; simpl. repeat split; [lia|done]. Qed.

(** The three ways one round of the loop can go. *)
Lemma toRanges_from_cons i cur item rest :
  cur_ok i cur →
  (isVoid item = true ∧
   toRanges_from i cur (item :: rest)
   = (option_list cur ++.) <$> toRanges_from (S i) None rest)
  ∨ (isVoid item = false ∧
     ∃ c, cur = Some c ∧ equal (value c) item = Some true ∧
     toRanges_from i cur (item :: rest)
     = toRanges_from (S i) (Some (set_endIndex (S i) c)) rest)
  ∨ (isVoid item = false ∧
     equal (from_option value VUndefined cur) item = Some false ∧
     toRanges_from i cur (item :: rest)
     = (option_list cur ++.) <$>
         toRanges_from (S i) (Some (mkRange i (S i) item)) rest).
Proof.
  intros Hcur. simpl.
  destruct (isVoid item) eqn:Hv; [by left|right].
  destruct cur as [c|]; simpl.
  - destruct Hcur as (_&_&Hc).
    destruct (equal_nonvoid (value c) item Hc Hv) as [[] Heq]; rewrite Heq; simpl.
    + left. split; [done|]. by exists c.
    + right. done.
  - right. rewrite equal_undefined_l by done. done.
Qed.

(** One round of the loop in a hypothesis [Hout] about its result: the three
    cases of [toRanges_from_cons], with the equation rewritten in [Hout]. *)
Ltac toRanges_round Hcur Hout :=
  let Heq := fresh "Heq" in
  lazymatch type of Hout with
  | toRanges_from ?i ?cur (?item :: ?rest) = _ =>
      destruct (toRanges_from_cons i cur item rest Hcur)
        as [(Hv&Heq)|[(Hv&c&->&Hsame&Heq)|(Hv&Hdiff&Heq)]];
      rewrite Heq in Hout; clear Heq
  end.

(** [toRanges] never raises. *)
Lemma toRanges_from_total values i cur :
  cur_ok i cur → is_Some (toRanges_from i cur values).
Proof.
  revert i cur. induction values as [|item rest IH]; intros i cur Hcur; [done|].
  destruct (toRanges_from_cons i cur item rest Hcur)
    as [(Hv&->)|[(Hv&c&->&Heq&->)|(Hv&Heq&->)]].
  - destruct (IH (S i) None I) as [out ->]. done.
  - apply IH. by apply cur_ok_extend.
  - destruct (IH (S i) (Some (mkRange i (S i) item))) as [out ->];
      [by apply cur_ok_new|done].
Qed.

Lemma toRanges_total values : is_Some (toRanges values).
Proof. by apply toRanges_from_total. Qed.

(** What the ranges of [toRanges] paint at each position. *)
Lemma toRanges_from_paint values i cur out :
  cur_ok i cur → toRanges_from i cur values = Some out →
  ∀ j d,
    (j < i → paint_at j d out = paint_at j d (option_list cur)) ∧
    (i + length values ≤ j → paint_at j d out = d) ∧
    (∀ x, i ≤ j → values !! (j - i) = Some x →
          if isVoid x then paint_at j d out = d
          else equal (paint_at j d out) x = Some true).
Proof.
  revert i cur out.
  induction values as [|item rest IH]; intros i cur out Hcur Hout j d.
  { simpl in Hout. injection Hout as <-. split; [done|]. split; [|done].
    intros Hj. destruct cur as [c|]; simpl; [|done].
    destruct Hcur as (_&He&_). unfold covers. case_decide; [lia|done]. }
  assert (Hnocur : i ≤ j → paint_at j d (option_list cur) = d).
  { intros Hj. destruct cur as [c|]; simpl; [|done].
    destruct Hcur as (_&He&_). unfold covers. case_decide; [lia|done]. }
  toRanges_round Hcur Hout.
  - destruct (toRanges_from (S i) None rest) as [out'|] eqn:Hrec; [|done].
    simpl in Hout. injection Hout as <-.
    destruct (IH (S i) None out' I Hrec j (paint_at j d (option_list cur)))
      as (IH1&IH2&IH3).
    rewrite paint_at_app. simpl length. split; [|split].
    + intros Hj. rewrite IH1 by lia. done.
    + intros Hj. rewrite IH2 by lia. apply Hnocur. lia.
    + intros x Hj Hx. destruct (decide (j = i)) as [->|Hne].
      * rewrite Nat.sub_diag in Hx. injection Hx as <-. rewrite Hv.
        rewrite IH1 by lia. simpl. by apply Hnocur.
      * replace (j - i) with (S (j - S i)) in Hx by lia. simpl in Hx.
        specialize (IH3 x ltac:(lia) Hx). rewrite Hnocur in IH3 |- * by lia. done.
  - destruct (IH (S i) _ out (cur_ok_extend i c Hcur) Hout j d) as (IH1&IH2&IH3).
    simpl length. split; [|split].
    + intros Hj. rewrite IH1 by lia. simpl. unfold covers; simpl.
      destruct Hcur as (_&He&_). repeat case_decide; try done; lia.
    + intros Hj. apply IH2. lia.
    + intros x Hj Hx. destruct (decide (j = i)) as [->|Hne].
      * rewrite Nat.sub_diag in Hx. injection Hx as <-. rewrite Hv.
        rewrite IH1 by lia. simpl. unfold covers; simpl.
        destruct Hcur as (?&He&_). case_decide; [done|lia].
      * replace (j - i) with (S (j - S i)) in Hx by lia. simpl in Hx.
        apply IH3; [lia|done].
  - destruct (toRanges_from (S i) _ rest) as [out'|] eqn:Hrec; [|done].
    simpl in Hout. injection Hout as <-.
    destruct (IH (S i) _ out' (cur_ok_new i item Hv) Hrec j
                (paint_at j d (option_list cur))) as (IH1&IH2&IH3).
    rewrite paint_at_app. simpl length. split; [|split].
    + intros Hj. rewrite IH1 by lia. simpl. unfold covers; simpl.
      case_decide; [lia|done].
    + intros Hj. rewrite IH2 by lia. apply Hnocur. lia.
    + intros x Hj Hx. destruct (decide (j = i)) as [->|Hne].
      * rewrite Nat.sub_diag in Hx. injection Hx as <-. rewrite Hv.
        rewrite IH1 by lia. simpl. unfold covers; simpl.
        case_decide; [|lia]. apply equal_refl.
      * replace (j - i) with (S (j - S i)) in Hx by lia. simpl in Hx.
        specialize (IH3 x ltac:(lia) Hx). rewrite Hnocur in IH3 |- * by lia. done.
Qed.

Lemma toRanges_from_bounds values i cur out :
  cur_ok i cur → toRanges_from i cur values = Some out →
  Forall (λ r, startIndex r < endIndex r ∧ endIndex r ≤ i + length values
               ∧ isVoid (value r) = false) out.
Proof.
  revert i cur out.
  induction values as [|item rest IH]; intros i cur out Hcur Hout.
  { simpl in Hout. injection Hout as <-. destruct cur as [c|]; simpl; [|done].
    destruct Hcur as (?&?&?). apply Forall_singleton. simpl. repeat split; [done|lia|done]. }
  assert (Hc : Forall (λ r, startIndex r < endIndex r
                 ∧ endIndex r ≤ i + length (item :: rest)
                 ∧ isVoid (value r) = false) (option_list cur)).
  { destruct cur as [c|]; simpl; [|done].
    destruct Hcur as (?&?&?). apply Forall_singleton. repeat split; [done|lia|done]. }
  toRanges_round Hcur Hout.
  - destruct (toRanges_from (S i) None rest) as [out'|] eqn:Hrec; [|done].
    simpl in Hout. injection Hout as <-.
    apply Forall_app. split; [done|].
    eapply Forall_impl; [by apply (IH (S i) None)|].
    simpl. intros r (?&?&?). repeat split; [done|lia|done].
  - eapply Forall_impl; [by apply (IH (S i) _ out (cur_ok_extend i c Hcur))|].
    simpl. intros r (?&?&?). repeat split; [done|lia|done].
  - destruct (toRanges_from (S i) _ rest) as [out'|] eqn:Hrec; [|done].
    simpl in Hout. injection Hout as <-.
    apply Forall_app. split; [done|].
    eapply Forall_impl; [by apply (IH (S i) _ out' (cur_ok_new i item Hv))|].
    simpl. intros r (?&?&?). repeat split; [done|lia|done].
Qed.

Lemma paint_at_uncovered j d rs :
  Forall (λ r, ¬ covers r j) rs → paint_at j d rs = d.
Proof.
  revert d. induction rs as [|r rs IH]; intros d Hrs; [done|].
  apply Forall_cons in Hrs as [Hr Hrs]. simpl.
  case_decide; [done|]. by apply IH.
Qed.

Lemma paint_at_covered j d rs :
  paint_at j d rs ≠ d → ∃ r, r ∈ rs ∧ covers r j.
Proof.
  intros Hne. destruct (decide (Forall (λ r, ¬ covers r j) rs)) as [Hall|Hex].
  - by rewrite paint_at_uncovered in Hne.
  - apply not_Forall_Exists in Hex; [|apply _].
    apply Exists_exists in Hex as (r&Hr&Hc). exists r. split; [done|].
    by apply dec_stable.
Qed.

(** ** Round trip of [toRanges] and [tileRanges] (C3) *)

(** Where the array holds a primitive or a hole, an entry with the same value
    is that entry. *)
Lemma same_value_plain a x : same_value a x → plain_entry x → a = x.
Proof.
  unfold same_value. intros Ha [->|[p ->]]; simpl in Ha; [done|].
  by apply equal_prim_r.
Qed.

Lemma Forall2_same_value_plain l v :
  Forall2 same_value l v → Forall plain_entry v → l = v.
Proof.
  induction 1 as [|a x l v Hax _ IH]; [done|]. intros Hv.
  apply Forall_cons in Hv as [Hx Hv]. f_equal; [|by apply IH].
  by apply same_value_plain.
Qed.

(** C3.  For a dense array [v] that fits the slot and does not end with a
    void entry, [toRanges] returns ranges whose tiling has the length of [v]
    and the same value as [v] at every position; the tiling is [v] itself
    when the entries of [v] are primitives and holes. *)
Theorem tileRanges_toRanges_roundtrip (len : nat) (v : list FormatValue) :
  length v ≤ len →
  (∀ x, last v = Some x → isVoid x = false) →
  ∃ ranges, toRanges v = Some ranges
            ∧ Forall2 same_value (tileRanges len ranges) v
            ∧ (Forall plain_entry v → tileRanges len ranges = v).
Proof.
  intros Hlen Hlast.
  destruct (toRanges_total v) as [out Hout]. exists out. split; [done|].
  assert (Forall2 same_value (tileRanges len out) v) as Hsame;
    [|split; [done|by apply Forall2_same_value_plain]].
  pose proof (toRanges_from_bounds v 0 None out I Hout) as Hb.
  pose proof (toRanges_from_paint v 0 None out I Hout) as Hp.
  assert (Hmax : max_end 0 out = length v).
  { apply Nat.le_antisymm.
    - apply max_end_bound; [lia|]. intros r Hr.
      rewrite Forall_forall in Hb. destruct (Hb r Hr) as (_&?&_). lia.
    - destruct (last v) as [x|] eqn:Hx.
      + rewrite last_lookup in Hx.
        assert (length v ≠ 0) by (destruct v; simpl in *; [done|lia]).
        destruct (Hp (pred (length v)) VUndefined) as (_&_&H3).
        specialize (H3 x ltac:(lia)). rewrite Nat.sub_0_r in H3.
        specialize (H3 Hx). rewrite (Hlast x eq_refl) in H3.
        destruct (paint_at_covered (pred (length v)) VUndefined out)
          as (r&Hr&Hc).
        { intros Heq. rewrite Heq in H3.
          rewrite equal_undefined_l in H3 by by apply Hlast. done. }
        pose proof (max_end_elem 0 out r Hr). unfold covers in Hc. lia.
      + apply last_None in Hx as ->. simpl. lia. }
  apply Forall2_same_length_lookup. split.
  { rewrite tileRanges_length. lia. }
  intros j a x Ha Hx.
  assert (j < length v) by by eapply lookup_lt_Some.
  rewrite tileRanges_lookup in Ha by lia. injection Ha as <-.
  destruct (Hp j VUndefined) as (_&_&H3).
  specialize (H3 x ltac:(lia)). rewrite Nat.sub_0_r in H3. specialize (H3 Hx).
  unfold same_value. by destruct (isVoid x).
Qed.

Lemma tileRanges_toRanges_roundtrip_witness :
  ∃ ranges,
    toRanges [VNull; vtrue; vtrue; VNull; vstr "a"] = Some ranges
    ∧ Forall2 same_value (tileRanges 10 ranges)
        [VNull; vtrue; vtrue; VNull; vstr "a"]
    ∧ (Forall plain_entry [VNull; vtrue; vtrue; VNull; vstr "a"] →
       tileRanges 10 ranges = [VNull; vtrue; vtrue; VNull; vstr "a"]).
Proof.
  apply (tileRanges_toRanges_roundtrip 10
           [VNull; vtrue; vtrue; VNull; vstr "a"]).
  - simpl. lia.
  - simpl. intros x [= <-]. reflexivity.
Defined.

(** ** Normal range lists *)

Lemma chain_drop_prev prev rs : chain prev rs → chain None rs.
Proof. destruct rs as [|r rs]; [done|]. simpl. tauto. Qed.

Lemma chain_after p rs :
  chain None rs → Forall (λ r, endIndex p < startIndex r) rs →
  chain (Some p) rs.
Proof.
  destruct rs as [|r rs]; [done|]. simpl. intros (?&_&?) Hall.
  apply Forall_cons in Hall as [? _]. repeat split; [done|lia|lia|done].
Qed.

Lemma toRanges_from_chain values i cur out :
  cur_ok i cur → toRanges_from i cur values = Some out →
  chain None out
  ∧ match cur with
    | None => Forall (λ r, i ≤ startIndex r) out
    | Some c =>
        ∃ c' tail, out = c' :: tail ∧ startIndex c' = startIndex c
                   ∧ value c' = value c ∧ endIndex c ≤ endIndex c'
                   ∧ Forall (λ r, i ≤ startIndex r) tail
    end.
Proof.
  revert i cur out.
  induction values as [|item rest IH]; intros i cur out Hcur Hout.
  { simpl in Hout. injection Hout as <-. destruct cur as [c|]; simpl; [|done].
    destruct Hcur as (?&?&?). split; [done|]. by exists c, []. }
  toRanges_round Hcur Hout.
  - destruct (toRanges_from (S i) None rest) as [out'|] eqn:Hrec; [|done].
    simpl in Hout. injection Hout as <-.
    destruct (IH (S i) None out' I Hrec) as [Hch Hst].
    assert (Hst' : Forall (λ r, i ≤ startIndex r) out').
    { eapply Forall_impl; [done|]. simpl. lia. }
    destruct cur as [c|]; simpl; [|done].
    destruct Hcur as (?&?&?). split.
    + repeat split; [done|]. apply chain_after; [done|].
      eapply Forall_impl; [exact Hst|]. simpl. lia.
    + by exists c, out'.
  - destruct (IH (S i) _ out (cur_ok_extend i c Hcur) Hout)
      as [Hch (c'&tail&->&?&?&?&Hst)].
    split; [done|]. exists c', tail. simpl in *.
    destruct Hcur as (?&?&?). repeat split; [done|done|lia|].
    eapply Forall_impl; [done|]. simpl. lia.
  - destruct (toRanges_from (S i) _ rest) as [out'|] eqn:Hrec; [|done].
    simpl in Hout. injection Hout as <-.
    destruct (IH (S i) _ out' (cur_ok_new i item Hv) Hrec)
      as [Hch (c'&tail&->&Hs&Hval&He&Hst)].
    simpl in Hs, Hval, He.
    assert (Hall : Forall (λ r, i ≤ startIndex r) (c' :: tail)).
    { apply Forall_cons. split; [lia|].
      eapply Forall_impl; [done|]. simpl. lia. }
    destruct cur as [c|]; simpl; [|done].
    destruct Hcur as (?&?&?). split.
    + destruct Hch as (?&_&?). repeat split; [done|done|lia| |done].
      intros _. unfold value_equal. rewrite Hval. simpl in Hdiff.
      by rewrite Hdiff.
    + by exists c, (c' :: tail).
Qed.

Lemma toRanges_chain values out : toRanges values = Some out → chain None out.
Proof. intros H. by apply (toRanges_from_chain values 0 None out I H). Qed.

Lemma toRanges_bounds values out :
  toRanges values = Some out →
  Forall (λ r, startIndex r < endIndex r ∧ endIndex r ≤ length values
               ∧ isVoid (value r) = false) out.
Proof. intros H. by apply (toRanges_from_bounds values 0 None out I H). Qed.

(** ** Tiling a normal list and reading it back *)

Lemma chain_lower_bounded p rs : chain (Some p) rs → lower_bounded (endIndex p) rs.
Proof. destruct rs as [|r rs]; [done|]. simpl. tauto. Qed.

Lemma tile_step_append acc r :
  length acc ≤ startIndex r → startIndex r ≤ endIndex r →
  tile_step acc r
  = acc ++ replicate (startIndex r - length acc) VUndefined
        ++ replicate (endIndex r - startIndex r) (value r).
Proof.
  intros Hs He. apply list_eq. intros j. unfold tile_step.
  rewrite fill_lookup.
  destruct (decide (j < length acc)) as [H1|H1].
  { rewrite set_length_lookup by lia. rewrite lookup_app_l by done.
    destruct (lookup_lt_is_Some_2 acc j H1) as [x ->]. simpl.
    case_decide; [lia|done]. }
  rewrite lookup_app_r by lia.
  destruct (decide (j < startIndex r)) as [H2|H2].
  { rewrite set_length_lookup by lia.
    rewrite (lookup_ge_None_2 acc j) by lia. simpl.
    rewrite lookup_app_l by (rewrite length_replicate; lia).
    rewrite lookup_replicate_2 by lia. case_decide; [lia|done]. }
  rewrite lookup_app_r by (rewrite length_replicate; lia).
  rewrite length_replicate.
  destruct (decide (j < endIndex r)) as [H3|H3].
  { rewrite set_length_lookup by lia. simpl.
    rewrite lookup_replicate_2 by lia. case_decide; [done|lia]. }
  rewrite (lookup_ge_None_2 (set_length _ _) j) by (rewrite set_length_length; lia).
  rewrite lookup_ge_None_2 by (rewrite length_replicate; lia). done.
Qed.

Lemma tile_fold_render rs acc :
  chain None rs → lower_bounded (length acc) rs →
  foldl tile_step acc rs = acc ++ render (length acc) rs.
Proof.
  revert acc. induction rs as [|r rs IH]; intros acc Hch Hlb; simpl.
  { by rewrite app_nil_r. }
  simpl in Hch, Hlb. destruct Hch as (Hr&_&Hch).
  rewrite tile_step_append by lia.
  rewrite IH.
  - rewrite !length_app, !length_replicate.
    replace (length acc + (startIndex r - length acc
                           + (endIndex r - startIndex r)))
      with (endIndex r) by lia.
    by rewrite <- !app_assoc.
  - by eapply chain_drop_prev.
  - rewrite !length_app, !length_replicate.
    apply chain_lower_bounded in Hch. destruct rs; simpl in *; [done|lia].
Qed.

Lemma render_length pos rs :
  chain None rs → lower_bounded pos rs →
  length (render pos rs) = max_end pos rs - pos.
Proof.
  revert pos. induction rs as [|r rs IH]; intros pos Hch Hlb; simpl.
  { lia. }
  simpl in Hch, Hlb. destruct Hch as (Hr&_&Hch).
  rewrite !length_app, !length_replicate.
  rewrite IH; [|by eapply chain_drop_prev|by apply chain_lower_bounded in Hch].
  replace (pos `max` endIndex r) with (endIndex r) by lia.
  pose proof (max_end_ge (endIndex r) rs). lia.
Qed.

Lemma tileRanges_render len rs :
  chain None rs → Forall (λ r, endIndex r ≤ len) rs →
  tileRanges len rs = render 0 rs.
Proof.
  intros Hch Hb. unfold tileRanges.
  rewrite tile_fold_render by (done || destruct rs; simpl; lia).
  simpl. unfold set_length.
  rewrite render_length by (done || destruct rs; simpl; lia).
  rewrite Nat.sub_0_r.
  assert (max_end 0 rs ≤ len).
  { apply max_end_bound; [lia|]. by apply Forall_forall. }
  replace (max_end 0 rs `min` len) with (length (render 0 rs)).
  - apply resize_all.
  - rewrite render_length by (done || destruct rs; simpl; lia). lia.
Qed.

Lemma toRanges_from_gap k i cur rest :
  0 < k →
  toRanges_from i cur (replicate k VUndefined ++ rest)
  = (option_list cur ++.) <$> toRanges_from (i + k) None rest.
Proof.
  revert i cur. induction k as [|k IH]; intros i cur Hk; [lia|].
  simpl. destruct k as [|k].
  - simpl. by rewrite Nat.add_1_r.
  - rewrite IH by lia. simpl.
    replace (S (i + S k)) with (i + S (S k)) by lia.
    by destruct (toRanges_from _ _ _).
Qed.

Lemma toRanges_from_run n i c v rest :
  endIndex c = i → value c = v → isVoid v = false →
  toRanges_from i (Some c) (replicate n v ++ rest)
  = toRanges_from (i + n) (Some (set_endIndex (i + n) c)) rest.
Proof.
  revert i c. induction n as [|n IH]; intros i c He Hc Hv.
  { simpl. rewrite Nat.add_0_r. destruct c; simpl in *. by subst. }
  simpl. rewrite Hv, Hc, equal_refl. simpl.
  rewrite (IH (S i) (set_endIndex (S i) c)) by done.
  unfold set_endIndex; simpl. by replace (S (i + n)) with (i + S n) by lia.
Qed.

Lemma toRanges_from_start_run n s cur v rest :
  0 < n → isVoid v = false →
  equal (from_option value VUndefined cur) v = Some false →
  toRanges_from s cur (replicate n v ++ rest)
  = (option_list cur ++.) <$>
      toRanges_from (s + n) (Some (mkRange s (s + n) v)) rest.
Proof.
  intros Hn Hv Hne. destruct n as [|n]; [lia|].
  simpl. rewrite Hv, Hne. simpl.
  pose proof (toRanges_from_run n (S s) (mkRange s (S s) v) v rest
                eq_refl eq_refl Hv) as H.
  simpl in H. rewrite H.
  unfold set_endIndex; simpl.
  by replace (S (s + n)) with (s + S n) by lia.
Qed.

Lemma toRanges_from_render rs i cur :
  cur_ok i cur → chain cur rs → lower_bounded i rs →
  Forall (λ r, isVoid (value r) = false) rs →
  toRanges_from i cur (render i rs) = Some (option_list cur ++ rs).
Proof.
  revert i cur. induction rs as [|r rs IH]; intros i cur Hcur Hch Hlb Hnv.
  { simpl. by rewrite app_nil_r. }
  simpl in Hch, Hlb. destruct Hch as (Hr&Hprev&Hch).
  apply Forall_cons in Hnv as [Hv Hnv].
  assert (Hrun : ∀ cur',
    equal (from_option value VUndefined cur') (value r) = Some false →
    toRanges_from (startIndex r) cur'
      (replicate (endIndex r - startIndex r) (value r) ++ render (endIndex r) rs)
    = Some (option_list cur' ++ r :: rs)).
  { intros cur' Hne. rewrite toRanges_from_start_run by (done || lia).
    replace (startIndex r + (endIndex r - startIndex r)) with (endIndex r) by lia.
    replace (mkRange (startIndex r) (endIndex r) (value r)) with r
      by by destruct r.
    rewrite IH; [done| |done|by apply chain_lower_bounded in Hch|done].
    unfold cur_ok. done. }
  simpl. destruct (decide (startIndex r = i)) as [<-|Hgap].
  - rewrite Nat.sub_diag. simpl. apply Hrun.
    destruct cur as [c|]; simpl.
    + destruct Hcur as (?&He&Hc). destruct Hprev as [_ Hne].
      destruct (equal_nonvoid (value c) (value r) Hc Hv) as [[] Heq]; [|done].
      by destruct (Hne He).
    + by apply equal_undefined_l.
  - rewrite toRanges_from_gap by lia.
    replace (i + (startIndex r - i)) with (startIndex r) by lia.
    rewrite (Hrun None); [done|]. by apply equal_undefined_l.
Qed.

(** A normal list inside the slot is a fixed point of tiling and reading
    back. *)
Lemma toRanges_tileRanges_normal len rs :
  chain None rs →
  Forall (λ r, endIndex r ≤ len) rs →
  Forall (λ r, isVoid (value r) = false) rs →
  toRanges (tileRanges len rs) = Some rs.
Proof.
  intros Hch Hb Hnv. rewrite tileRanges_render by done.
  unfold toRanges. rewrite toRanges_from_render; try done.
  destruct rs; simpl; lia.
Qed.

(** ** The map *)

Lemma map_get_set_eq key v m : map_get key (map_set key v m) = Some v.
Proof.
  induction m as [|[k v'] m IH]; simpl.
  - by rewrite decide_True.
  - case_decide; simpl; [by rewrite decide_True|by rewrite decide_False].
Qed.

Lemma map_get_set_ne key key' v m :
  key ≠ key' → map_get key' (map_set key v m) = map_get key' m.
Proof.
  intros Hne. induction m as [|[k v'] m IH]; simpl.
  - by rewrite decide_False.
  - case_decide; simpl; [subst; by rewrite !decide_False|].
    case_decide; done.
Qed.

Lemma map_set_set key v v' m :
  map_set key v (map_set key v' m) = map_set key v m.
Proof.
  induction m as [|[k w] m IH]; simpl.
  - by rewrite decide_True.
  - case_decide; simpl; [by rewrite decide_True|].
    rewrite decide_False by done. by rewrite IH.
Qed.

Lemma map_get_elem key v m : map_get key m = Some v → (key, v) ∈ m.
Proof.
  induction m as [|[k w] m IH]; simpl; [done|].
  case_decide; [intros [= ->]; subst; set_solver|]. set_solver.
Qed.

Lemma map_get_each_range f key m :
  map_get key (map_each_range f m)
  = (λ rs : list FormatRange, f <$> rs) <$> map_get key m.
Proof.
  induction m as [|[k w] m IH]; simpl; [done|].
  case_decide; done.
Qed.

(** ** Clean after set on a non-overlap inline formatter (C2) *)

(** A plain value is never equal to a [CleanFormatRule] that wraps it: the
    comparison of [clean_first] is made with the rule, not with its value. *)
Lemma equal_value_clean ref v :
  match v with VPrim _ | VRecord _ _ => True | _ => False end →
  equal v (VClean ref v) = Some false.
Proof.
  destruct v as [| |p|r fields|]; try done; intros _.
  unfold equal, strict_eq. rewrite bool_decide_eq_false_2 by done. simpl.
  case_decide as Hlen; [|done]. f_equal.
  destruct (elements (dom fields)) as [|key [|]] eqn:Hk; try done.
  simpl. rewrite andb_true_r.
  destruct (decide (key = "value"%string)) as [->|Hne].
  - simpl. destruct (fields !! "value"%string);
      by rewrite bool_decide_eq_false_2.
  - rewrite bool_decide_eq_false_2; [done|].
    by rewrite list_elem_of_singleton.
Qed.

(** C2.  On a non-overlap inline formatter without stored ranges, setting
    [v] over [s, e) and then cleaning [CleanFormatRule(v)] over the same
    range leaves the range [{s, e, v}] in the store. *)
Theorem merge_clean_after_set_keeps_range
    (fmt : Format) (f : Formatter) (s e ref : nat) (v : FormatValue) :
  type f = Inline → overlap f = false →
  map_get f (fmap_ fmt) = None →
  match v with VPrim _ | VRecord _ _ => True | _ => False end →
  s < e → e ≤ slot_length (slot fmt) →
  merge f (InlineData (mkRange s e v)) fmt
    ≫= merge f (InlineData (mkRange s e (VClean ref v)))
  = Some (with_map fmt (map_set f [mkRange s e v] (fmap_ fmt))).
Proof.
  intros Hty Hov Hget Hv Hse Hlen.
  assert (Hnv : isVoid v = false) by by destruct v.
  assert (merge f (InlineData (mkRange s e v)) fmt
          = Some (with_map fmt (map_set f [mkRange s e v] (fmap_ fmt)))) as ->.
  { unfold merge. cbv zeta. rewrite Hty, Hget. simpl. by rewrite Hnv. }
  simpl. unfold merge. cbv zeta. rewrite Hty. simpl. rewrite map_get_set_eq.
  unfold normalizeFormatRange. rewrite Hov. simpl.
  rewrite Hnv. simpl. rewrite equal_value_clean by done. simpl.
  rewrite toRanges_tileRanges_normal.
  - simpl. by rewrite map_set_set.
  - simpl. done.
  - apply Forall_singleton. done.
  - apply Forall_singleton. done.
Qed.

Lemma merge_clean_after_set_keeps_range_witness :
  merge bold (InlineData (mkRange 2 5 vtrue)) (empty_format slot10)
    ≫= merge bold (InlineData (mkRange 2 5 (VClean 0 vtrue)))
  = Some (mkFormat slot10 [(bold, [mkRange 2 5 vtrue])]).
Proof.
  apply (merge_clean_after_set_keeps_range
           (empty_format slot10) bold 2 5 0 vtrue);
    simpl; (reflexivity || exact I || lia).
Defined.

(** ** Painting merge on a non-overlap inline formatter (C4) *)

Lemma tileRanges_paint_beyond rs j :
  max_end 0 rs ≤ j → paint_at j VUndefined rs = VUndefined.
Proof.
  intros Hj. apply paint_at_uncovered. apply Forall_forall. intros r Hr.
  pose proof (max_end_elem 0 rs r Hr). unfold covers. lia.
Qed.

(** What [toRanges(tileRanges(ranges))] paints inside the slot is what the
    ranges paint, in their order. *)
Lemma toRanges_tileRanges_paint len rs out j :
  toRanges (tileRanges len rs) = Some out → j < len →
  same_value (paint_at j VUndefined out) (paint_at j VUndefined rs).
Proof.
  intros Hout Hj.
  destruct (toRanges_from_paint _ 0 None out I Hout j VUndefined) as (_&H2&H3).
  destruct (decide (j < max_end 0 rs `min` len)) as [Hlt|Hge].
  - specialize (H3 (paint_at j VUndefined rs) ltac:(lia)).
    rewrite Nat.sub_0_r in H3.
    specialize (H3 (tileRanges_lookup len rs j Hlt)).
    unfold same_value. by destruct (isVoid (paint_at j VUndefined rs)).
  - rewrite H2 by (rewrite tileRanges_length; simpl; lia).
    by rewrite tileRanges_paint_beyond by lia.
Qed.

(** C4.  Scenario A, and the rule behind it: on a non-overlap inline
    formatter with stored ranges, merging a range whose value is no
    [CleanFormatRule] stores [toRanges(tileRanges([...old, data]))], a list
    of maximal runs that carries, at every position of the slot, the value of
    [data] inside its interval and the value painted before elsewhere. *)
Theorem merge_paints_and_coalesces :
  (fmap_ <$> scenarioA = Some [(bold, [mkRange 2 8 vtrue])])
  ∧ ∀ (fmt : Format) (f : Formatter) (old : list FormatRange)
      (data : FormatRange),
      type f = Inline → overlap f = false →
      map_get f (fmap_ fmt) = Some old →
      (∀ ref inner, value data ≠ VClean ref inner) →
      ∃ newRanges,
        toRanges (tileRanges (slot_length (slot fmt)) (old ++ [data]))
        = Some newRanges
        ∧ merge f (InlineData data) fmt
          = Some (with_map fmt
                    match newRanges with
                    | [] => map_delete f (fmap_ fmt)
                    | _ => map_set f newRanges (fmap_ fmt)
                    end)
        ∧ chain None newRanges
        ∧ ∀ j, j < slot_length (slot fmt) →
               same_value (paint_at j VUndefined newRanges)
                 (if decide (covers data j) then value data
                  else paint_at j VUndefined old).
Proof.
  split; [by vm_compute|].
  intros fmt f old data Hty Hov Hget Hclean.
  destruct (toRanges_total (tileRanges (slot_length (slot fmt)) (old ++ [data])))
    as [newRanges Hnew].
  exists newRanges. split; [done|]. split; [|split].
  - unfold merge. cbv zeta. rewrite Hty, Hget. simpl.
    unfold normalizeFormatRange. rewrite Hov.
    assert (match value data with
            | VClean _ inner =>
                formatRangesToMap old ≫= λ map,
                  if isVoid inner then Some (old ++ [data])
                  else clean_first (slot_length (slot fmt)) (value data) data map
                       ≫= λ map', Some (flat (group_values map'))
            | _ => Some (old ++ [data])
            end = Some (old ++ [data])) as ->.
    { destruct (value data) as [| | | |r i] eqn:Hd; try done.
      by destruct (Hclean r i). }
    simpl. rewrite Hnew. simpl. by destruct newRanges.
  - by eapply toRanges_chain.
  - intros j Hj.
    pose proof (toRanges_tileRanges_paint _ _ _ j Hnew Hj) as H.
    by rewrite paint_at_app in H.
Qed.

Lemma merge_paints_and_coalesces_witness :
  ∃ newRanges,
    toRanges (tileRanges 10 ([mkRange 2 5 vtrue] ++ [mkRange 4 8 vtrue]))
    = Some newRanges
    ∧ merge bold (InlineData (mkRange 4 8 vtrue))
        (mkFormat slot10 [(bold, [mkRange 2 5 vtrue])])
      = Some (with_map (mkFormat slot10 [(bold, [mkRange 2 5 vtrue])])
                match newRanges with
                | [] => map_delete bold [(bold, [mkRange 2 5 vtrue])]
                | _ => map_set bold newRanges [(bold, [mkRange 2 5 vtrue])]
                end)
    ∧ chain None newRanges
    ∧ ∀ j, j < 10 →
           same_value (paint_at j VUndefined newRanges)
             (if decide (covers (mkRange 4 8 vtrue) j) then vtrue
              else paint_at j VUndefined [mkRange 2 5 vtrue]).
Proof.
  apply (proj2 merge_paints_and_coalesces
           (mkFormat slot10 [(bold, [mkRange 2 5 vtrue])]) bold
           [mkRange 2 5 vtrue] (mkRange 4 8 vtrue)).
  - reflexivity.
  - reflexivity.
  - reflexivity.
  - simpl. intros ref inner H. discriminate H.
Defined.

(** ** [stretch] (C5) *)

(** C5.  [stretch] keeps the keys and maps every stored range by
    [stretch_range]: a range that ends before [index] is untouched, any other
    range has [count] added to its end, and to its start too when it starts
    at or after [index]; the bold range of scenario A becomes [{2, 9, true}]. *)
Theorem stretch_spec :
  (∀ index count fmt,
     slot (stretch index count fmt) = slot fmt
     ∧ (fmap_ (stretch index count fmt)).*1 = (fmap_ fmt).*1
     ∧ ∀ f, map_get f (fmap_ (stretch index count fmt))
            = (λ rs : list FormatRange, stretch_range index count <$> rs)
                <$> map_get f (fmap_ fmt))
  ∧ (∀ index count r,
       value (stretch_range index count r) = value r
       ∧ (endIndex r < index → stretch_range index count r = r)
       ∧ (index ≤ endIndex r →
          endIndex (stretch_range index count r) = endIndex r + count
          ∧ startIndex (stretch_range index count r)
            = if decide (index ≤ startIndex r) then startIndex r + count
              else startIndex r))
  ∧ fmap_ <$> scenarioB = Some [(bold, [mkRange 2 9 vtrue])].
Proof.
  split; [|split; [|by vm_compute]].
  - intros index count fmt. split; [done|]. split.
    + unfold stretch, map_each_range. simpl.
      rewrite <- list_fmap_compose. by apply list_fmap_ext.
    + intros f. apply map_get_each_range.
  - intros index count r. unfold stretch_range.
    destruct r as [s e v]; simpl.
    repeat case_decide; simpl; repeat split; intros; try done; try lia.
    all: repeat case_decide; simpl; try done; lia.
Qed.

(** ** Grouping by value *)

Lemma groups_add_ok Q item groups :
  isVoid (value item) = false → Q item →
  Forall (group_ok Q) groups →
  ∃ groups', groups_add item groups = Some groups'
             ∧ groups' ≠ [] ∧ Forall (group_ok Q) groups'.
Proof.
  intros Hv HQ. induction groups as [|[key ranges] rest IH]; intros Hg; simpl.
  - eexists. split; [done|]. split; [done|].
    apply Forall_singleton. unfold group_ok; simpl.
    split; [done|]. split; [done|]. by apply Forall_singleton.
  - apply Forall_cons in Hg as [(Hk&Hne&HQs) Hrest]. simpl in *.
    destruct (equal_nonvoid key (value item) Hk Hv) as [[] ->]; simpl.
    + eexists. split; [done|]. split; [done|].
      apply Forall_cons. split; [|done]. unfold group_ok; simpl.
      split; [done|]. split; [by destruct ranges|].
      apply Forall_app. split; [done|]. by apply Forall_singleton.
    + destruct (IH Hrest) as (rest'&->&_&Hrest'). simpl.
      eexists. split; [done|]. split; [done|].
      apply Forall_cons. split; [|done]. done.
Qed.

Lemma formatRangesToMap_from_ok Q rs groups :
  Forall (λ r, isVoid (value r) = false ∧ Q r) rs →
  Forall (group_ok Q) groups →
  ∃ groups', formatRangesToMap_from groups rs = Some groups'
             ∧ Forall (group_ok Q) groups'
             ∧ (rs ≠ [] ∨ groups ≠ [] → groups' ≠ []).
Proof.
  revert groups. induction rs as [|item rest IH]; intros groups Hrs Hg; simpl.
  - exists groups. split; [done|]. split; [done|]. by intros [?|?].
  - apply Forall_cons in Hrs as [[Hv HQ] Hrs].
    destruct (groups_add_ok Q item groups Hv HQ Hg) as (groups1&->&Hne&Hg1).
    simpl. destruct (IH groups1 Hrs Hg1) as (groups'&->&Hg'&Hne').
    exists groups'. split; [done|]. split; [done|]. intros _.
    apply Hne'. by right.
Qed.

Lemma formatRangesToMap_ok Q rs :
  Forall (λ r, isVoid (value r) = false ∧ Q r) rs →
  ∃ groups, formatRangesToMap rs = Some groups
            ∧ Forall (group_ok Q) groups
            ∧ (rs ≠ [] → groups ≠ []).
Proof.
  intros Hrs.
  destruct (formatRangesToMap_from_ok Q rs [] Hrs) as (g&?&?&Hne); [done|].
  exists g. split; [done|]. split; [done|]. intros ?. apply Hne. by left.
Qed.

Lemma push_null_first_total Q v newRange groups :
  isVoid v = false → Forall (group_ok Q) groups →
  ∃ groups', push_null_first v newRange groups = Some groups'
             ∧ length groups' = length groups.
Proof.
  intros Hv. induction groups as [|[key ranges] rest IH]; intros Hg; simpl.
  - by eexists.
  - apply Forall_cons in Hg as [(Hk&_&_) Hrest]. simpl in *.
    destruct (equal_nonvoid key v Hk Hv) as [[] ->]; simpl.
    + by eexists.
    + destruct (IH Hrest) as (rest'&->&Hlen). simpl.
      eexists. split; [done|]. simpl. by rewrite Hlen.
Qed.

Lemma clean_first_total Q len v newRange groups :
  isVoid v = false → Forall (group_ok Q) groups →
  is_Some (clean_first len v newRange groups).
Proof.
  intros Hv. induction groups as [|[key ranges] rest IH]; intros Hg; simpl.
  - done.
  - apply Forall_cons in Hg as [(Hk&_&_) Hrest]. simpl in *.
    destruct (equal_nonvoid key v Hk Hv) as [[] ->]; simpl.
    + destruct (toRanges_total
                  (replicate (endIndex newRange - startIndex newRange) VNull))
        as [cleaned ->]. done.
    + destruct (IH Hrest) as [rest' ->]. done.
Qed.

Lemma mapM_toRanges_total (f : list FormatRange → list FormatValue)
    (groups : list (list FormatRange)) :
  is_Some (mapM (λ item, toRanges (f item)) groups).
Proof.
  apply mapM_is_Some. apply Forall_forall. intros item _.
  apply toRanges_total.
Qed.

(** [normalizeFormatRange] returns when no stored value is void. *)
Lemma normalizeFormatRange_total len formatter oldRanges newRange :
  Forall (λ r, isVoid (value r) = false) oldRanges →
  is_Some (normalizeFormatRange len formatter oldRanges newRange).
Proof.
  intros Hold.
  assert (Hold' : Forall (λ r, isVoid (value r) = false ∧ True) oldRanges).
  { eapply Forall_impl; [done|]. done. }
  destruct (formatRangesToMap_ok (λ _, True) oldRanges Hold')
    as (groups&Hgroups&Hok&_).
  unfold normalizeFormatRange. destruct (overlap formatter).
  - assert (∀ valueGroups : option (list (list FormatRange)),
              is_Some valueGroups →
              is_Some (valueGroups ≫= λ valueGroups,
                 flat <$> mapM (λ item, toRanges (tileRanges len item))
                            valueGroups)) as Hfin.
    { intros ? [vg ->]. simpl.
      destruct (mapM_toRanges_total (tileRanges len) vg) as [x ->]. done. }
    apply Hfin. destruct newRange as [nr|]; [|by rewrite Hgroups].
    destruct (value nr) as [| |p|r fields|r inner] eqn:Hnr; simpl;
      rewrite ?Hgroups; simpl; try done.
    + destruct (formatRangesToMap_ok (λ _, True) (nr :: oldRanges))
        as (g&Hg&_); [|by rewrite Hg].
      apply Forall_cons. by rewrite Hnr.
    + destruct (formatRangesToMap_ok (λ _, True) (nr :: oldRanges))
        as (g&Hg&_); [|by rewrite Hg].
      apply Forall_cons. by rewrite Hnr.
    + destruct (isVoid inner) eqn:Hi; [done|].
      destruct (push_null_first_total (λ _, True) inner nr groups Hi Hok)
        as (g&->&_). done.
  - assert (∀ oldRanges' : option (list FormatRange),
              is_Some oldRanges' →
              is_Some (oldRanges' ≫= λ oldRanges',
                         toRanges (tileRanges len oldRanges'))) as Hfin.
    { intros ? [rs ->]. simpl. apply toRanges_total. }
    apply Hfin. destruct newRange as [nr|]; [|done].
    destruct (value nr) as [| |p|r fields|r inner] eqn:Hnr; simpl; try done.
    rewrite Hgroups. simpl. destruct (isVoid inner); [done|].
    destruct (clean_first_total (λ _, True) len (VClean r inner) nr groups)
      as [g ->]; done.
Qed.

(** ** [discard] (C10) *)

(** C10.  Whenever [discard] returns, it returns the store it was called on,
    map and slot unchanged; it returns for every non-overlap formatter, and
    for an overlap formatter whose stored values are not void.  The ranges
    it normalizes are dropped: discarding [4, 6) of bold over [2, 8) computes
    two ranges and leaves the stored one. *)
Theorem discard_leaves_store :
  (∀ fmt f s e fmt', discard f s e fmt = Some fmt' → fmt' = fmt)
  ∧ (∀ fmt f s e,
       (overlap f = true →
        ∀ old, map_get f (fmap_ fmt) = Some old →
               Forall (λ r, isVoid (value r) = false) old) →
       discard f s e fmt = Some fmt)
  ∧ normalizeFormatRange 10 bold [mkRange 2 8 vtrue] (Some (mkRange 4 6 VNull))
    = Some [mkRange 2 4 vtrue; mkRange 6 8 vtrue]
  ∧ discard bold 4 6 (mkFormat slot10 [(bold, [mkRange 2 8 vtrue])])
    = Some (mkFormat slot10 [(bold, [mkRange 2 8 vtrue])]).
Proof.
  split; [|split; [|split; by vm_compute]].
  - intros fmt f s e fmt'. unfold discard.
    destruct (map_get f (fmap_ fmt)); [|congruence].
    destruct (normalizeFormatRange _ _ _ _); simpl; congruence.
  - intros fmt f s e Hov. unfold discard.
    destruct (map_get f (fmap_ fmt)) as [old|] eqn:Hget; [|done].
    destruct (overlap f) eqn:Hf.
    + destruct (normalizeFormatRange_total (slot_length (slot fmt)) f old
                  (Some (mkRange s e VNull))) as [x ->]; [|done].
      by apply Hov.
    + unfold normalizeFormatRange. rewrite Hf. simpl.
      by destruct (toRanges_total
                     (tileRanges (slot_length (slot fmt))
                        (old ++ [mkRange s e VNull]))) as [x ->].
Qed.

(** ** [shrink]: the two passes *)

Lemma map_get_None key (m : FormatMap) : key ∉ m.*1 → map_get key m = None.
Proof.
  induction m as [|[k v] m IH]; simpl; [done|].
  intros Hk. case_decide; [set_solver|]. apply IH. set_solver.
Qed.

Lemma normalize_entries_keys len m m' :
  normalize_entries len m = Some m' → m'.*1 ⊆ m.*1.
Proof.
  revert m'. induction m as [|[k old] m IH]; intros m'; simpl.
  { by intros [= <-]. }
  destruct (normalizeFormatRange len k old None) as [newRanges|]; [|done].
  destruct (normalize_entries len m) as [rest'|]; [|done]. simpl.
  specialize (IH rest' eq_refl).
  destruct newRanges; intros [= <-]; simpl; set_solver.
Qed.

Lemma normalize_entries_get len m m' f :
  NoDup m.*1 → normalize_entries len m = Some m' →
  map_get f m'
  = map_get f m ≫= λ old, normalizeFormatRange len f old None ≫= nonempty_opt.
Proof.
  revert m'. induction m as [|[k old] m IH]; intros m' Hnd; simpl.
  { by intros [= <-]. }
  apply NoDup_cons in Hnd as [Hk Hnd]. simpl in Hk.
  destruct (normalizeFormatRange len k old None) as [newRanges|] eqn:Hn; [|done].
  destruct (normalize_entries len m) as [rest'|] eqn:Hr; [|done]. simpl.
  specialize (IH rest' Hnd eq_refl).
  assert (Hk' : map_get k rest' = None).
  { apply map_get_None. pose proof (normalize_entries_keys _ _ _ Hr). set_solver. }
  destruct (decide (f = k)) as [->|Hne].
  - simpl. rewrite Hn. simpl.
    destruct newRanges; intros [= <-]; simpl; [done|by rewrite decide_True].
  - destruct newRanges; intros [= <-]; simpl; [done|by rewrite decide_False].
Qed.

Lemma shrink_range_value start count r :
  value (shrink_range start count r) = value r.
Proof. unfold shrink_range. by repeat case_decide. Qed.

Lemma normalize_entries_total len m :
  values_defined m → is_Some (normalize_entries len m).
Proof.
  induction m as [|[k old] m IH]; intros Hm; simpl; [done|].
  apply Forall_cons in Hm as [Hold Hm]. simpl in Hold.
  destruct (normalizeFormatRange_total len k old None Hold) as [nr ->].
  destruct (IH Hm) as [rest' ->]. simpl. by destruct nr.
Qed.

Lemma values_defined_each_range f m :
  (∀ r, value (f r) = value r) →
  values_defined m → values_defined (map_each_range f m).
Proof.
  intros Hf Hm. unfold values_defined, map_each_range.
  apply Forall_fmap. eapply Forall_impl; [done|].
  intros [k rs] Hrs; simpl in *. apply Forall_fmap.
  eapply Forall_impl; [done|]. intros r Hr; simpl. by rewrite Hf.
Qed.

Lemma shrink_total start count fmt :
  values_defined (fmap_ fmt) → is_Some (shrink start count fmt).
Proof.
  intros Hv. unfold shrink.
  destruct (normalize_entries_total (slot_length (slot fmt))
              (map_each_range (shrink_range start count) (fmap_ fmt)))
    as [m' ->]; [|done].
  apply values_defined_each_range; [|done].
  intros r. apply shrink_range_value.
Qed.

(** ** [extract] *)

Lemma map_set_Forall (Q : Formatter * list FormatRange → Prop) key v m :
  Forall Q m → Q (key, v) → Forall Q (map_set key v m).
Proof.
  intros Hm Hv. induction m as [|[k w] m IH]; simpl.
  - by apply Forall_singleton.
  - apply Forall_cons in Hm as [Hk Hm]. case_decide; subst.
    + by apply Forall_cons.
    + apply Forall_cons. split; [done|]. by apply IH.
Qed.

Lemma map_delete_Forall (Q : Formatter * list FormatRange → Prop) key m :
  Forall Q m → Forall Q (map_delete key m).
Proof.
  intros Hm. induction m as [|[k w] m IH]; simpl; [done|].
  apply Forall_cons in Hm as [Hk Hm]. case_decide; [done|].
  apply Forall_cons. split; [done|]. by apply IH.
Qed.

(** Every list that [extract] or [createFormatByRange] stores is
    [post (extractFormatRangesByFormatter ...)] for a key of the map, and is
    stored only if the extracted list is not empty. *)
Lemma extract_entries_Forall (Q : Formatter * list FormatRange → Prop)
    post s e this keys acc :
  Forall Q acc →
  (∀ key, key ∈ keys.*1 →
          extractFormatRangesByFormatter s e key this ≠ [] →
          Q (key, post (extractFormatRangesByFormatter s e key this))) →
  Forall Q (extract_entries post s e this keys acc).
Proof.
  revert acc. induction keys as [|[key rs] keys IH]; intros acc Hacc HQ; simpl.
  - done.
  - apply IH.
    + destruct (extractFormatRangesByFormatter s e key this) eqn:Hx; [done|].
      apply map_set_Forall; [done|]. rewrite <- Hx. apply HQ.
      * simpl. set_solver.
      * by rewrite Hx.
    + intros key' Hk. apply HQ. simpl. set_solver.
Qed.

Lemma extract_range_within s e r : Forall (within s e) (extract_range s e r).
Proof.
  unfold extract_range. case_decide; [done|]. case_decide; [|done].
  apply Forall_singleton. unfold within; simpl. lia.
Qed.

Lemma extractFormatRangesByFormatter_within s e key fmt :
  Forall (within s e) (extractFormatRangesByFormatter s e key fmt).
Proof.
  unfold extractFormatRangesByFormatter.
  apply Forall_bind. apply Forall_true. intros r. apply extract_range_within.
Qed.

Lemma extract_within s e fmt :
  Forall (λ kv, Forall (within s e) kv.2) (fmap_ (extract s e fmt)).
Proof.
  unfold extract; simpl. apply extract_entries_Forall; [done|].
  intros key _ _. simpl. apply extractFormatRangesByFormatter_within.
Qed.

(** ** The first loop of [toTree] *)

Section scan.
Context (s e : nat).

Lemma scan_range_inv formatter st kept n range :
  within s e range →
  scan_inv s e st (n + length kept) →
  scan_inv s e (scan_range s e formatter (st, kept) range).1
    (n + length (scan_range s e formatter (st, kept) range).2).
Proof.
  intros (Hs&Hse&He) Hinv. unfold scan_range, scan_inv in *.
  destruct st as [ns ne fs cs]; simpl in *.
  repeat case_decide; try destruct (columned formatter); simpl in *;
    rewrite ?length_app; simpl; lia.
Qed.

Lemma scan_ranges_fold_inv formatter ranges st kept n :
  Forall (within s e) ranges →
  scan_inv s e st (n + length kept) →
  scan_inv s e (foldl (scan_range s e formatter) (st, kept) ranges).1
    (n + length (foldl (scan_range s e formatter) (st, kept) ranges).2).
Proof.
  revert st kept. induction ranges as [|r ranges IH]; intros st kept Hw Hinv.
  - done.
  - apply Forall_cons in Hw as [Hr Hw].
    change (foldl (scan_range s e formatter) (st, kept) (r :: ranges))
      with (foldl (scan_range s e formatter)
              (scan_range s e formatter (st, kept) r) ranges).
    pose proof (scan_range_inv formatter st kept n r Hr Hinv) as H.
    destruct (scan_range s e formatter (st, kept) r) as [st' kept'].
    by apply IH.
Qed.

Lemma scan_ranges_inv formatter ranges st n :
  Forall (within s e) ranges →
  scan_inv s e st n →
  scan_inv s e (scan_ranges s e formatter st ranges).1
    (n + length (scan_ranges s e formatter st ranges).2).
Proof.
  intros Hw Hinv. unfold scan_ranges. apply scan_ranges_fold_inv.
  - by apply Forall_reverse.
  - simpl. by rewrite Nat.add_0_r.
Qed.

Lemma rangeCount_from n (m : FormatMap) :
  foldl (λ n (kv : Formatter * list FormatRange), n + length kv.2) n m
  = n + rangeCount m.
Proof.
  unfold rangeCount. revert n. induction m as [|kv m IH]; intros n; simpl.
  - lia.
  - rewrite IH, (IH (length kv.2)). lia.
Qed.

Lemma rangeCount_cons kv (m : FormatMap) :
  rangeCount (kv :: m) = length kv.2 + rangeCount m.
Proof. unfold rangeCount at 1. simpl. by rewrite rangeCount_from. Qed.

Lemma scan_entries_inv entries st n :
  Forall (λ kv, Forall (within s e) kv.2) entries →
  scan_inv s e st n →
  scan_inv s e (scan_entries s e st entries).1
    (n + rangeCount (scan_entries s e st entries).2).
Proof.
  revert st n. induction entries as [|[f ranges] entries IH]; intros st n Hw Hinv.
  - simpl. by rewrite Nat.add_0_r.
  - apply Forall_cons in Hw as [Hr Hw]. simpl in Hr. simpl.
    pose proof (scan_ranges_inv f ranges st n Hr Hinv) as H.
    destruct (scan_ranges s e f st ranges) as [st' kept]. simpl in H.
    specialize (IH st' (n + length kept) Hw H).
    destruct (scan_entries s e st' entries) as [st'' rest']. simpl in *.
    destruct kept as [|r kept]; simpl in *.
    + by rewrite Nat.add_0_r in IH.
    + rewrite rangeCount_cons. simpl.
      by replace (n + S (length kept + rangeCount rest'))
        with (n + S (length kept) + rangeCount rest') by lia.
Qed.

(** When the scan of an extracted window says that the node has children,
    the next window is a non-empty proper part of [s, e). *)
Lemma scan_next_window fmt st m :
  scan_entries s e (mkScan e s [] []) (fmap_ (extract s e fmt)) = (st, m) →
  length (columnedFormats st) < rangeCount m →
  s ≤ nextStartIndex st ∧ nextStartIndex st < nextEndIndex st
  ∧ nextEndIndex st ≤ e
  ∧ (s < nextStartIndex st ∨ nextEndIndex st < e).
Proof.
  intros Hscan Hcount.
  pose proof (scan_entries_inv (fmap_ (extract s e fmt))
                (mkScan e s [] []) 0 (extract_within s e fmt)) as H.
  rewrite Hscan in H. simpl in H.
  destruct H as [(?&_)|(_&?)]; [by left|lia|done].
Qed.

End scan.

(** ** The leaves of [toTree] (C1) *)

Lemma tiles_app s m e l1 l2 :
  tiles s m l1 → tiles m e l2 → tiles s e (l1 ++ l2).
Proof.
  revert s. induction l1 as [|[a b] l1 IH]; intros s; simpl.
  - by intros ->.
  - intros (->&?&?) ?. repeat split; [done|]. by apply IH.
Qed.

Lemma tiles_le s e spans : tiles s e spans → s ≤ e.
Proof.
  revert s. induction spans as [|[a b] spans IH]; intros s; simpl.
  - lia.
  - intros (->&?&H). apply IH in H. lia.
Qed.

Lemma leaf_spans_children s e children formats :
  leaf_spans (mkTree s e (Some children) formats) = leaf_spans_list children.
Proof.
  simpl. unfold leaf_spans_list.
  induction children as [|c cs IH]; simpl; [done|]. by rewrite IH.
Qed.

Lemma leaf_spans_list_singleton t : leaf_spans_list [t] = leaf_spans t.
Proof. exact (app_nil_r _). Qed.

Lemma leaf_spans_push t : leaf_spans_list (push t) = leaf_spans t.
Proof.
  destruct t as [s e [children|] [formats|]]; unfold push; simpl tree_formats;
    simpl tree_children; cbv iota.
  - apply leaf_spans_list_singleton.
  - by rewrite leaf_spans_children.
  - apply leaf_spans_list_singleton.
  - apply leaf_spans_list_singleton.
Qed.

Lemma leaf_spans_list_app ts1 ts2 :
  leaf_spans_list (ts1 ++ ts2) = leaf_spans_list ts1 ++ leaf_spans_list ts2.
Proof. unfold leaf_spans_list. apply bind_app. Qed.

Lemma toTree_fuel_tiles fuel s e fmt :
  s < e → e - s < fuel →
  ∃ t, toTree_fuel fuel s e fmt = Some t ∧ tiles s e (leaf_spans t).
Proof.
  revert s e fmt. induction fuel as [|fuel IH]; intros s e fmt Hse Hfuel; [lia|].
  cbn [toTree_fuel].
  destruct (scan_entries s e (mkScan e s [] []) (fmap_ (extract s e fmt)))
    as [st m] eqn:Hscan.
  case_bool_decide as Hchildren.
  - destruct (scan_next_window s e fmt st m Hscan Hchildren)
      as (Hs&Hne&He&Hproper).
    set (copyFormat := with_map (extract s e fmt) m).
    (* the child before the next window *)
    assert (∃ before,
      (if decide (s < nextStartIndex st) then
         match columnedFormats st with
         | _ :: _ =>
             toTree_fuel fuel s (nextStartIndex st)
               (extract s (nextStartIndex st) copyFormat)
             ≫= λ childTree, Some [childTree]
         | [] => Some [mkTree s (nextStartIndex st) None None]
         end
       else Some []) = Some before
      ∧ tiles s (nextStartIndex st) (leaf_spans_list before))
      as (before&->&Hbefore).
    { case_decide as Hlt.
      - destruct (columnedFormats st).
        + eexists. split; [done|]. simpl. done.
        + destruct (IH s (nextStartIndex st)
                      (extract s (nextStartIndex st) copyFormat))
            as (t&->&Ht); [lia|lia|].
          eexists. split; [done|]. by rewrite leaf_spans_list_singleton.
      - eexists. split; [done|]. simpl. lia. }
    (* the next window *)
    destruct (IH (nextStartIndex st) (nextEndIndex st) copyFormat)
      as (nextTree&->&Hnext); [lia|lia|].
    (* the child after the next window *)
    assert (∃ after,
      (if decide (nextEndIndex st < e) then
         toTree_fuel fuel (nextEndIndex st) e
           (extract (nextEndIndex st) e copyFormat)
         ≫= λ afterTree, Some (push afterTree)
       else Some []) = Some after
      ∧ tiles (nextEndIndex st) e (leaf_spans_list after))
      as (after&->&Hafter).
    { case_decide as Hlt.
      - destruct (IH (nextEndIndex st) e (extract (nextEndIndex st) e copyFormat))
          as (t&->&Ht); [lia|lia|].
        eexists. split; [done|]. by rewrite leaf_spans_push.
      - eexists. split; [done|]. simpl. lia. }
    simpl. eexists. split; [done|].
    rewrite leaf_spans_children, !leaf_spans_list_app, leaf_spans_push.
    eapply tiles_app; [done|]. by eapply tiles_app.
  - eexists. split; [done|]. simpl. done.
Qed.

Lemma tiles_partitions s e spans : tiles s e spans → partitions s e spans.
Proof.
  revert s. induction spans as [|[a b] rest IH]; intros s Ht; simpl in Ht.
  { subst. split; [done|]. split; [done|]. intros x. split; [lia|].
    intros (a&Ha&_). by apply elem_of_nil in Ha. }
  destruct Ht as (->&Hlt&Ht).
  pose proof (tiles_le _ _ _ Ht) as Hle.
  destruct (IH b Ht) as (Hc&Hd&Hu).
  assert (Hrest : ∀ j c x, rest !! j = Some c → in_span c x → b ≤ x ∧ x < e).
  { intros j c x Hj Hx. apply Hu. exists c. split; [|done].
    by eapply list_elem_of_lookup_2. }
  split; [|split].
  - intros [|i] c d Hi Hj; simpl in *.
    + injection Hi as <-. destruct rest as [|[c1 c2] rest]; [done|].
      simpl in *. injection Hj as <-. by destruct Ht as (->&_).
    + by eapply Hc.
  - intros [|i] [|j] c d x Hi Hj Hx Hy; simpl in *; try done.
    + injection Hi as <-. destruct (Hrest j d x Hj Hy). unfold in_span in Hx.
      simpl in Hx. lia.
    + injection Hj as <-. destruct (Hrest i c x Hi Hx). unfold in_span in Hy.
      simpl in Hy. lia.
    + f_equal. by eapply Hd.
  - intros x. split.
    + intros [Hx1 Hx2]. destruct (decide (x < b)) as [Hxb|Hxb].
      * exists (s, b). split; [set_solver|]. unfold in_span; simpl. lia.
      * destruct (proj1 (Hu x)) as (c&Hc1&Hc2); [lia|].
        exists c. split; [set_solver|done].
    + intros (c&Hin&Hx). apply elem_of_cons in Hin as [->|Hin].
      * unfold in_span in Hx; simpl in Hx. lia.
      * destruct (proj2 (Hu x)) as [? ?]; [by exists c|]. lia.
Qed.

Lemma toTree_fuel_empty_window fuel s fmt :
  ∃ formats, toTree_fuel (S fuel) s s fmt = Some (mkTree s s None formats).
Proof.
  cbn [toTree_fuel].
  destruct (scan_entries s s (mkScan s s [] []) (fmap_ (extract s s fmt)))
    as [st m] eqn:Hscan.
  case_bool_decide as Hchildren.
  - destruct (scan_next_window s s fmt st m Hscan Hchildren) as (?&?&?&?). lia.
  - by eexists.
Qed.

(** C1.  For every store and every window [s, e) with [s <= e], [toTree]
    returns a tree, and the spans of its leaves are contiguous, do not
    overlap, and have [s, e) as their union. *)
Theorem toTree_leaf_partition (fmt : Format) (s e : nat) :
  s ≤ e →
  ∃ t, toTree s e fmt = Some t ∧ partitions s e (leaf_spans t).
Proof.
  intros Hse. unfold toTree. destruct (decide (s = e)) as [<-|Hne].
  - destruct (toTree_fuel_empty_window (s - s) s fmt) as [formats ->].
    eexists. split; [done|]. simpl. split; [|split].
    + intros [|i] a b; simpl; done.
    + intros [|i] [|j] a b x; simpl; done.
    + intros x. split; [lia|]. intros (a&Ha&Hx).
      apply list_elem_of_singleton in Ha as ->.
      unfold in_span in Hx; simpl in Hx. lia.
  - destruct (toTree_fuel_tiles (S (e - s)) s e fmt) as (t&->&Ht); [lia|lia|].
    exists t. split; [done|]. by apply tiles_partitions.
Qed.

Lemma toTree_leaf_partition_witness :
  ∃ t, toTree 0 10
         (mkFormat slot10 [(bold, [mkRange 0 10 vtrue]);
                           (italic, [mkRange 3 7 vtrue])]) = Some t
       ∧ partitions 0 10 (leaf_spans t).
Proof.
  apply (toTree_leaf_partition
           (mkFormat slot10 [(bold, [mkRange 0 10 vtrue]);
                             (italic, [mkRange 3 7 vtrue])]) 0 10).
  lia.
Defined.

Example toTree_scenarioD :
  scenarioD ≫= toTree 0 10
  = Some (mkTree 0 10
            (Some [mkTree 0 3 None None;
                   mkTree 3 7 None (Some [mkItem italic 3 7 vtrue]);
                   mkTree 7 10 None None])
            (Some [mkItem bold 0 10 vtrue])).
Proof. by vm_compute. Qed.

(** ** Cleaning without a match on an overlap inline formatter *)

Lemma map_set_same key v m : map_get key m = Some v → map_set key v m = m.
Proof.
  induction m as [|[k w] m IH]; simpl; [done|].
  case_decide; [by intros [= ->]; subst|]. intros Hget. by rewrite IH.
Qed.

Lemma with_map_same fmt : with_map fmt (fmap_ fmt) = fmt.
Proof. by destruct fmt. Qed.

Lemma push_null_first_no_match v newRange groups :
  Forall (λ g, equal g.1 v = Some false) groups →
  push_null_first v newRange groups = Some groups.
Proof.
  induction groups as [|[key ranges] rest IH]; intros Hg; simpl; [done|].
  apply Forall_cons in Hg as [Hk Hrest]. simpl in Hk. rewrite Hk. simpl.
  by rewrite IH.
Qed.

(** On a formatter without stored ranges, [merge] tests only [data.value]
    with [isVoid]: a [CleanFormatRule] is stored as the value of a range. *)
Example merge_clean_on_absent_formatter :
  merge comment (InlineData (mkRange 0 5 (VClean 0 (vstr "a"))))
    (empty_format slot10)
  = Some (mkFormat slot10 [(comment, [mkRange 0 5 (VClean 0 (vstr "a"))])]).
Proof. by vm_compute. Qed.

(** ** What the operations write *)

Lemma merge_inv f data fmt fmt' :
  merge f data fmt = Some fmt' →
  fmt' = fmt
  ∨ fmt' = with_map fmt (map_delete f (fmap_ fmt))
  ∨ ∃ l, merge_writes fmt f data l
         ∧ fmt' = with_map fmt (map_set f l (fmap_ fmt)).
Proof.
  unfold merge. cbv zeta.
  destruct (type f) eqn:Hty, data as [d|data]; try done.
  - destruct (isVoid d) eqn:Hd; [intros [= <-]; by right; left|].
    destruct (overlap f) eqn:Hov.
    + assert (∀ groups,
        formatRangesToMap (default [] (map_get f (fmap_ fmt))) = Some groups →
        merge_writes fmt f (BlockData d)
          (flat (group_values groups
                 ++ [[mkRange 0 (slot_length (slot fmt)) d]]))) as Hw.
      { intros groups Hg. by apply writes_block_overlap. }
      destruct d as [| |p|r fields|r inner]; try done.
      * destruct (formatRangesToMap _) as [groups|] eqn:Hg; [|done].
        simpl. intros [= <-]. right; right. eexists. split; [by apply Hw|done].
      * destruct (formatRangesToMap _) as [groups|] eqn:Hg; [|done].
        simpl. intros [= <-]. right; right. eexists. split; [by apply Hw|done].
      * destruct (isVoid inner); intros [= <-]; [by right; left|by left].
    + assert (merge_writes fmt f (BlockData d)
                [mkRange 0 (slot_length (slot fmt)) d]) as Hw
        by by apply writes_block.
      destruct d as [| |p|r fields|r inner]; try done.
      * intros [= <-]. right; right. by eexists.
      * intros [= <-]. right; right. by eexists.
      * destruct (isVoid inner); [intros [= <-]; by right; left|].
        destruct (map_get f (fmap_ fmt)) as [old|]; [|intros [= <-]; by left].
        destruct (equal _ inner) as [[]|]; simpl; intros [= <-];
          [by right; left|by left].
  - destruct (map_get f (fmap_ fmt)) as [old|] eqn:Hget.
    + destruct (normalizeFormatRange _ _ _ _) as [newRanges|] eqn:Hn; [|done].
      simpl. destruct newRanges as [|r rs] eqn:Hnr; intros [= <-].
      * by right; left.
      * right; right. eexists. split; [|done].
        eapply writes_normalized; done.
    + destruct (isVoid (value data)) eqn:Hv; intros [= <-]; [by left|].
      right; right. eexists. split; [|done]. by apply writes_first.
Qed.

Lemma merge_Forall (Q : Formatter * list FormatRange → Prop) f data fmt fmt' :
  Forall Q (fmap_ fmt) →
  merge f data fmt = Some fmt' →
  (∀ l, merge_writes fmt f data l → Q (f, l)) →
  Forall Q (fmap_ fmt').
Proof.
  intros HQ Hm Hw.
  destruct (merge_inv f data fmt fmt' Hm) as [->|[->|(l&Hl&->)]]; simpl.
  - done.
  - by apply map_delete_Forall.
  - apply map_set_Forall; [done|]. by apply Hw.
Qed.

Lemma merge_slot f data fmt fmt' :
  merge f data fmt = Some fmt' → slot fmt' = slot fmt.
Proof.
  intros Hm. by destruct (merge_inv f data fmt fmt' Hm) as [->|[->|(l&Hl&->)]].
Qed.

Lemma values_defined_get f (m : FormatMap) old :
  values_defined m → map_get f m = Some old →
  Forall (λ r, isVoid (value r) = false) old.
Proof.
  intros Hm Hget. apply map_get_elem in Hget.
  unfold values_defined in Hm. rewrite Forall_forall in Hm.
  by apply (Hm (f, old)).
Qed.

(** [merge] returns when no stored value is void and the call fits one of the
    two overloads. *)
Lemma merge_total f data fmt :
  values_defined (fmap_ fmt) → well_typed f data →
  is_Some (merge f data fmt).
Proof.
  intros Hv Hwt. unfold well_typed in Hwt. unfold merge. cbv zeta.
  destruct (type f) eqn:Hty, data as [d|data]; try done.
  - destruct (isVoid d) eqn:Hd; [done|].
    assert (is_Some (formatRangesToMap (default [] (map_get f (fmap_ fmt)))))
      as [groups Hg].
    { destruct (formatRangesToMap_ok (λ _, True)
                  (default [] (map_get f (fmap_ fmt)))) as (g&->&_); [|done].
      destruct (map_get f (fmap_ fmt)) as [old|] eqn:Hget; simpl; [|done].
      eapply Forall_impl; [by eapply values_defined_get|]. done. }
    destruct (overlap f).
    + destruct d as [| |p|r fields|r inner]; try done;
        rewrite ?Hg; simpl; try done.
      by destruct (isVoid inner).
    + destruct d as [| |p|r fields|r inner]; try done.
      destruct (isVoid inner) eqn:Hi; [done|].
      destruct (map_get f (fmap_ fmt)) as [old|] eqn:Hget; [|done].
      pose proof (values_defined_get _ _ _ Hv Hget) as Hold.
      destruct (equal_defined (from_option value VUndefined (head old)) inner)
        as [b ->].
      * destruct old as [|r0 old]; simpl; [done|].
        apply Forall_cons in Hold as [Hr0 _]. by intros Heq; rewrite Heq in Hr0.
      * by intros ->.
      * simpl. by destruct b.
  - destruct (map_get f (fmap_ fmt)) as [old|] eqn:Hget.
    + destruct (normalizeFormatRange_total (slot_length (slot fmt)) f old
                  (Some data)) as [nr ->].
      * by eapply values_defined_get.
      * simpl. by destruct nr.
    + by destruct (isVoid (value data)).
Qed.

Lemma toRanges_tileRanges_in_slot len rs out :
  toRanges (tileRanges len rs) = Some out → Forall (in_slot len) out.
Proof.
  intros Hout. eapply Forall_impl; [by apply toRanges_bounds|].
  simpl. intros r (?&He&?). rewrite tileRanges_length in He.
  unfold in_slot. repeat split; [done|lia|done].
Qed.

Lemma toRanges_splice_defined index items values out :
  toRanges (splice index 0 items values) = Some out →
  Forall (λ r, isVoid (value r) = false) out.
Proof.
  intros Hout. eapply Forall_impl; [by apply toRanges_bounds|].
  by intros r (?&?&?).
Qed.

Lemma mapM_toRanges_Forall (P : FormatRange → Prop)
    (f : list FormatRange → list FormatValue) groups outs :
  (∀ g out, toRanges (f g) = Some out → Forall P out) →
  mapM (λ item, toRanges (f item)) groups = Some outs →
  Forall P (flat outs).
Proof.
  intros HP Hm. apply mapM_Some_1 in Hm. unfold flat.
  induction Hm as [|g out groups outs Hg _ IH]; simpl; [done|].
  apply Forall_app. split; [by eapply HP|done].
Qed.

(** What [normalizeFormatRange] returns lies inside the slot, and is a chain
    for a non-overlap formatter. *)
Lemma normalizeFormatRange_in_slot len f old newRange l :
  normalizeFormatRange len f old newRange = Some l →
  Forall (in_slot len) l ∧ (overlap f = false → chain None l).
Proof.
  unfold normalizeFormatRange. destruct (overlap f).
  - intros Hn. apply bind_Some in Hn as (vg&_&Hn).
    apply fmap_Some in Hn as (outs&Hm&->). split; [|done].
    eapply mapM_toRanges_Forall; [|done].
    intros g out. apply toRanges_tileRanges_in_slot.
  - intros Hn. apply bind_Some in Hn as (rs&_&Hn). split.
    + by eapply toRanges_tileRanges_in_slot.
    + intros _. by eapply toRanges_chain.
Qed.

Lemma in_slot_defined len l :
  Forall (in_slot len) l → Forall (λ r, isVoid (value r) = false) l.
Proof. intros H. eapply Forall_impl; [done|]. by intros r (?&?&?). Qed.

Lemma normalize_entries_Forall (Q : Formatter * list FormatRange → Prop)
    len m m' :
  normalize_entries len m = Some m' →
  (∀ k old l, (k, old) ∈ m → normalizeFormatRange len k old None = Some l →
              l ≠ [] → Q (k, l)) →
  Forall Q m'.
Proof.
  revert m'. induction m as [|[k old] m IH]; intros m'; simpl.
  { by intros [= <-]. }
  destruct (normalizeFormatRange len k old None) as [nr|] eqn:Hn; [|done].
  destruct (normalize_entries len m) as [rest'|]; [|done]. simpl.
  intros Hm' HQ.
  assert (Forall Q rest') as Hrest.
  { apply IH; [done|]. intros k' old' l Hin. apply HQ. set_solver. }
  destruct nr as [|r nr]; injection Hm' as <-; [done|].
  apply Forall_cons. split; [|done]. apply (HQ k old); [set_solver|done|done].
Qed.

(** [split] keeps the keys and replaces each list by [split_entry] of it. *)
Lemma split_inv index distance fmt fmt' :
  split index distance fmt = Some fmt' →
  slot fmt' = slot fmt
  ∧ Forall2 (λ kv kv',
       kv'.1 = kv.1
       ∧ split_entry (slot_length (slot fmt)) index distance kv.1 kv.2
         = Some kv'.2) (fmap_ fmt) (fmap_ fmt').
Proof.
  unfold split. cbv zeta. intros H.
  apply fmap_Some in H as (m'&Hm&->). split; [done|]. simpl.
  apply mapM_Some_1 in Hm.
  eapply Forall2_impl; [done|]. intros [k rs] [k' rs'] Hkv; simpl in *.
  apply fmap_Some in Hkv as (l&Hl&[= -> ->]). done.
Qed.

Lemma split_Forall (Q : Formatter * list FormatRange → Prop)
    index distance fmt fmt' :
  split index distance fmt = Some fmt' →
  (∀ k old l, (k, old) ∈ fmap_ fmt →
              split_entry (slot_length (slot fmt)) index distance k old = Some l →
              Q (k, l)) →
  Forall Q (fmap_ fmt').
Proof.
  intros Hs HQ. apply split_inv in Hs as [_ Hs].
  induction Hs as [|[k old] [k' l] m m' [Hk Hl] _ IH]; [done|].
  simpl in Hk, Hl. subst k'. apply Forall_cons. split.
  - apply (HQ k old); [set_solver|done].
  - apply IH. intros k0 old0 l0 Hin. apply HQ. set_solver.
Qed.

Lemma map_each_range_Forall (P P' : Formatter * list FormatRange → Prop) f m :
  (∀ k l, P (k, l) → P' (k, f <$> l)) →
  Forall P m → Forall P' (map_each_range f m).
Proof.
  intros HP Hm. unfold map_each_range. apply Forall_fmap.
  eapply Forall_impl; [done|]. intros [k l] Hkl; simpl. by apply HP.
Qed.

(** ** The writers and the empty list *)

Lemma merge_writes_nonempty fmt f data l : merge_writes fmt f data l → l ≠ [].
Proof.
  destruct 1; try done.
  unfold flat. rewrite concat_app. simpl. by destruct (concat _).
Qed.

Lemma paint_at_last_cover j d rs :
  (∃ r, r ∈ rs ∧ covers r j) →
  ∃ r, r ∈ rs ∧ paint_at j d rs = value r.
Proof.
  revert d. induction rs as [|r0 rs IH]; intros d (r&Hr&Hc).
  { by apply elem_of_nil in Hr. }
  simpl.
  destruct (decide (Exists (λ r, covers r j) rs)) as [Hex|Hno].
  - apply Exists_exists in Hex as (r'&Hr'&Hc').
    destruct (IH (if decide (covers r0 j) then value r0 else d))
      as (r''&?&?); [by exists r'|].
    exists r''. split; [set_solver|done].
  - apply not_Exists_Forall in Hno; [|apply _].
    rewrite paint_at_uncovered by done.
    apply elem_of_cons in Hr as [->|Hr].
    + exists r0. split; [set_solver|]. by rewrite decide_True.
    + rewrite Forall_forall in Hno. by destruct (Hno r Hr).
Qed.

(** The tiling of a list of ranges inside the slot holds a value that is not
    void. *)
Lemma tileRanges_has_value len rs :
  rs ≠ [] → Forall (in_slot len) rs →
  ∃ x, x ∈ tileRanges len rs ∧ isVoid x = false.
Proof.
  intros Hne Hrs. destruct rs as [|r rs]; [done|].
  pose proof Hrs as Hall. apply Forall_cons in Hrs as [(Hse&Hlen&Hv) _].
  destruct (paint_at_last_cover (startIndex r) VUndefined (r :: rs))
    as (r'&Hr'&Hp).
  { exists r. split; [set_solver|]. unfold covers. lia. }
  exists (value r'). split.
  - eapply list_elem_of_lookup_2. rewrite <- Hp. apply tileRanges_lookup.
    pose proof (max_end_elem 0 (r :: rs) r ltac:(set_solver)). lia.
  - rewrite Forall_forall in Hall. by destruct (Hall r' Hr') as (?&?&?).
Qed.

Lemma toRanges_nonempty values x out :
  x ∈ values → isVoid x = false → toRanges values = Some out → out ≠ [].
Proof.
  intros Hx Hv Hout ->. apply list_elem_of_lookup_1 in Hx as [j Hj].
  destruct (toRanges_from_paint values 0 None [] I Hout j VUndefined)
    as (_&_&H3).
  specialize (H3 x ltac:(lia)). rewrite Nat.sub_0_r in H3.
  specialize (H3 Hj). rewrite Hv in H3. simpl in H3.
  by rewrite equal_undefined_l in H3.
Qed.

Lemma splice_insert_elem index items values x :
  x ∈ values → x ∈ splice index 0 items values.
Proof.
  intros Hx. unfold splice. rewrite Nat.add_0_r.
  rewrite <- (take_drop index values) in Hx. set_solver.
Qed.

(** What [split] stores for an inline formatter is not empty when the list it
    had is not empty and inside the slot. *)
Lemma split_entry_in_slot len index distance k old :
  type k = Inline → old ≠ [] → Forall (in_slot len) old →
  ∃ l, split_entry len index distance k old = Some l ∧ l ≠ []
       ∧ Forall (λ r, isVoid (value r) = false) l.
Proof.
  intros Hty Hne Hold. unfold split_entry. rewrite Hty.
  assert (∀ g, g ≠ [] → Forall (in_slot len) g →
    ∃ out, toRanges (splice index 0 (replicate distance VUndefined)
                       (tileRanges len g)) = Some out
           ∧ out ≠ [] ∧ Forall (λ r, isVoid (value r) = false) out) as Hgroup.
  { intros g Hg Hin.
    destruct (toRanges_total (splice index 0 (replicate distance VUndefined)
                                (tileRanges len g))) as [out Hout].
    exists out. split; [done|]. split; [|by eapply toRanges_splice_defined].
    destruct (tileRanges_has_value len g Hg Hin) as (x&Hx&Hv).
    eapply toRanges_nonempty; [|done|done]. by apply splice_insert_elem. }
  destruct (overlap k); [|by apply Hgroup].
  destruct (formatRangesToMap_ok (in_slot len) old) as (groups&->&Hok&Hgne).
  { eapply Forall_impl; [done|]. by intros r (?&?&?). }
  simpl. specialize (Hgne Hne).
  assert (∃ outs,
    mapM (λ group, toRanges (splice index 0 (replicate distance VUndefined)
                               (tileRanges len group)))
      (group_values groups) = Some outs
    ∧ (groups ≠ [] → flat outs ≠ [])
    ∧ Forall (λ r, isVoid (value r) = false) (flat outs))
    as (outs&->&Hne'&Hv').
  { clear Hgne. induction groups as [|[key g] groups IH].
    - exists []. done.
    - apply Forall_cons in Hok as [(_&Hg&Hin) Hok]. simpl in Hg, Hin.
      destruct (Hgroup g Hg Hin) as (out&Hout&Hone&Hov).
      destruct (IH Hok) as (outs&Houts&_&Hvs).
      exists (out :: outs). split; [|split].
      + apply mapM_Some_2. apply mapM_Some_1 in Houts.
        change (group_values ((key, g) :: groups))
          with (g :: group_values groups).
        by apply Forall2_cons.
      + intros _. unfold flat. simpl. by destruct out.
      + unfold flat. simpl. apply Forall_app. done. }
  simpl. eexists. split; [done|]. split; [by apply Hne'|done].
Qed.

Lemma split_exists (Q : Formatter * list FormatRange → Prop)
    index distance fmt :
  Forall (λ kv, ∃ l,
            split_entry (slot_length (slot fmt)) index distance kv.1 kv.2
            = Some l ∧ Q (kv.1, l)) (fmap_ fmt) →
  ∃ fmt', split index distance fmt = Some fmt' ∧ Forall Q (fmap_ fmt').
Proof.
  intros Hall. unfold split. cbv zeta.
  assert (∃ m',
    mapM (λ kv : Formatter * list FormatRange,
            (λ ranges, (kv.1, ranges)) <$>
              split_entry (slot_length (slot fmt)) index distance kv.1 kv.2)
      (fmap_ fmt) = Some m' ∧ Forall Q m') as (m'&->&Hm').
  { induction Hall as [|[k old] m (l&Hl&HQ) _ (m'&Hm'&HQ')].
    - by exists [].
    - exists ((k, l) :: m'). split; [|by apply Forall_cons].
      apply mapM_Some_2. apply mapM_Some_1 in Hm'.
      constructor; [|done]. simpl in *. by rewrite Hl. }
  simpl. by eexists.
Qed.

(** The writers that test for an empty list.  [merge], [stretch], [shrink],
    [extract] and [createFormatByRange] never leave a key with an empty list
    in a map that had none, and [merge] and [shrink] return when no stored
    value is void; [split], which has no such test, does so when the stored
    ranges of the inline formatters are non-empty ranges inside the slot with
    values that are not void. *)
Theorem no_empty_preserved (fmt : Format) :
  no_empty (fmap_ fmt) →
  (∀ f data fmt', merge f data fmt = Some fmt' → no_empty (fmap_ fmt'))
  ∧ (∀ f data, values_defined (fmap_ fmt) → well_typed f data →
               is_Some (merge f data fmt))
  ∧ (∀ index count, no_empty (fmap_ (stretch index count fmt)))
  ∧ (∀ start count fmt',
       shrink start count fmt = Some fmt' → no_empty (fmap_ fmt'))
  ∧ (∀ start count, values_defined (fmap_ fmt) →
                    is_Some (shrink start count fmt))
  ∧ (∀ s e, no_empty (fmap_ (extract s e fmt)))
  ∧ (∀ slot' s e, no_empty (fmap_ (createFormatByRange slot' s e fmt)))
  ∧ (∀ index distance,
       inline_in_slot fmt →
       ∃ fmt', split index distance fmt = Some fmt' ∧ no_empty (fmap_ fmt')).
Proof.
  intros Hne. repeat split.
  - intros f data fmt' Hm. eapply merge_Forall; [done|done|].
    intros l Hl. simpl. by eapply merge_writes_nonempty.
  - intros f data. apply merge_total.
  - intros index count. unfold stretch; simpl.
    eapply map_each_range_Forall; [|done].
    intros k l; simpl. by destruct l.
  - intros start count fmt'. unfold shrink. cbv zeta. intros Hs.
    apply fmap_Some in Hs as (m'&Hm'&->). simpl.
    eapply normalize_entries_Forall; [done|]. by intros k old l _ _ Hl.
  - intros start count. apply shrink_total.
  - intros s e. unfold extract; simpl.
    apply extract_entries_Forall; [done|]. by intros key _.
  - intros slot' s e. unfold createFormatByRange; simpl.
    apply extract_entries_Forall; [done|]. intros key _; simpl.
    by destruct (extractFormatRangesByFormatter s e key fmt).
  - intros index distance Hin. apply split_exists.
    unfold no_empty, inline_in_slot in *.
    rewrite Forall_forall in Hne, Hin. apply Forall_forall.
    intros [k old] Hkv. specialize (Hne _ Hkv). specialize (Hin _ Hkv).
    simpl in *. destruct (type k) eqn:Hty.
    + unfold split_entry. rewrite Hty. eexists. split; [done|].
      simpl. by destruct old.
    + destruct (split_entry_in_slot (slot_length (slot fmt)) index distance
                  k old Hty Hne (Hin eq_refl)) as (l&Hl&Hl'&_).
      by exists l.
Qed.

Lemma no_empty_preserved_witness :
  ∃ fmt', split 3 2 (mkFormat slot10 [(bold, [mkRange 2 8 vtrue])]) = Some fmt'
          ∧ no_empty (fmap_ fmt').
Proof.
  apply (no_empty_preserved (mkFormat slot10 [(bold, [mkRange 2 8 vtrue])])).
  - repeat constructor. discriminate.
  - repeat constructor; simpl; lia.
Defined.

(** ** Sorted, disjoint, coalesced lists (C8) *)

Lemma chain_all_after p rs :
  chain (Some p) rs → Forall (λ r, endIndex p ≤ startIndex r) rs.
Proof.
  revert p. induction rs as [|r rs IH]; intros p; simpl; [done|].
  intros (Hr&[Hp _]&Hch). apply Forall_cons. split; [done|].
  eapply Forall_impl; [by apply IH|]. simpl. lia.
Qed.

Lemma chain_wf prev rs :
  chain prev rs → Forall (λ r, startIndex r < endIndex r) rs.
Proof.
  revert prev. induction rs as [|r rs IH]; intros prev; simpl; [done|].
  intros (Hr&_&Hch). apply Forall_cons. split; [done|]. by eapply IH.
Qed.

Lemma chain_pairwise rs i j a b :
  chain None rs → i < j → rs !! i = Some a → rs !! j = Some b →
  endIndex a ≤ startIndex b.
Proof.
  revert i j. induction rs as [|r rs IH]; intros i j Hch Hij Hi Hj; [done|].
  simpl in Hch. destruct Hch as (_&_&Hch).
  destruct i as [|i], j as [|j]; try lia; simpl in *.
  - injection Hi as <-. apply chain_all_after in Hch.
    rewrite Forall_lookup in Hch. by eapply Hch.
  - eapply (IH i j); [by eapply chain_drop_prev|lia|done|done].
Qed.

Lemma chain_touching rs i a b :
  chain None rs → rs !! i = Some a → rs !! S i = Some b →
  endIndex a = startIndex b → ¬ value_equal (value a) (value b).
Proof.
  revert i. induction rs as [|r rs IH]; intros i Hch Hi Hj; [done|].
  simpl in Hch. destruct Hch as (_&_&Hch).
  destruct i as [|i]; simpl in *.
  - injection Hi as <-. destruct rs as [|r' rs]; [done|].
    simpl in *. injection Hj as <-. by destruct Hch as (_&[_ ?]&_).
  - eapply (IH i); [by eapply chain_drop_prev|done|done].
Qed.


Lemma stretch_range_value index count r :
  value (stretch_range index count r) = value r.
Proof. unfold stretch_range. by repeat case_decide. Qed.


Lemma extract_range_cases s e r :
  extract_range s e r = []
  ∨ ∃ r', extract_range s e r = [r'] ∧ value r' = value r
          ∧ startIndex r ≤ startIndex r' ∧ s ≤ startIndex r'
          ∧ startIndex r' < endIndex r' ∧ endIndex r' ≤ endIndex r.
Proof.
  unfold extract_range. case_decide; [by left|]. case_decide; [|by left].
  right. eexists. split; [done|]. simpl. split; [done|]. lia.
Qed.



Lemma toRanges_from_void values i cur :
  Forall (λ x, isVoid x = true) values →
  toRanges_from i cur values = Some (option_list cur).
Proof.
  revert i cur. induction values as [|x values IH]; intros i cur Hv; [done|].
  apply Forall_cons in Hv as [Hx Hv]. simpl. rewrite Hx, IH by done.
  simpl. by rewrite app_nil_r.
Qed.













(** ** Stored values are never void *)

Lemma extract_range_value s e r :
  Forall (λ r', value r' = value r) (extract_range s e r).
Proof.
  destruct (extract_range_cases s e r) as [->|(r'&->&Hv&_)]; [done|].
  by apply Forall_singleton.
Qed.

Lemma extractFormatRangesByFormatter_defined s e key fmt :
  values_defined (fmap_ fmt) →
  Forall (λ r, isVoid (value r) = false)
    (extractFormatRangesByFormatter s e key fmt).
Proof.
  intros Hv. unfold extractFormatRangesByFormatter.
  destruct (map_get key (fmap_ fmt)) as [old|] eqn:Hget; simpl; [|done].
  apply Forall_bind. eapply Forall_impl; [by eapply values_defined_get|].
  intros r Hr; simpl. eapply Forall_impl; [apply extract_range_value|].
  intros r' Hr'; simpl in *. by rewrite Hr'.
Qed.

Lemma merge_writes_defined fmt f data l :
  values_defined (fmap_ fmt) → merge_writes fmt f data l →
  Forall (λ r, isVoid (value r) = false) l.
Proof.
  intros Hv Hl. destruct Hl as [d|d groups ? ? ? Hg|data|data old nr ? ? Hn].
  - by apply Forall_singleton.
  - destruct (formatRangesToMap_ok (λ _, True)
                (default [] (map_get f (fmap_ fmt)))) as (g&Hg'&Hok&_).
    { destruct (map_get f (fmap_ fmt)) as [old|] eqn:Hget; simpl; [|done].
      eapply Forall_impl; [by eapply values_defined_get|]. done. }
    assert (Forall (λ r, isVoid (value r) = false)
              (default [] (map_get f (fmap_ fmt)))) as Hold.
    { destruct (map_get f (fmap_ fmt)) as [old|] eqn:Hget; simpl; [|done].
      by eapply values_defined_get. }
    destruct (formatRangesToMap_ok (λ r, isVoid (value r) = false)
                (default [] (map_get f (fmap_ fmt)))) as (g2&Hg2&Hok2&_).
    { eapply Forall_impl; [exact Hold|]. done. }
    rewrite Hg in Hg2. injection Hg2 as <-.
    unfold flat. rewrite concat_app. apply Forall_app. split.
    + apply Forall_concat. unfold group_values. apply Forall_fmap.
      eapply Forall_impl; [exact Hok2|]. by intros [k rs] (?&?&?).
    + simpl. by apply Forall_singleton.
  - by apply Forall_singleton.
  - apply (in_slot_defined (slot_length (slot fmt))).
    by eapply normalizeFormatRange_in_slot.
Qed.

(** Every operation keeps a map without void values free of void values. *)
Lemma values_defined_preserved (fmt : Format) :
  values_defined (fmap_ fmt) →
  (∀ f data fmt', merge f data fmt = Some fmt' → values_defined (fmap_ fmt'))
  ∧ (∀ index count, values_defined (fmap_ (stretch index count fmt)))
  ∧ (∀ index distance fmt',
       split index distance fmt = Some fmt' → values_defined (fmap_ fmt'))
  ∧ (∀ start count fmt',
       shrink start count fmt = Some fmt' → values_defined (fmap_ fmt'))
  ∧ (∀ s e, values_defined (fmap_ (extract s e fmt)))
  ∧ (∀ slot' s e, values_defined (fmap_ (createFormatByRange slot' s e fmt))).
Proof.
  intros Hv. split; [|split; [|split; [|split; [|split]]]].
  - intros f data fmt' Hm. eapply merge_Forall; [exact Hv|done|].
    intros l Hl. simpl. by eapply merge_writes_defined.
  - intros index count. apply values_defined_each_range; [|done].
    apply stretch_range_value.
  - intros index distance fmt' Hsp. eapply split_Forall; [done|].
    intros k old l Hin Hl. simpl.
    unfold values_defined in Hv. rewrite Forall_forall in Hv.
    specialize (Hv (k, old) Hin). simpl in Hv.
    unfold split_entry in Hl. destruct (type k).
    + injection Hl as <-. apply Forall_fmap.
      eapply Forall_impl; [exact Hv|]. done.
    + destruct (overlap k).
      * apply bind_Some in Hl as (groups&_&Hl).
        apply fmap_Some in Hl as (outs&Hm&->).
        eapply (mapM_toRanges_Forall _
                  (λ g, splice index 0 (replicate distance VUndefined)
                          (tileRanges (slot_length (slot fmt)) g)));
          [|done].
        intros g out. apply toRanges_splice_defined.
      * by eapply toRanges_splice_defined.
  - intros start count fmt'. unfold shrink. cbv zeta. intros Hsh.
    apply fmap_Some in Hsh as (m'&Hm'&->). simpl.
    eapply normalize_entries_Forall; [done|].
    intros k old l _ Hn _. simpl.
    apply (in_slot_defined (slot_length (slot fmt))).
    by eapply normalizeFormatRange_in_slot.
  - intros s e. unfold extract; simpl.
    apply extract_entries_Forall; [done|]. intros key _ _; simpl.
    by apply extractFormatRangesByFormatter_defined.
  - intros slot' s e. unfold createFormatByRange; simpl.
    apply extract_entries_Forall; [done|]. intros key _ _; simpl.
    apply Forall_fmap.
    eapply Forall_impl; [by apply extractFormatRangesByFormatter_defined|].
    done.
Qed.

(** * Normalization in [shrink], [split] and the unset of [merge] *)

(** ** What [normalizeFormatRange] returns *)

Lemma mapM_toRanges_tiles len (gs : list (list FormatRange)) outs :
  mapM (λ item, toRanges (tileRanges len item)) gs = Some outs →
  Forall2 (λ g o,
     chain None o ∧ Forall (in_slot len) o
     ∧ ∀ j, j < len → same_value (paint_at j VUndefined o)
                         (paint_at j VUndefined g)) gs outs.
Proof.
  intros H%mapM_Some_1. eapply Forall2_impl; [exact H|].
  intros g o Ho. simpl in Ho. split_and!.
  - by eapply toRanges_chain.
  - by eapply toRanges_tileRanges_in_slot.
  - intros j Hj. by eapply toRanges_tileRanges_paint.
Qed.

Lemma normalizeFormatRange_normalizes len f rs out :
  normalizeFormatRange len f rs None = Some out →
  Forall (in_slot len) out
  ∧ (overlap f = false →
     chain None out
     ∧ ∀ j, j < len → same_value (paint_at j VUndefined out)
                         (paint_at j VUndefined rs))
  ∧ (overlap f = true →
     ∃ groups outs,
       formatRangesToMap rs = Some groups ∧ out = flat outs
       ∧ Forall2 (λ g o,
            chain None o
            ∧ ∀ j, j < len → same_value (paint_at j VUndefined o)
                                (paint_at j VUndefined g.2)) groups outs).
Proof.
  intros Hn. split; [by eapply normalizeFormatRange_in_slot|].
  unfold normalizeFormatRange in Hn. split; intros Hov; rewrite Hov in Hn.
  - simpl in Hn. split; [by eapply toRanges_chain|].
    intros j Hj. by eapply toRanges_tileRanges_paint.
  - destruct (formatRangesToMap rs) as [groups|]; [|done]. simpl in Hn.
    apply fmap_Some in Hn as (outs&Hm&->).
    exists groups, outs. split_and!; [done|done|].
    apply mapM_toRanges_tiles in Hm. unfold group_values in Hm.
    apply Forall2_fmap_l in Hm. eapply Forall2_impl; [exact Hm|].
    by intros g o (?&_&?).
Qed.

Lemma normalize_entries_entry len m m' f rs :
  normalize_entries len m = Some m' → (f, rs) ∈ m →
  is_Some (normalizeFormatRange len f rs None).
Proof.
  revert m'. induction m as [|[k old] m IH]; intros m' Hm Hin;
    [by apply elem_of_nil in Hin|].
  cbn [normalize_entries] in Hm.
  apply bind_Some in Hm as (l&Hl&Hm).
  apply bind_Some in Hm as (rest&Hrest&_).
  apply elem_of_cons in Hin as [[= -> ->]|Hin]; [by eexists|].
  by eapply IH.
Qed.

(** ** [shrink] (C6) *)

(** C6.  [shrink] first maps every stored range by [shrink_range]: a range
    that ends at or before [startIndex] is untouched; any other range has its
    end lowered by [count] but not below [startIndex], and its start, when
    after [startIndex], lowered in the same way.  Then the list of every key
    is replaced by [normalizeFormatRange] of it, the function [merge]
    normalizes with, and a key whose list comes out empty is deleted.  The
    list that replaces the shrunk list of a key holds non-empty ranges inside
    the slot with values that are not void.  For a non-overlap formatter it is
    sorted and disjoint, without two touching ranges of equal value, and
    carries at every position of the slot the value the shrunk list paints
    there; for an overlap formatter it is the concatenation of such lists,
    one for each value group of the shrunk list.  No key of the result has an
    empty list.  The call returns when no stored value is void; the bold
    range of scenario B becomes [{2, 7, true}], the ranges [{0, 3, true}] and
    [{5, 8, true}] shrunk by [shrink(3, 2)] become [{0, 6, true}], and a range
    shrunk to nothing takes its key with it. *)
Theorem shrink_spec :
  (∀ start count r,
     value (shrink_range start count r) = value r
     ∧ (endIndex r ≤ start → shrink_range start count r = r)
     ∧ (start < endIndex r →
        endIndex (shrink_range start count r)
        = start `max` (endIndex r - count)
        ∧ startIndex (shrink_range start count r)
          = if decide (start < startIndex r)
            then start `max` (startIndex r - count)
            else startIndex r))
  ∧ (∀ start count fmt fmt' f,
       NoDup (fmap_ fmt).*1 →
       shrink start count fmt = Some fmt' →
       slot fmt' = slot fmt
       ∧ map_get f (fmap_ fmt')
         = map_get f (fmap_ fmt) ≫= λ old,
             normalizeFormatRange (slot_length (slot fmt)) f
               (shrink_range start count <$> old) None
             ≫= nonempty_opt)
  ∧ (∀ start count fmt fmt' f old,
       NoDup (fmap_ fmt).*1 →
       shrink start count fmt = Some fmt' →
       map_get f (fmap_ fmt) = Some old →
       ∃ out,
         map_get f (fmap_ fmt') = nonempty_opt out
         ∧ Forall (in_slot (slot_length (slot fmt))) out
         ∧ (overlap f = false →
            chain None out
            ∧ ∀ j, j < slot_length (slot fmt) →
                   same_value (paint_at j VUndefined out)
                     (paint_at j VUndefined (shrink_range start count <$> old)))
         ∧ (overlap f = true →
            ∃ groups outs,
              formatRangesToMap (shrink_range start count <$> old)
              = Some groups
              ∧ out = flat outs
              ∧ Forall2 (λ g o,
                   chain None o
                   ∧ ∀ j, j < slot_length (slot fmt) →
                          same_value (paint_at j VUndefined o)
                            (paint_at j VUndefined g.2)) groups outs))
  ∧ (∀ start count fmt fmt',
       shrink start count fmt = Some fmt' → no_empty (fmap_ fmt'))
  ∧ (∀ fmt f old data,
       type f = Inline → map_get f (fmap_ fmt) = Some old →
       merge f (InlineData data) fmt
       = normalizeFormatRange (slot_length (slot fmt)) f old (Some data)
         ≫= λ newRanges,
           Some (with_map fmt
                   match newRanges with
                   | [] => map_delete f (fmap_ fmt)
                   | _ => map_set f newRanges (fmap_ fmt)
                   end))
  ∧ (∀ start count fmt,
       values_defined (fmap_ fmt) → is_Some (shrink start count fmt))
  ∧ fmap_ <$> scenarioC = Some [(bold, [mkRange 2 7 vtrue])]
  ∧ fmap_ <$> shrink 3 2
                (mkFormat slot10 [(bold, [mkRange 0 3 vtrue;
                                          mkRange 5 8 vtrue])])
    = Some [(bold, [mkRange 0 6 vtrue])]
  ∧ fmap_ <$> shrink 2 5
                (mkFormat slot10 [(bold, [mkRange 3 6 vtrue]);
                                  (italic, [mkRange 0 1 vtrue])])
    = Some [(italic, [mkRange 0 1 vtrue])].
Proof.
  split_and!; [| | | | | |by vm_compute|by vm_compute|by vm_compute].
  - intros start count r. unfold shrink_range.
    destruct r as [s e v]; simpl.
    repeat case_decide; simpl in *; repeat split; intros; try done; try lia.
    all: repeat case_decide; simpl; try done; lia.
  - intros start count fmt fmt' f Hnd. unfold shrink.
    destruct (normalize_entries _ _) as [m'|] eqn:Hm; [|done].
    intros [= <-]. split; [done|]. simpl.
    rewrite (normalize_entries_get _ _ _ f) with (2 := Hm).
    + rewrite map_get_each_range. by destruct (map_get f (fmap_ fmt)).
    + unfold map_each_range. rewrite <- list_fmap_compose.
      erewrite list_fmap_ext; [done|]. by intros _ [k rs] _.
  - intros start count fmt fmt' f old Hnd. unfold shrink.
    destruct (normalize_entries _ _) as [m'|] eqn:Hm; [|done].
    intros [= <-] Hget. simpl.
    assert (NoDup (map_each_range (shrink_range start count) (fmap_ fmt)).*1)
      as Hnd'.
    { unfold map_each_range. rewrite <- list_fmap_compose.
      erewrite list_fmap_ext; [done|]. by intros _ [k rs] _. }
    assert (map_get f (map_each_range (shrink_range start count) (fmap_ fmt))
            = Some (shrink_range start count <$> old)) as Hget'
      by (by rewrite map_get_each_range, Hget).
    destruct (normalize_entries_entry _ _ _ f _ Hm (map_get_elem _ _ _ Hget'))
      as [out Hout].
    exists out. split.
    + rewrite (normalize_entries_get _ _ _ f Hnd' Hm), Hget'. simpl.
      by rewrite Hout.
    + by apply normalizeFormatRange_normalizes.
  - intros start count fmt fmt'. unfold shrink. cbv zeta. intros Hs.
    apply fmap_Some in Hs as (m'&Hm'&->). simpl.
    eapply normalize_entries_Forall; [done|]. by intros k old l _ _ Hl.
  - intros fmt f old data Hty Hget. unfold merge. cbv zeta.
    rewrite Hty, Hget.
    destruct (normalizeFormatRange _ _ _ _) as [nr|]; [|done].
    simpl. by destruct nr.
  - apply shrink_total.
Qed.

Lemma shrink_spec_witness :
  ∃ out,
    map_get bold (fmap_ (mkFormat slot10 [(bold, [mkRange 0 6 vtrue])]))
    = nonempty_opt out
    ∧ Forall (in_slot 10) out
    ∧ (overlap bold = false →
       chain None out
       ∧ ∀ j, j < 10 →
              same_value (paint_at j VUndefined out)
                (paint_at j VUndefined
                   (shrink_range 3 2 <$> [mkRange 0 3 vtrue;
                                          mkRange 5 8 vtrue])))
    ∧ (overlap bold = true →
       ∃ groups outs,
         formatRangesToMap (shrink_range 3 2 <$> [mkRange 0 3 vtrue;
                                                  mkRange 5 8 vtrue])
         = Some groups
         ∧ out = flat outs
         ∧ Forall2 (λ g o,
              chain None o
              ∧ ∀ j, j < 10 →
                     same_value (paint_at j VUndefined o)
                       (paint_at j VUndefined g.2)) groups outs).
Proof.
  apply (proj1 (proj2 (proj2 shrink_spec)) 3 2
           (mkFormat slot10 [(bold, [mkRange 0 3 vtrue; mkRange 5 8 vtrue])])
           (mkFormat slot10 [(bold, [mkRange 0 6 vtrue])]) bold
           [mkRange 0 3 vtrue; mkRange 5 8 vtrue]).
  - simpl. repeat constructor. set_solver.
  - by vm_compute.
  - reflexivity.
Defined.

(** ** [split] and the empty list (C7) *)

Lemma tileRanges_outside len rs :
  Forall (λ r, len ≤ startIndex r) rs →
  Forall (λ x, isVoid x = true) (tileRanges len rs).
Proof.
  intros Hrs. apply Forall_lookup. intros j x Hx.
  pose proof (lookup_lt_Some _ _ _ Hx) as Hj.
  rewrite tileRanges_length in Hj.
  rewrite tileRanges_lookup in Hx by done. injection Hx as <-.
  rewrite paint_at_uncovered; [done|].
  eapply Forall_impl; [exact Hrs|]. intros r Hr. unfold covers.
  simpl in *. lia.
Qed.

Lemma splice_gap_void index distance values :
  Forall (λ x, isVoid x = true) values →
  Forall (λ x, isVoid x = true)
    (splice index 0 (replicate distance VUndefined) values).
Proof.
  intros Hv. unfold splice. rewrite !Forall_app. split_and!.
  - by apply Forall_take.
  - by apply Forall_replicate.
  - by apply Forall_drop.
Qed.

Lemma split_entry_outside len index distance f d :
  type f = Inline → len ≤ startIndex d →
  split_entry len index distance f [d] = Some [].
Proof.
  intros Hty Hout.
  assert (toRanges (splice index 0 (replicate distance VUndefined)
                      (tileRanges len [d])) = Some []) as Htile.
  { unfold toRanges. rewrite toRanges_from_void; [done|].
    apply splice_gap_void, tileRanges_outside. by repeat constructor. }
  unfold split_entry. rewrite Hty. destruct (overlap f).
  - unfold formatRangesToMap. simpl. by rewrite Htile.
  - done.
Qed.

Lemma normalizeFormatRange_outside len f d :
  len ≤ startIndex d → normalizeFormatRange len f [d] None = Some [].
Proof.
  intros Hout.
  assert (toRanges (tileRanges len [d]) = Some []) as Htile.
  { unfold toRanges. rewrite toRanges_from_void; [done|].
    apply tileRanges_outside. by repeat constructor. }
  unfold normalizeFormatRange. destruct (overlap f).
  - unfold formatRangesToMap. simpl. by rewrite Htile.
  - done.
Qed.

(** C7.  The code breaks the invariant in [split].  The first merge of an
    inline formatter stores its range as given; when the range starts at or
    beyond the end of the slot, the store has no empty list, and [split],
    which sets the list it reads back without a test, leaves the formatter
    as a key with the empty list.  [shrink], which tests its list, deletes
    the key of the same store. *)
Theorem split_keeps_key_with_empty_list (f : Formatter) (d : FormatRange)
    (sl : Slot) (index distance : nat) :
  type f = Inline → isVoid (value d) = false →
  slot_length sl ≤ startIndex d →
  merge f (InlineData d) (empty_format sl) = Some (mkFormat sl [(f, [d])])
  ∧ no_empty [(f, [d])]
  ∧ split index distance (mkFormat sl [(f, [d])]) = Some (mkFormat sl [(f, [])])
  ∧ ¬ no_empty [(f, [])]
  ∧ shrink 0 0 (mkFormat sl [(f, [d])]) = Some (mkFormat sl []).
Proof.
  intros Hty Hvoid Hout. split_and!.
  - unfold merge. rewrite Hty. simpl. by rewrite Hvoid.
  - by repeat constructor.
  - unfold split. simpl. by rewrite split_entry_outside.
  - intros H. apply Forall_cons in H as [H _]. by apply H.
  - unfold shrink. simpl.
    assert (shrink_range 0 0 d = d) as ->.
    { destruct d as [s e v].
      unfold shrink_range, set_startIndex, set_endIndex.
      repeat (case_decide; simpl in * ); try done; f_equal; lia. }
    by rewrite normalizeFormatRange_outside.
Qed.

Lemma split_keeps_key_with_empty_list_witness :
  merge bold (InlineData (mkRange 12 15 vtrue)) (empty_format slot10)
  = Some (mkFormat slot10 [(bold, [mkRange 12 15 vtrue])])
  ∧ no_empty [(bold, [mkRange 12 15 vtrue])]
  ∧ split 0 1 (mkFormat slot10 [(bold, [mkRange 12 15 vtrue])])
    = Some (mkFormat slot10 [(bold, [])])
  ∧ ¬ no_empty [(bold, [])]
  ∧ shrink 0 0 (mkFormat slot10 [(bold, [mkRange 12 15 vtrue])])
    = Some (mkFormat slot10 []).
Proof.
  apply (split_keeps_key_with_empty_list bold (mkRange 12 15 vtrue) slot10
           0 1).
  - reflexivity.
  - reflexivity.
  - simpl. lia.
Defined.

(** ** The unset of [merge] on an overlap inline formatter (C9) *)

Lemma paint_at_null_range j g data :
  paint_at j VUndefined (g ++ [null_range data])
  = if decide (covers data j) then VNull else paint_at j VUndefined g.
Proof.
  rewrite paint_at_app. simpl. unfold covers, null_range, set_value. simpl.
  by repeat case_decide.
Qed.

Lemma normalizeFormatRange_overlap_unset len f old data groups :
  overlap f = true → formatRangesToMap old = Some groups →
  (isVoid (value data) = true
   ∨ ∃ ref inner, value data = VClean ref inner ∧ isVoid inner = true) →
  ∃ outs,
    normalizeFormatRange len f old (Some data) = Some (flat outs)
    ∧ Forall2 (λ g o,
         chain None o ∧ Forall (in_slot len) o
         ∧ ∀ j, j < len →
                if decide (covers data j)
                then paint_at j VUndefined o = VUndefined
                else same_value (paint_at j VUndefined o)
                       (paint_at j VUndefined g.2)) groups outs.
Proof.
  intros Hov Hg Hdata.
  destruct (mapM_toRanges_total (tileRanges len)
              (group_values (push_null_all data groups))) as [outs Houts].
  exists outs. split.
  - unfold normalizeFormatRange. rewrite Hov.
    destruct Hdata as [Hvoid|(ref&inner&Hv&Hvoid)].
    + destruct (value data); try done; rewrite Hg; simpl; by rewrite Houts.
    + rewrite Hv, Hg. cbn [mbind option_bind]. rewrite Hvoid.
      cbn [mbind option_bind]. by rewrite Houts.
  - apply mapM_toRanges_tiles in Houts.
    unfold group_values, push_null_all in Houts.
    rewrite <-list_fmap_compose in Houts. apply Forall2_fmap_l in Houts.
    eapply Forall2_impl; [exact Houts|].
    intros g o (Hch&Hin&Hp). simpl in Hp. split_and!; [done|done|].
    intros j Hj. specialize (Hp j Hj). rewrite paint_at_null_range in Hp.
    by case_decide.
Qed.

(** C9, as amended.  On an overlap inline formatter, a merge that cleans
    without a matching value group returns the store unchanged, and so does
    a merge of null-valued data when the formatter has no stored ranges.
    Over stored ranges, null-valued data and a [CleanFormatRule] without a
    value clear their interval in every value group: the new list is the
    concatenation, group by group, of a sorted list of disjoint non-empty
    ranges inside the slot that carries nothing at the positions of the
    merged range and the value the group painted at every other position of
    the slot; the key is deleted when nothing is left. *)
Theorem merge_overlap_unset (fmt : Format) (f : Formatter)
    (data : FormatRange) :
  type f = Inline → overlap f = true →
  (clean_without_match fmt f data → merge f (InlineData data) fmt = Some fmt)
  ∧ (∀ old,
       map_get f (fmap_ fmt) = Some old →
       Forall (λ r, isVoid (value r) = false) old →
       (isVoid (value data) = true
        ∨ ∃ ref inner, value data = VClean ref inner ∧ isVoid inner = true) →
       ∃ groups outs,
         formatRangesToMap old = Some groups
         ∧ merge f (InlineData data) fmt
           = Some (with_map fmt
                     match flat outs with
                     | [] => map_delete f (fmap_ fmt)
                     | _ => map_set f (flat outs) (fmap_ fmt)
                     end)
         ∧ Forall2 (λ g o,
              chain None o
              ∧ Forall (in_slot (slot_length (slot fmt))) o
              ∧ ∀ j, j < slot_length (slot fmt) →
                     if decide (covers data j)
                     then paint_at j VUndefined o = VUndefined
                     else same_value (paint_at j VUndefined o)
                            (paint_at j VUndefined g.2)) groups outs).
Proof.
  intros Hty Hov. split.
  - intros [[Hget Hv]|(old&groups&ref&v&Hd&Hv&Hget&Hne&Hnorm&Hno)];
      unfold merge; cbv zeta; rewrite Hty, Hget.
    + by rewrite Hv.
    + destruct Hnorm as (Hgroups&Hflat&Hok).
      unfold normalizeFormatRange. rewrite Hov, Hd, Hgroups. simpl.
      rewrite Hv, push_null_first_no_match by done. simpl.
      rewrite (proj2 (mapM_Some _ (group_values groups) (group_values groups))).
      * simpl. rewrite Hflat. destruct old as [|r old]; [done|].
        by rewrite map_set_same, with_map_same.
      * apply Forall_Forall2_diag. unfold group_values. apply Forall_fmap.
        eapply Forall_impl; [exact Hok|]. intros [key rs] Hg; simpl in *.
        destruct Hg as (?&?&?). by apply toRanges_tileRanges_normal.
  - intros old Hget Hold Hdata.
    destruct (formatRangesToMap_ok (λ _, True) old) as (groups&Hg&_).
    { eapply Forall_impl; [exact Hold|]. by intros r ?. }
    destruct (normalizeFormatRange_overlap_unset (slot_length (slot fmt))
                f old data groups Hov Hg Hdata) as (outs&Hn&Houts).
    exists groups, outs. split_and!; [done| |done].
    unfold merge. cbv zeta. rewrite Hty, Hget, Hn. simpl.
    by destruct (flat outs).
Qed.

Lemma merge_overlap_unset_witness :
  merge comment (InlineData (mkRange 3 8 (VClean 0 (vstr "b")))) commented
  = Some commented
  ∧ ∃ groups outs,
      formatRangesToMap [mkRange 0 5 (vstr "a")] = Some groups
      ∧ merge comment (InlineData (mkRange 3 8 (VClean 0 VNull))) commented
        = Some (with_map commented
                  match flat outs with
                  | [] => map_delete comment (fmap_ commented)
                  | _ => map_set comment (flat outs) (fmap_ commented)
                  end)
      ∧ Forall2 (λ g o,
           chain None o
           ∧ Forall (in_slot (slot_length (slot commented))) o
           ∧ ∀ j, j < slot_length (slot commented) →
                  if decide (covers (mkRange 3 8 (VClean 0 VNull)) j)
                  then paint_at j VUndefined o = VUndefined
                  else same_value (paint_at j VUndefined o)
                         (paint_at j VUndefined g.2)) groups outs.
Proof.
  split.
  - apply (proj1 (merge_overlap_unset commented comment
                    (mkRange 3 8 (VClean 0 (vstr "b"))) eq_refl eq_refl)).
    right.
    exists [mkRange 0 5 (vstr "a")], [(vstr "a", [mkRange 0 5 (vstr "a")])],
      0, (vstr "b").
    repeat split; try reflexivity; try discriminate.
    + repeat constructor; simpl; lia.
    + repeat constructor.
  - apply (proj2 (merge_overlap_unset commented comment
                    (mkRange 3 8 (VClean 0 VNull)) eq_refl eq_refl)
             [mkRange 0 5 (vstr "a")]).
    + reflexivity.
    + by repeat constructor.
    + right. by exists 0, VNull.
Defined.

(** C9 as stated fails: null-valued data equals no value group, and still
    the merge clears its interval in every group; so does a
    [CleanFormatRule] without a value. *)
Lemma merge_overlap_null_changes_store :
  Forall (λ r, equal (value r) VNull = Some false) [mkRange 0 5 (vstr "a")]
  ∧ merge comment (InlineData (mkRange 3 8 VNull)) commented
    = Some (mkFormat slot10 [(comment, [mkRange 0 3 (vstr "a")])])
  ∧ merge comment (InlineData (mkRange 3 8 VNull)) commented ≠ Some commented
  ∧ merge comment (InlineData (mkRange 3 8 (VClean 0 VNull))) commented
    = Some (mkFormat slot10 [(comment, [mkRange 0 3 (vstr "a")])]).
Proof.
  split; [by repeat constructor|]. split; [by vm_compute|].
  split; by vm_compute.
Qed.

(** * Further properties of the code *)

(** ** [tileRanges] and [toRanges] on their own *)

Lemma paint_at_last j d pre r post :
  covers r j → Forall (λ r', ¬ covers r' j) post →
  paint_at j d (pre ++ r :: post) = value r.
Proof.
  intros Hc Hpost. rewrite paint_at_app. simpl.
  rewrite decide_True by done. by apply paint_at_uncovered.
Qed.

(** [tileRanges] gives an array as long as the largest [endIndex], clipped to
    the slot; an entry is the value of the last range of the list that covers
    its position, and a hole where no range does. *)
Theorem tileRanges_spec (len : nat) (ranges : list FormatRange) :
  length (tileRanges len ranges) = max_end 0 ranges `min` len
  ∧ (∀ r, r ∈ ranges → endIndex r ≤ max_end 0 ranges)
  ∧ (∀ j pre r post,
       j < length (tileRanges len ranges) →
       ranges = pre ++ r :: post → covers r j →
       Forall (λ r', ¬ covers r' j) post →
       tileRanges len ranges !! j = Some (value r))
  ∧ (∀ j, j < length (tileRanges len ranges) →
          Forall (λ r, ¬ covers r j) ranges →
          tileRanges len ranges !! j = Some VUndefined).
Proof.
  split; [apply tileRanges_length|]. split; [intros r; apply max_end_elem|].
  split.
  - intros j pre r post Hj -> Hc Hpost. rewrite tileRanges_length in Hj.
    rewrite tileRanges_lookup by done. f_equal. by apply paint_at_last.
  - intros j Hj Hno. rewrite tileRanges_length in Hj.
    rewrite tileRanges_lookup by done. f_equal. by apply paint_at_uncovered.
Qed.

Lemma tileRanges_spec_witness :
  tileRanges 10 [mkRange 2 5 vtrue; mkRange 4 8 (vstr "a")] !! 4
  = Some (vstr "a").
Proof.
  apply (proj1 (proj2 (proj2 (tileRanges_spec 10
           [mkRange 2 5 vtrue; mkRange 4 8 (vstr "a")])))
           4 [mkRange 2 5 vtrue] (mkRange 4 8 (vstr "a")) []).
  - vm_compute. lia.
  - reflexivity.
  - unfold covers. simpl. lia.
  - constructor.
Defined.

Lemma toRanges_paint values out j :
  toRanges values = Some out →
  same_value (paint_at j VUndefined out) (default VUndefined (values !! j)).
Proof.
  intros Hout.
  destruct (toRanges_from_paint values 0 None out I Hout j VUndefined)
    as (_&H2&H3).
  destruct (values !! j) as [x|] eqn:Hx; simpl.
  - specialize (H3 x ltac:(lia)). rewrite Nat.sub_0_r in H3.
    specialize (H3 Hx). unfold same_value. by destruct (isVoid x).
  - apply lookup_ge_None in Hx. unfold same_value; simpl. apply H2. lia.
Qed.

(** [toRanges] returns for every array.  Its ranges are non-empty, lie inside
    the array, carry no void value, follow each other without overlap, differ
    in value where they touch, and cover exactly the entries that are not
    void, each with a value equal to the entry. *)
Theorem toRanges_spec (values : list FormatValue) :
  ∃ out, toRanges values = Some out
         ∧ Forall (λ r, startIndex r < endIndex r
                        ∧ endIndex r ≤ length values
                        ∧ isVoid (value r) = false) out
         ∧ disjoint_sorted out ∧ coalesced out
         ∧ ∀ j, same_value (paint_at j VUndefined out)
                  (default VUndefined (values !! j)).
Proof.
  destruct (toRanges_total values) as [out Hout]. exists out.
  split; [done|]. split; [by apply toRanges_bounds|].
  pose proof (toRanges_chain values out Hout) as Hch.
  split; [|split].
  - intros i j a b Hij Hi Hj.
    pose proof (chain_pairwise out i j a b Hch Hij Hi Hj).
    pose proof (chain_wf _ _ Hch) as Hwf. rewrite Forall_lookup in Hwf.
    pose proof (Hwf i a Hi). pose proof (Hwf j b Hj). simpl in *.
    split; [lia|]. unfold covers. lia.
  - intros i a b Hi Hj. by eapply chain_touching.
  - intros j. by apply toRanges_paint.
Qed.

(** A list of non-empty ranges inside the slot, sorted, disjoint, without
    void values and without two touching ranges of equal value, is what
    [toRanges(tileRanges(...))] gives back for it. *)
Theorem toRanges_tileRanges_fixed_point (len : nat) (rs : list FormatRange) :
  chain None rs →
  Forall (in_slot len) rs →
  toRanges (tileRanges len rs) = Some rs.
Proof.
  intros Hch Hin. apply toRanges_tileRanges_normal; [done| |].
  - eapply Forall_impl; [done|]. by intros r (?&?&?).
  - by eapply in_slot_defined.
Qed.

Lemma toRanges_tileRanges_fixed_point_witness :
  toRanges (tileRanges 10 [mkRange 0 3 vtrue; mkRange 3 5 (vstr "a");
                           mkRange 7 10 vtrue])
  = Some [mkRange 0 3 vtrue; mkRange 3 5 (vstr "a"); mkRange 7 10 vtrue].
Proof.
  apply (toRanges_tileRanges_fixed_point 10
           [mkRange 0 3 vtrue; mkRange 3 5 (vstr "a"); mkRange 7 10 vtrue]).
  - simpl. repeat split; try lia. intros _. discriminate.
  - repeat constructor; simpl; lia.
Defined.

(** ** [Format.equal] *)

Lemma strict_eq_sym l r : strict_eq l r = strict_eq r l.
Proof. unfold strict_eq. apply bool_decide_ext. split; congruence. Qed.

Lemma equal_records r1 f1 r2 f2 :
  equal (VRecord r1 f1) (VRecord r2 f2) = Some (bool_decide (f1 = f2)).
Proof.
  unfold equal, strict_eq. case_bool_decide as Heq.
  { injection Heq as -> ->. by rewrite bool_decide_eq_true_2. }
  simpl. clear Heq. case_decide as Hlen.
  - f_equal. destruct (decide (f1 = f2)) as [->|Hne].
    + rewrite bool_decide_eq_true_2 by done.
      apply forallb_forall. intros k Hk.
      rewrite bool_decide_eq_true_2 by by apply list_elem_of_In.
      by rewrite bool_decide_eq_true_2.
    + rewrite bool_decide_eq_false_2 by done.
      apply not_true_is_false. intros Hall. apply Hne.
      rewrite forallb_forall in Hall.
      assert (∀ k, k ∈ dom f1 → k ∈ dom f2 ∧ f2 !! k = f1 !! k) as Hkeys.
      { intros k Hk. apply elem_of_elements, list_elem_of_In in Hk.
        specialize (Hall k Hk). apply andb_true_iff in Hall as [H1 H2].
        apply bool_decide_eq_true in H1, H2.
        apply elem_of_elements in H1. split; [done|].
        apply list_elem_of_In, elem_of_elements, elem_of_dom in Hk as [p1 Hp1].
        apply elem_of_dom in H1 as [p2 Hp2].
        rewrite Hp1, Hp2 in *. congruence. }
      assert (dom f1 = dom f2) as Hdom.
      { apply set_subseteq_size_eq.
        - intros k Hk. by apply Hkeys.
        - unfold size, set_size. simpl. lia. }
      apply map_eq. intros k. destruct (decide (k ∈ dom f1)) as [Hk|Hk].
      * symmetry. by apply Hkeys.
      * rewrite (not_elem_of_dom_1 f1 k Hk).
        rewrite Hdom in Hk. by rewrite (not_elem_of_dom_1 f2 k Hk).
  - f_equal. rewrite bool_decide_eq_false_2; [done|]. by intros ->.
Qed.

Lemma equal_sym l r : equal l r = equal r l.
Proof.
  destruct l as [| |p|r1 f1|c1 i1], r as [| |q|r2 f2|c2 i2]; try done.
  - unfold equal. rewrite strict_eq_sym. by destruct (strict_eq _ _).
  - rewrite !equal_records. f_equal. apply bool_decide_ext. split; congruence.
  - unfold equal, strict_eq. rewrite !bool_decide_eq_false_2 by done. simpl.
    destruct (elements (dom f1)) as [|k [|]] eqn:Hk; simpl; try done.
    rewrite !andb_true_r. f_equal.
    destruct (decide (k = "value"%string)) as [->|Hne].
    + rewrite !bool_decide_eq_true_2 by by rewrite list_elem_of_singleton.
      simpl. apply bool_decide_ext. split; congruence.
    + rewrite (bool_decide_eq_false_2 (k ∈ _))
        by by rewrite list_elem_of_singleton.
      rewrite (bool_decide_eq_false_2 (_ ∈ [k])); [done|].
      rewrite list_elem_of_singleton. congruence.
  - unfold equal, strict_eq. rewrite !bool_decide_eq_false_2 by done. simpl.
    destruct (elements (dom f2)) as [|k [|]] eqn:Hk; simpl; try done.
    rewrite !andb_true_r. f_equal.
    destruct (decide (k = "value"%string)) as [->|Hne].
    + rewrite !bool_decide_eq_true_2 by by rewrite list_elem_of_singleton.
      simpl. apply bool_decide_ext. split; congruence.
    + rewrite (bool_decide_eq_false_2 (k ∈ _))
        by by rewrite list_elem_of_singleton.
      rewrite (bool_decide_eq_false_2 (_ ∈ [k])); [done|].
      rewrite list_elem_of_singleton. congruence.
  - unfold equal. rewrite strict_eq_sym.
    destruct (strict_eq _ _); [done|]. simpl. f_equal. f_equal.
    apply strict_eq_sym.
Qed.

(** [Format.equal] is reflexive and symmetric; on two records it compares the
    fields, whatever the objects are; and it raises exactly when one side is
    [null] and the other an object that is not [null]. *)
Theorem equal_spec :
  (∀ v, equal v v = Some true)
  ∧ (∀ l r, equal l r = equal r l)
  ∧ (∀ r1 f1 r2 f2,
       equal (VRecord r1 f1) (VRecord r2 f2) = Some (bool_decide (f1 = f2)))
  ∧ (∀ l r, equal l r = None
            ↔ (l = VNull ∧ is_object r = true ∧ r ≠ VNull)
              ∨ (r = VNull ∧ is_object l = true ∧ l ≠ VNull)).
Proof.
  split; [apply equal_refl|]. split; [apply equal_sym|].
  split; [apply equal_records|].
  intros l r. split.
  - intros Hnone.
    destruct (decide (l = VNull)) as [->|Hl].
    + left. split; [done|]. destruct r; try done; by split.
    + destruct (decide (r = VNull)) as [->|Hr].
      * right. split; [done|]. destruct l; try done; by split.
      * destruct (equal_defined l r Hl Hr) as [b Hb]. congruence.
  - intros [(->&Hobj&Hne)|(->&Hobj&Hne)]; [by destruct r|by destruct l].
Qed.

(** ** [extract] and [createFormatByRange] *)

Lemma extract_range_eq s e r :
  extract_range s e r
  = if decide (startIndex r `max` s < endIndex r `min` e)
    then [mkRange (startIndex r `max` s) (endIndex r `min` e) (value r)]
    else [].
Proof. unfold extract_range. repeat case_decide; try done; lia. Qed.

Lemma extract_range_within_id s e r : within s e r → extract_range s e r = [r].
Proof.
  intros (?&?&?). rewrite extract_range_eq. rewrite decide_True by lia.
  destruct r as [a b v]; simpl in *. f_equal. f_equal; lia.
Qed.

Lemma extract_range_compose s e s' e' r :
  extract_range s e r ≫= extract_range s' e'
  = extract_range (s `max` s') (e `min` e') r.
Proof.
  rewrite !(extract_range_eq _ _ r). case_decide as H1.
  - change ([?x] ≫= ?f) with (f x ++ []). rewrite app_nil_r.
    rewrite extract_range_eq. simpl.
    repeat case_decide; try lia; [|done]. f_equal. f_equal; lia.
  - simpl. rewrite decide_False by lia. done.
Qed.

Lemma covers_extract_range s e r j :
  Exists (λ r', covers r' j) (extract_range s e r)
  ↔ covers r j ∧ s ≤ j ∧ j < e.
Proof.
  rewrite extract_range_eq. case_decide.
  - rewrite Exists_cons, Exists_nil. unfold covers; simpl. lia.
  - rewrite Exists_nil. unfold covers. lia.
Qed.

Lemma paint_at_extract_range s e r j d :
  paint_at j d (extract_range s e r)
  = if decide (s ≤ j ∧ j < e)
    then (if decide (covers r j) then value r else d)
    else d.
Proof.
  rewrite extract_range_eq. unfold covers.
  repeat case_decide; simpl; unfold covers; simpl;
    repeat case_decide; try done; lia.
Qed.

(** Inside the window the clipped ranges paint what the ranges paint, and
    nothing outside. *)
Lemma paint_at_extract s e rs j d :
  paint_at j d (rs ≫= extract_range s e)
  = if decide (s ≤ j ∧ j < e) then paint_at j d rs else d.
Proof.
  revert d. induction rs as [|r rs IH]; intros d.
  { simpl. by case_decide. }
  change ((r :: rs) ≫= extract_range s e)
    with (extract_range s e r ++ (rs ≫= extract_range s e)).
  rewrite paint_at_app, IH, paint_at_extract_range. simpl.
  by repeat case_decide.
Qed.

Lemma map_get_app_fresh key (pre rest : FormatMap) :
  key ∉ pre.*1 → map_get key (pre ++ rest) = map_get key rest.
Proof.
  induction pre as [|[k v] pre IH]; [done|]. simpl. intros Hk.
  rewrite decide_False by set_solver. apply IH. set_solver.
Qed.

Lemma map_set_fresh key v (m : FormatMap) :
  key ∉ m.*1 → map_set key v m = m ++ [(key, v)].
Proof.
  induction m as [|[k w] m IH]; [done|]. simpl. intros Hk.
  rewrite decide_False by set_solver. rewrite IH; [done|set_solver].
Qed.

Lemma clip_entry_keys s e (m : FormatMap) : (omap (clip_entry s e) m).*1 ⊆ m.*1.
Proof.
  induction m as [|[k rs] m IH]; [done|]. simpl. unfold clip_entry at 1; simpl.
  destruct (rs ≫= extract_range s e); simpl; set_solver.
Qed.

Lemma clip_entry_NoDup s e (m : FormatMap) :
  NoDup m.*1 → NoDup (omap (clip_entry s e) m).*1.
Proof.
  induction m as [|[k rs] m IH]; [done|]. simpl. intros Hnd.
  apply NoDup_cons in Hnd as [Hk Hnd]. unfold clip_entry at 1; simpl.
  destruct (rs ≫= extract_range s e); simpl; [by apply IH|].
  apply NoDup_cons. split; [|by apply IH].
  pose proof (clip_entry_keys s e m). set_solver.
Qed.

Lemma extract_entries_explicit s e fmt pre rest acc :
  fmap_ fmt = pre ++ rest → NoDup (fmap_ fmt).*1 → acc.*1 ⊆ pre.*1 →
  extract_entries id s e fmt rest acc = acc ++ omap (clip_entry s e) rest.
Proof.
  revert pre acc. induction rest as [|[k rs] rest IH]; intros pre acc Hm Hnd Hacc.
  { simpl. by rewrite app_nil_r. }
  assert (k ∉ pre.*1) as Hk.
  { rewrite Hm, fmap_app in Hnd. apply NoDup_app in Hnd as (_&Hd&_).
    intros Hin. apply (Hd k Hin). simpl. set_solver. }
  simpl. unfold extractFormatRangesByFormatter.
  rewrite Hm, map_get_app_fresh by done. simpl. rewrite decide_True by done.
  simpl. unfold clip_entry at 1. simpl.
  destruct (rs ≫= extract_range s e) as [|r0 l] eqn:Hclip; simpl.
  - apply (IH (pre ++ [(k, rs)])); [by rewrite <- app_assoc|done|].
    rewrite fmap_app. set_solver.
  - rewrite map_set_fresh by set_solver.
    rewrite (IH (pre ++ [(k, rs)])); [by rewrite <- app_assoc| |done|].
    + by rewrite <- app_assoc.
    + rewrite !fmap_app. simpl. set_solver.
Qed.

Lemma extract_explicit s e fmt :
  NoDup (fmap_ fmt).*1 →
  fmap_ (extract s e fmt) = omap (clip_entry s e) (fmap_ fmt).
Proof.
  intros Hnd. unfold extract; simpl.
  by rewrite (extract_entries_explicit s e fmt [] (fmap_ fmt) []).
Qed.

Lemma extract_entries_lookup_fresh s e fmt f keys acc :
  f ∉ keys.*1 →
  map_get f (extract_entries id s e fmt keys acc) = map_get f acc.
Proof.
  revert acc. induction keys as [|[k rs] keys IH]; intros acc Hf; [done|].
  cbn [extract_entries]. rewrite IH by set_solver.
  destruct (extractFormatRangesByFormatter s e k fmt); [done|].
  rewrite map_get_set_ne; [done|]. set_solver.
Qed.

Lemma extract_entries_lookup s e fmt f keys acc :
  (∀ f', map_get f' acc = None
         ∨ map_get f' acc
           = nonempty_opt (extractFormatRangesByFormatter s e f' fmt)) →
  f ∈ keys.*1 →
  map_get f (extract_entries id s e fmt keys acc)
  = nonempty_opt (extractFormatRangesByFormatter s e f fmt).
Proof.
  revert acc. induction keys as [|[k rs] keys IH]; intros acc Hacc Hf.
  { by apply elem_of_nil in Hf. }
  cbn [extract_entries].
  destruct (decide (f ∈ keys.*1)) as [Hin|Hout].
  - apply IH; [|done].
    intros f'. destruct (extractFormatRangesByFormatter s e k fmt) eqn:Hx;
      [apply Hacc|].
    destruct (decide (k = f')) as [<-|Hne].
    + right. rewrite map_get_set_eq. by rewrite Hx.
    + rewrite map_get_set_ne by done. apply Hacc.
  - assert (f = k) as -> by set_solver.
    rewrite extract_entries_lookup_fresh by done.
    destruct (extractFormatRangesByFormatter s e k fmt) eqn:Hx.
    + destruct (Hacc k) as [->| ->]; [done|]. by rewrite Hx.
    + by rewrite map_get_set_eq.
Qed.

Lemma extract_lookup s e fmt f :
  map_get f (fmap_ (extract s e fmt))
  = nonempty_opt (extractFormatRangesByFormatter s e f fmt).
Proof.
  unfold extract; simpl. destruct (decide (f ∈ (fmap_ fmt).*1)) as [Hin|Hout].
  - apply extract_entries_lookup; [|done]. intros; by left.
  - rewrite extract_entries_lookup_fresh by done.
    unfold extractFormatRangesByFormatter.
    by rewrite (map_get_None f (fmap_ fmt) Hout).
Qed.

Lemma default_nonempty_opt {A} (l : list A) :
  default [] (nonempty_opt l) = l.
Proof. by destruct l. Qed.

(** [extract] keeps the slot and gives, for every formatter, the ranges of
    its list clipped to the window [s, e), the formatter being absent when
    nothing is left.  Every range it returns satisfies
    [s <= startIndex < endIndex <= e]; inside the window the extracted list
    paints what the stored list paints, and nothing outside. *)
Theorem extract_spec (s e : nat) (fmt : Format) :
  slot (extract s e fmt) = slot fmt
  ∧ (∀ f, map_get f (fmap_ (extract s e fmt))
          = nonempty_opt
              (default [] (map_get f (fmap_ fmt)) ≫= extract_range s e))
  ∧ (∀ r, extract_range s e r
          = if decide (startIndex r `max` s < endIndex r `min` e)
            then [mkRange (startIndex r `max` s) (endIndex r `min` e) (value r)]
            else [])
  ∧ Forall (λ kv, kv.2 ≠ [] ∧ Forall (within s e) kv.2)
      (fmap_ (extract s e fmt))
  ∧ (∀ f j d,
       paint_at j d (default [] (map_get f (fmap_ (extract s e fmt))))
       = if decide (s ≤ j ∧ j < e)
         then paint_at j d (default [] (map_get f (fmap_ fmt)))
         else d).
Proof.
  split; [done|]. split; [intros f; apply extract_lookup|].
  split; [intros r; apply extract_range_eq|]. split.
  - unfold extract; simpl. apply extract_entries_Forall; [done|].
    intros key _ Hne; simpl. split; [done|].
    apply extractFormatRangesByFormatter_within.
  - intros f j d. rewrite extract_lookup, default_nonempty_opt.
    apply paint_at_extract.
Qed.

Lemma extract_bind_compose s e s' e' (rs : list FormatRange) :
  (rs ≫= extract_range s e) ≫= extract_range s' e'
  = rs ≫= extract_range (s `max` s') (e `min` e').
Proof.
  induction rs as [|r rs IH]; [done|].
  change ((r :: rs) ≫= extract_range s e)
    with (extract_range s e r ++ (rs ≫= extract_range s e)).
  change ((r :: rs) ≫= extract_range (s `max` s') (e `min` e'))
    with (extract_range (s `max` s') (e `min` e') r
          ++ (rs ≫= extract_range (s `max` s') (e `min` e'))).
  by rewrite bind_app, IH, extract_range_compose.
Qed.

Lemma clip_entry_compose s e s' e' (m : FormatMap) :
  omap (clip_entry s' e') (omap (clip_entry s e) m)
  = omap (clip_entry (s `max` s') (e `min` e')) m.
Proof.
  induction m as [|[k rs] m IH]; [done|].
  pose proof (extract_bind_compose s e s' e' rs) as Hc.
  assert (clip_entry (s `max` s') (e `min` e') (k, rs)
          = clip_entry s e (k, rs) ≫= clip_entry s' e') as Hk.
  { unfold clip_entry; simpl. rewrite <- Hc.
    by destruct (rs ≫= extract_range s e). }
  cbn [omap list_omap]. rewrite Hk.
  destruct (clip_entry s e (k, rs)) as [kv|]; simpl; [|apply IH].
  destruct (clip_entry s' e' kv); [f_equal|]; exact IH.
Qed.

(** Extracting a window from an extracted window is extracting the
    intersection of the two; in particular [extract] is idempotent. *)
Theorem extract_compose (s e s' e' : nat) (fmt : Format) :
  NoDup (fmap_ fmt).*1 →
  extract s' e' (extract s e fmt) = extract (s `max` s') (e `min` e') fmt
  ∧ extract s e (extract s e fmt) = extract s e fmt.
Proof.
  intros Hnd.
  assert (∀ a b, extract a b (extract s e fmt)
                 = extract (s `max` a) (e `min` b) fmt) as Hgen.
  { intros a b.
    assert (fmap_ (extract a b (extract s e fmt))
            = fmap_ (extract (s `max` a) (e `min` b) fmt)) as Hm.
    { rewrite (extract_explicit a b).
      - rewrite !extract_explicit by done. apply clip_entry_compose.
      - rewrite extract_explicit by done. by apply clip_entry_NoDup. }
    unfold extract in *. simpl in *. by rewrite Hm. }
  split; [apply Hgen|]. rewrite Hgen. by rewrite Nat.max_id, Nat.min_id.
Qed.

Lemma extract_compose_witness :
  extract 4 9 (extract 0 6 (mkFormat slot10 [(bold, [mkRange 2 8 vtrue])]))
  = extract (0 `max` 4) (6 `min` 9)
      (mkFormat slot10 [(bold, [mkRange 2 8 vtrue])])
  ∧ extract 0 6 (extract 0 6 (mkFormat slot10 [(bold, [mkRange 2 8 vtrue])]))
    = extract 0 6 (mkFormat slot10 [(bold, [mkRange 2 8 vtrue])]).
Proof.
  apply (extract_compose 0 6 4 9
           (mkFormat slot10 [(bold, [mkRange 2 8 vtrue])])).
  simpl. apply NoDup_singleton.
Defined.

Lemma map_set_each_range f key v (m : FormatMap) :
  map_set key (f <$> v) (map_each_range f m)
  = map_each_range f (map_set key v m).
Proof.
  induction m as [|[k w] m IH]; [done|]. simpl.
  case_decide; simpl; [done|]. by rewrite IH.
Qed.

Lemma extract_entries_post f s e fmt keys acc :
  extract_entries (fmap f) s e fmt keys (map_each_range f acc)
  = map_each_range f (extract_entries id s e fmt keys acc).
Proof.
  revert acc. induction keys as [|[k rs] keys IH]; intros acc; [done|].
  cbn [extract_entries].
  destruct (extractFormatRangesByFormatter s e k fmt) as [|r l]; [apply IH|].
  rewrite <- IH. f_equal. simpl. by rewrite <- map_set_each_range.
Qed.

Lemma covers_rebase s r j :
  s ≤ startIndex r → covers (rebase s r) j ↔ covers r (j + s).
Proof. unfold covers, rebase; simpl. lia. Qed.

Lemma paint_at_rebase s rs j d :
  Forall (λ r, s ≤ startIndex r) rs →
  paint_at j d (rebase s <$> rs) = paint_at (j + s) d rs.
Proof.
  revert d. induction rs as [|r rs IH]; intros d Hrs; [done|].
  apply Forall_cons in Hrs as [Hr Hrs]. simpl.
  rewrite IH by done. f_equal.
  pose proof (covers_rebase s r j Hr). by repeat case_decide; tauto.
Qed.

(** [createFormatByRange] is [extract] on the new slot with every range moved
    down by [startIndex]: its ranges lie in [0, endIndex - startIndex), and
    at offset [j] it paints what the store paints at [j + startIndex]. *)
Theorem createFormatByRange_spec (slot' : Slot) (s e : nat) (fmt : Format) :
  createFormatByRange slot' s e fmt
  = mkFormat slot' (map_each_range (rebase s) (fmap_ (extract s e fmt)))
  ∧ Forall (λ kv, kv.2 ≠ [] ∧ Forall (within 0 (e - s)) kv.2)
      (fmap_ (createFormatByRange slot' s e fmt))
  ∧ (∀ f j d,
       paint_at j d
         (default [] (map_get f (fmap_ (createFormatByRange slot' s e fmt))))
       = if decide (j + s < e)
         then paint_at (j + s) d (default [] (map_get f (fmap_ fmt)))
         else d).
Proof.
  assert (createFormatByRange slot' s e fmt
          = mkFormat slot' (map_each_range (rebase s) (fmap_ (extract s e fmt))))
    as Heq.
  { unfold createFormatByRange, extract. simpl. f_equal.
    apply (extract_entries_post (rebase s) s e fmt (fmap_ fmt) []). }
  split; [done|]. split.
  - unfold createFormatByRange; simpl. apply extract_entries_Forall; [done|].
    intros key _ Hne; simpl. split.
    + by destruct (extractFormatRangesByFormatter s e key fmt).
    + apply Forall_fmap.
      eapply Forall_impl; [apply extractFormatRangesByFormatter_within|].
      intros r (?&?&?). unfold within, rebase; simpl. lia.
  - intros f j d. rewrite Heq. cbn [fmap_]. rewrite map_get_each_range.
    rewrite extract_lookup.
    set (l := extractFormatRangesByFormatter s e f fmt).
    assert (default [] ((λ rs : list FormatRange, rebase s <$> rs)
                          <$> nonempty_opt l) = rebase s <$> l) as ->
      by by destruct l.
    rewrite paint_at_rebase.
    + unfold l, extractFormatRangesByFormatter. rewrite paint_at_extract.
      repeat case_decide; try done; lia.
    + eapply Forall_impl; [apply extractFormatRangesByFormatter_within|].
      by intros r (?&?&?).
Qed.

(** ** [extractFormatsByIndex] *)

Lemma filter_none {A} (P : A → Prop) `{!∀ x, Decision (P x)} (l : list A) :
  Forall (λ x, ¬ P x) l → filter P l = [].
Proof.
  induction 1 as [|x l Hx _ IH]; [done|]. by rewrite filter_cons_False.
Qed.

Lemma chain_filter_one (P : FormatRange → Prop) `{!∀ r, Decision (P r)} rs :
  chain None rs →
  (∀ a b, startIndex a < endIndex a → P a → P b →
          endIndex a ≤ startIndex b → False) →
  length (filter P rs) ≤ 1.
Proof.
  intros Hch HP. induction rs as [|r rs IH]; [simpl; lia|].
  simpl in Hch. destruct Hch as (Hwf&_&Hch).
  rewrite filter_cons. case_decide as Hr.
  - pose proof (chain_all_after r rs Hch) as Hafter.
    assert (filter P rs = []) as ->; [|simpl; lia].
    apply filter_none. eapply Forall_impl; [exact Hafter|].
    intros b Hb Hpb. by apply (HP r b).
  - apply IH. by eapply chain_drop_prev.
Qed.

Lemma filter_length_one {A} (P : A → Prop) `{!∀ x, Decision (P x)} (l : list A) :
  length l ≤ 1 → length (filter P l) ≤ 1.
Proof. intros Hl. pose proof (length_filter P l). lia. Qed.

Lemma filter_ext_Forall {A} (P Q : A → Prop) `{!∀ x, Decision (P x)}
    `{!∀ x, Decision (Q x)} (l : list A) :
  Forall (λ x, P x ↔ Q x) l → filter P l = filter Q l.
Proof.
  induction 1 as [|x l Hx _ IH]; [done|]. rewrite !filter_cons, IH.
  repeat case_decide; naive_solver.
Qed.

(** [extractFormatsByIndex(index)] returns, for [index > 0], the formatter
    and value of exactly the ranges that cover the position before [index],
    and for [index = 0] of exactly the ranges that start at 0; when no stored
    range is empty, index 0 gives what index 1 gives. *)
Theorem extractFormatsByIndex_spec (index : nat) (fmt : Format) :
  (∀ f v, (f, v) ∈ extractFormatsByIndex index fmt
          ↔ ∃ rs r, (f, rs) ∈ fmap_ fmt ∧ r ∈ rs ∧ value r = v
                    ∧ if decide (index = 0) then startIndex r = 0
                      else covers r (index - 1))
  ∧ (Forall (λ kv, Forall (λ r, startIndex r < endIndex r) kv.2) (fmap_ fmt)
     → extractFormatsByIndex 0 fmt = extractFormatsByIndex 1 fmt).
Proof.
  split.
  - intros f v. unfold extractFormatsByIndex, covers.
    case_decide as Hi.
    + rewrite list_elem_of_bind. split.
      * intros ([k rs]&Hin&Hkv).
        apply list_elem_of_fmap in Hin as (r&[= -> ->]&Hr).
        apply list_elem_of_filter in Hr as [Hr0 Hr]. by exists rs, r.
      * intros (rs&r&Hkv&Hr&Hv&H0). exists (f, rs). split; [|done].
        apply list_elem_of_fmap. exists r. split; [by rewrite Hv|].
        by apply list_elem_of_filter.
    + rewrite list_elem_of_bind. split.
      * intros ([k rs]&Hin&Hkv).
        apply list_elem_of_fmap in Hin as (r&[= -> ->]&Hr).
        apply list_elem_of_filter in Hr as [Hr0 Hr]. exists rs, r.
        repeat split; try done; lia.
      * intros (rs&r&Hkv&Hr&Hv&H0). exists (f, rs). split; [|done].
        apply list_elem_of_fmap. exists r. split; [by rewrite Hv|].
        apply list_elem_of_filter. split; [lia|done].
  - intros Hne. unfold extractFormatsByIndex. simpl.
    induction Hne as [|[f rs] m Hrs _ IH]; [done|].
    change (((f, rs) :: m) ≫= ?g) with (g (f, rs) ++ (m ≫= g)).
    rewrite IH. f_equal. simpl. f_equal.
    apply filter_ext_Forall. eapply Forall_impl; [exact Hrs|].
    intros r Hr. simpl in *. lia.
Qed.

Lemma extractFormatsByIndex_spec_witness :
  extractFormatsByIndex 0
    (mkFormat slot10 [(bold, [mkRange 0 5 vtrue; mkRange 5 8 (vstr "a")])])
  = extractFormatsByIndex 1
      (mkFormat slot10 [(bold, [mkRange 0 5 vtrue; mkRange 5 8 (vstr "a")])]).
Proof.
  apply (proj2 (extractFormatsByIndex_spec 0
           (mkFormat slot10
              [(bold, [mkRange 0 5 vtrue; mkRange 5 8 (vstr "a")])]))).
  repeat constructor; simpl; lia.
Defined.

(** On a store whose keys are distinct and whose non-overlap lists are sorted
    and disjoint, [extractFormatsByIndex] returns at most one pair for a
    formatter whose [overlap] flag is false. *)
Theorem extractFormatsByIndex_unique (index : nat) (fmt : Format) f :
  store_sorted (fmap_ fmt) → NoDup (fmap_ fmt).*1 → overlap f = false →
  length (filter (λ p, p.1 = f) (extractFormatsByIndex index fmt)) ≤ 1.
Proof.
  intros Hs Hnd Hov.
  assert (∀ (P : FormatRange → Prop) `{!∀ r, Decision (P r)},
    (∀ a b, startIndex a < endIndex a → P a → P b →
            endIndex a ≤ startIndex b → False) →
    length (filter (λ p, p.1 = f)
              (fmap_ fmt ≫= λ kv : Formatter * list FormatRange,
                 (λ i, (kv.1, value i)) <$> filter P kv.2)) ≤ 1) as Hgen.
  { intros P HdP HP. unfold store_sorted in Hs.
    induction (fmap_ fmt) as [|[k rs] m IH]; [simpl; lia|].
    apply Forall_cons in Hs as [Hk Hs]. simpl in Hk.
    apply NoDup_cons in Hnd as [Hfresh Hnd].
    change (((k, rs) :: m) ≫= ?g) with (g (k, rs) ++ (m ≫= g)).
    rewrite filter_app, length_app. simpl.
    destruct (decide (k = f)) as [->|Hne].
    - assert (filter (λ p : Formatter * FormatValue, p.1 = f)
                (m ≫= λ kv : Formatter * list FormatRange,
                   (λ i, (kv.1, value i)) <$> filter P kv.2) = []) as ->.
      { apply filter_none. apply Forall_forall. intros [f' v] Hin Hf'.
        simpl in Hf'. subst f'. apply list_elem_of_bind in Hin as ([k' rs']&Hin&Hkv).
        apply list_elem_of_fmap in Hin as (r&[= -> _]&_).
        apply Hfresh. apply list_elem_of_fmap. by exists (k', rs'). }
      simpl. rewrite Nat.add_0_r.
      etrans; [apply length_filter|]. rewrite length_fmap.
      destruct (Hk Hov) as [_ [Hlen|Hch]].
      + by apply filter_length_one.
      + by apply chain_filter_one.
    - assert (filter (λ p : Formatter * FormatValue, p.1 = f)
                ((λ i, (k, value i)) <$> filter P rs) = []) as ->.
      { apply filter_none. apply Forall_forall. intros [f' v] Hin Hf'.
        apply list_elem_of_fmap in Hin as (r&[= -> _]&_). done. }
      simpl. by apply IH. }
  unfold extractFormatsByIndex. case_decide.
  - apply Hgen. intros a b Hwf Ha Hb Hab. lia.
  - apply Hgen. intros a b _ [? ?] [? ?] Hab. lia.
Qed.

Lemma extractFormatsByIndex_unique_witness :
  length (filter (λ p, p.1 = bold)
            (extractFormatsByIndex 5
               (mkFormat slot10 [(bold, [mkRange 2 5 vtrue;
                                         mkRange 5 8 (vstr "a")]);
                                 (comment, [mkRange 0 9 (vstr "b");
                                            mkRange 3 6 (vstr "c")])]))) ≤ 1.
Proof.
  apply (extractFormatsByIndex_unique 5
           (mkFormat slot10 [(bold, [mkRange 2 5 vtrue;
                                     mkRange 5 8 (vstr "a")]);
                             (comment, [mkRange 0 9 (vstr "b");
                                        mkRange 3 6 (vstr "c")])])).
  - repeat constructor; simpl; (lia || discriminate).
  - simpl. repeat constructor; set_solver.
  - reflexivity.
Defined.

(** ** [toGrid] *)

Lemma set_add_elem x y l : y ∈ set_add x l ↔ y = x ∨ y ∈ l.
Proof. unfold set_add. case_decide; set_solver. Qed.

Lemma set_add_NoDup x l : NoDup l → NoDup (set_add x l).
Proof.
  intros Hl. unfold set_add. case_decide; [done|].
  apply NoDup_app. split_and!; [done|set_solver|apply NoDup_singleton].
Qed.

Lemma toGrid_ranges_elem (rs : list FormatRange) points y :
  y ∈ foldl (λ points item,
               set_add (endIndex item) (set_add (startIndex item) points))
            points rs
  ↔ y ∈ points ∨ ∃ r, r ∈ rs ∧ (y = startIndex r ∨ y = endIndex r).
Proof.
  revert points. induction rs as [|r rs IH]; intros points; simpl.
  - set_solver.
  - rewrite IH, !set_add_elem. split.
    + intros [[->|[->|?]]|(r'&?&?)]; [right|right|by left|right].
      * exists r. set_solver.
      * exists r. set_solver.
      * exists r'. set_solver.
    + intros [?|(r'&[->|?]%elem_of_cons&Hy)]; [tauto| |].
      * left. tauto.
      * right. by exists r'.
Qed.

Lemma toGrid_ranges_NoDup (rs : list FormatRange) points :
  NoDup points →
  NoDup (foldl (λ points item,
                  set_add (endIndex item) (set_add (startIndex item) points))
               points rs).
Proof.
  revert points. induction rs as [|r rs IH]; intros points Hp; simpl; [done|].
  apply IH. by do 2 apply set_add_NoDup.
Qed.

Lemma toGrid_entries_elem (m : FormatMap) points y :
  y ∈ foldl (λ points (kv : Formatter * list FormatRange),
               foldl (λ points item,
                        set_add (endIndex item)
                                (set_add (startIndex item) points))
                     points kv.2) points m
  ↔ y ∈ points
    ∨ ∃ f rs r, (f, rs) ∈ m ∧ r ∈ rs ∧ (y = startIndex r ∨ y = endIndex r).
Proof.
  revert points. induction m as [|[k rs] m IH]; intros points; simpl.
  - set_solver.
  - rewrite IH, toGrid_ranges_elem. split.
    + intros [[?|(r&?&?)]|(f&rs'&r&?&?&?)]; [by left|right|right].
      * exists k, rs, r. set_solver.
      * exists f, rs', r. set_solver.
    + intros [?|(f&rs'&r&[[= -> ->]|?]%elem_of_cons&?&?)]; [tauto| |].
      * left. right. by exists r.
      * right. by exists f, rs', r.
Qed.

Lemma toGrid_entries_NoDup (m : FormatMap) points :
  NoDup points →
  NoDup (foldl (λ points (kv : Formatter * list FormatRange),
                  foldl (λ points item,
                           set_add (endIndex item)
                                   (set_add (startIndex item) points))
                        points kv.2) points m).
Proof.
  revert points. induction m as [|[k rs] m IH]; intros points Hp; simpl; [done|].
  apply IH. by apply toGrid_ranges_NoDup.
Qed.

Lemma StronglySorted_le_NoDup_lt (l : list nat) :
  StronglySorted (≤) l → NoDup l → StronglySorted (<) l.
Proof.
  induction 1 as [|x l Hl IH Hx]; intros Hnd; [constructor|].
  apply NoDup_cons in Hnd as [Hfresh Hnd]. constructor; [by apply IH|].
  apply Forall_forall. intros y Hy.
  rewrite Forall_forall in Hx. specialize (Hx y Hy).
  assert (x ≠ y) by (intros ->; done). lia.
Qed.

(** [toGrid] returns a strictly ascending list that starts with 0 and whose
    members are exactly 0, the length of the slot and the [startIndex] and
    [endIndex] of every range of the store. *)
Theorem toGrid_spec (fmt : Format) :
  StronglySorted (<) (toGrid fmt)
  ∧ head (toGrid fmt) = Some 0
  ∧ ∀ x, x ∈ toGrid fmt
         ↔ x = 0 ∨ x = slot_length (slot fmt)
           ∨ ∃ f rs r, (f, rs) ∈ fmap_ fmt ∧ r ∈ rs
                       ∧ (x = startIndex r ∨ x = endIndex r).
Proof.
  assert (∀ x, x ∈ toGrid fmt
         ↔ x = 0 ∨ x = slot_length (slot fmt)
           ∨ ∃ f rs r, (f, rs) ∈ fmap_ fmt ∧ r ∈ rs
                       ∧ (x = startIndex r ∨ x = endIndex r)) as Hmem.
  { intros x. unfold toGrid. rewrite merge_sort_Permutation.
    rewrite toGrid_entries_elem, !set_add_elem. set_solver. }
  assert (StronglySorted (<) (toGrid fmt)) as Hsorted.
  { apply StronglySorted_le_NoDup_lt.
    - unfold toGrid. apply (StronglySorted_merge_sort (≤)).
    - unfold toGrid. rewrite merge_sort_Permutation.
      apply toGrid_entries_NoDup. do 2 apply set_add_NoDup. constructor. }
  split_and!; [done| |done].
  assert (0 ∈ toGrid fmt) as H0 by (apply Hmem; by left).
  destruct (toGrid fmt) as [|h l]; [by apply elem_of_nil in H0|].
  simpl. f_equal. apply elem_of_cons in H0 as [->|H0]; [done|].
  apply StronglySorted_inv in Hsorted as [_ Hh].
  rewrite Forall_forall in Hh. specialize (Hh 0 H0). lia.
Qed.

(** ** [shrink] after [stretch] *)

Lemma shrink_stretch_range index count r :
  shrink_range index count (stretch_range index count r) = r.
Proof.
  destruct r as [s e v].
  unfold shrink_range, stretch_range, set_startIndex, set_endIndex.
  repeat (case_decide; simpl in * ); try lia; f_equal; lia.
Qed.

Lemma normalizeFormatRange_normal len f rs :
  normal_entry len (f, rs) → normalizeFormatRange len f rs None = Some rs.
Proof.
  intros [_ Hn]. unfold normalizeFormatRange. simpl in Hn.
  destruct (overlap f).
  - destruct Hn as (groups&Hmap&Hflat&Hgroups). rewrite Hmap. simpl.
    assert (mapM (λ item, toRanges (tileRanges len item)) (group_values groups)
            = Some (group_values groups)) as ->; [|simpl; by rewrite Hflat].
    apply mapM_Some_2. unfold group_values.
    clear Hmap Hflat. induction Hgroups as [|g groups (?&?&?) _ IH]; simpl.
    + constructor.
    + constructor; [by apply toRanges_tileRanges_normal|done].
  - destruct Hn as (?&?&?). simpl. by apply toRanges_tileRanges_normal.
Qed.

Lemma normalize_entries_normal len m :
  Forall (normal_entry len) m → normalize_entries len m = Some m.
Proof.
  induction 1 as [|[f rs] m Hkv _ IH]; [done|].
  cbn [normalize_entries]. rewrite (normalizeFormatRange_normal _ _ _ Hkv), IH.
  simpl. destruct Hkv as [Hne _]. simpl in Hne. by destruct rs.
Qed.

(** On a store in normal form, [shrink(index, count)] undoes
    [stretch(index, count)]: every range gets its bounds back and the second
    pass of [shrink] finds every list normal. *)
Theorem shrink_stretch_roundtrip (index count : nat) (fmt : Format) :
  normal_store fmt →
  shrink index count (stretch index count fmt) = Some fmt.
Proof.
  intros Hn. unfold shrink, stretch, normal_store in *. simpl.
  assert (map_each_range (shrink_range index count)
            (map_each_range (stretch_range index count) (fmap_ fmt))
          = fmap_ fmt) as ->.
  { unfold map_each_range. rewrite <-list_fmap_compose.
    rewrite <-(list_fmap_id (fmap_ fmt)) at 2. apply list_fmap_ext.
    intros _ [f rs] _. simpl. f_equal.
    rewrite <-list_fmap_compose. rewrite <-(list_fmap_id rs) at 2.
    apply list_fmap_ext. intros _ r _. apply shrink_stretch_range. }
  rewrite (normalize_entries_normal _ _ Hn). simpl.
  by destruct fmt.
Qed.

Lemma shrink_stretch_roundtrip_witness :
  shrink 4 3
    (stretch 4 3
       (mkFormat slot10 [(bold, [mkRange 2 5 vtrue; mkRange 5 8 (vstr "a")]);
                         (comment, [mkRange 0 9 (vstr "b");
                                    mkRange 3 6 (vstr "c")])]))
  = Some (mkFormat slot10
            [(bold, [mkRange 2 5 vtrue; mkRange 5 8 (vstr "a")]);
             (comment, [mkRange 0 9 (vstr "b"); mkRange 3 6 (vstr "c")])]).
Proof.
  apply (shrink_stretch_roundtrip 4 3
           (mkFormat slot10
              [(bold, [mkRange 2 5 vtrue; mkRange 5 8 (vstr "a")]);
               (comment, [mkRange 0 9 (vstr "b"); mkRange 3 6 (vstr "c")])])).
  repeat constructor; simpl; try (lia || discriminate).
  eexists. split; [reflexivity|]. split; [reflexivity|].
  repeat constructor; simpl; (lia || discriminate).
Defined.

(** ** [split] *)

Lemma tileRanges_slot_paint len rs j :
  default VUndefined (tileRanges len rs !! j) = slot_paint len rs j.
Proof.
  unfold slot_paint.
  destruct (decide (j < max_end 0 rs `min` len)) as [Hj|Hj].
  - rewrite tileRanges_lookup by done. simpl. case_decide; [done|lia].
  - rewrite lookup_ge_None_2 by (rewrite tileRanges_length; lia). simpl.
    case_decide; [|done]. symmetry. apply tileRanges_paint_beyond. lia.
Qed.

Lemma splice_gap_lookup index distance values j :
  default VUndefined
    (splice index 0 (replicate distance VUndefined) values !! j)
  = if decide (j < index) then default VUndefined (values !! j)
    else if decide (j < index + distance) then VUndefined
    else default VUndefined (values !! (j - distance)).
Proof.
  unfold splice. rewrite Nat.add_0_r.
  destruct (decide (index ≤ length values)) as [Hi|Hi].
  - assert (length (take index values) = index) as Hlen
      by (rewrite length_take; lia).
    repeat case_decide.
    + rewrite lookup_app_l by lia. by rewrite lookup_take_lt.
    + rewrite lookup_app_r by lia. rewrite Hlen.
      rewrite lookup_app_l by (rewrite length_replicate; lia).
      rewrite lookup_replicate_2 by lia. done.
    + rewrite lookup_app_r by lia. rewrite Hlen.
      rewrite lookup_app_r by (rewrite length_replicate; lia).
      rewrite length_replicate, lookup_drop. do 2 f_equal. lia.
  - rewrite take_ge, drop_ge, app_nil_r by lia.
    destruct (decide (j < length values)) as [Hj|Hj].
    + rewrite lookup_app_l by lia. repeat case_decide; try lia. done.
    + assert (default VUndefined
                ((values ++ replicate distance VUndefined) !! j) = VUndefined)
        as ->.
      { rewrite lookup_app_r by lia.
        destruct (decide (j - length values < distance)).
        - by rewrite lookup_replicate_2.
        - by rewrite lookup_ge_None_2 by (rewrite length_replicate; lia). }
      repeat case_decide; try done.
      all: by rewrite lookup_ge_None_2 by lia.
Qed.

Lemma map_get_Forall2 (g : Formatter → list FormatRange → option (list FormatRange))
    (m m' : FormatMap) f rs :
  Forall2 (λ kv kv', kv'.1 = kv.1 ∧ g kv.1 kv.2 = Some kv'.2) m m' →
  map_get f m = Some rs →
  ∃ out, map_get f m' = Some out ∧ g f rs = Some out.
Proof.
  induction 1 as [|[k v] [k' v'] m m' [Hk Hg] _ IH]; simpl; [done|].
  simpl in Hk, Hg. subst k'. case_decide as Hf.
  - intros [= <-]. subst k. by exists v'.
  - done.
Qed.

Lemma keys_Forall2 (P : Formatter → list FormatRange → list FormatRange → Prop)
    (m m' : FormatMap) :
  Forall2 (λ kv kv', kv'.1 = kv.1 ∧ P kv.1 kv.2 kv'.2) m m' → m'.*1 = m.*1.
Proof.
  induction 1 as [|[k v] [k' v'] m m' [Hk _] _ IH]; [done|].
  rewrite !fmap_cons. simpl in *. by f_equal.
Qed.

(** [split(index, distance)] keeps the slot and the keys.  Every range of a
    block formatter has [distance] added to its end, wherever [index] is.
    The list of a non-overlap inline formatter becomes a chain that carries,
    at every position, what the old list painted in the slot with a gap of
    [distance] holes opened at [index]: the same value before [index],
    nothing in the gap, and after it the value from [distance] positions
    earlier. *)
Theorem split_spec (index distance : nat) (fmt fmt' : Format) :
  split index distance fmt = Some fmt' →
  slot fmt' = slot fmt
  ∧ (fmap_ fmt').*1 = (fmap_ fmt).*1
  ∧ ∀ f rs,
      map_get f (fmap_ fmt) = Some rs →
      ∃ out,
        map_get f (fmap_ fmt') = Some out
        ∧ (type f = Block →
           out = (λ i, set_endIndex (endIndex i + distance) i) <$> rs)
        ∧ (type f = Inline → overlap f = false →
           chain None out
           ∧ ∀ j, same_value (paint_at j VUndefined out)
                    (if decide (j < index)
                     then slot_paint (slot_length (slot fmt)) rs j
                     else if decide (j < index + distance) then VUndefined
                     else slot_paint (slot_length (slot fmt)) rs
                            (j - distance))).
Proof.
  intros Hsplit. apply split_inv in Hsplit as [Hslot Hall].
  split; [done|]. split.
  { by apply (keys_Forall2
                (λ k old new,
                   split_entry (slot_length (slot fmt)) index distance k old
                   = Some new)). }
  intros f rs Hget.
  destruct (map_get_Forall2
              (split_entry (slot_length (slot fmt)) index distance)
              _ _ f rs Hall Hget) as (out&Hout&Hentry).
  exists out. split; [done|]. unfold split_entry in Hentry. split.
  - intros Hty. rewrite Hty in Hentry. by injection Hentry as <-.
  - intros Hty Hov. rewrite Hty, Hov in Hentry. split.
    + by eapply toRanges_chain.
    + intros j. pose proof (toRanges_paint _ _ j Hentry) as Hp.
      rewrite splice_gap_lookup, !tileRanges_slot_paint in Hp. done.
Qed.

Lemma split_spec_witness :
  ∃ out,
    map_get bold
      (fmap_ (mkFormat slot10 [(bold, [mkRange 2 3 vtrue; mkRange 5 10 vtrue])]))
    = Some out
    ∧ chain None out.
Proof.
  destruct (split_spec 3 2
              (mkFormat slot10 [(bold, [mkRange 2 8 vtrue])])
              (mkFormat slot10 [(bold, [mkRange 2 3 vtrue; mkRange 5 10 vtrue])]))
    as (_&_&H).
  - reflexivity.
  - destruct (H bold [mkRange 2 8 vtrue])
      as (out&Hout&_&Hin); [reflexivity|].
    exists out. split; [done|]. by apply Hin.
Defined.

(** ** [merge]: the other keys, and the order of two merges *)

Lemma map_get_delete_ne key key' (m : FormatMap) :
  key ≠ key' → map_get key' (map_delete key m) = map_get key' m.
Proof.
  intros Hne. induction m as [|[k v] m IH]; [done|]. simpl.
  repeat (case_decide; simpl); try done; congruence.
Qed.

Lemma map_get_Some_key key v (m : FormatMap) :
  map_get key m = Some v → key ∈ m.*1.
Proof.
  intros H%map_get_elem. apply list_elem_of_fmap. by exists (key, v).
Qed.

Lemma map_get_delete_eq key (m : FormatMap) :
  NoDup m.*1 → map_get key (map_delete key m) = None.
Proof.
  induction m as [|[k v] m IH]; [done|]. csimpl.
  intros [Hk Hm]%NoDup_cons. case_decide as Hd.
  - subst k. by apply map_get_None.
  - simpl. case_decide; [done|]. by apply IH.
Qed.

Lemma map_delete_set key v (m : FormatMap) :
  map_delete key (map_set key v m) = map_delete key m.
Proof.
  induction m as [|[k v'] m IH]; simpl.
  - by case_decide.
  - repeat (case_decide; simpl); try done. by rewrite IH.
Qed.

Lemma map_delete_elem key kv (m : FormatMap) :
  kv ∈ map_delete key m → kv ∈ m.
Proof.
  induction m as [|[k v] m IH]; [done|]. simpl.
  case_decide; set_solver.
Qed.

Lemma map_set_elem_key key v kv (m : FormatMap) :
  kv ∈ map_set key v m → kv.1 = key ∨ kv.1 ∈ m.*1.
Proof.
  induction m as [|[k v'] m IH]; simpl.
  - intros ->%list_elem_of_singleton. by left.
  - csimpl. case_decide as Hk.
    + intros [->|Hin]%elem_of_cons; [by left|].
      right. apply elem_of_cons. right.
      apply list_elem_of_fmap. by exists kv.
    + intros [->|Hin]%elem_of_cons; [right; set_solver|].
      destruct (IH Hin); [by left|right; set_solver].
Qed.

Lemma map_delete_keys key (m : FormatMap) :
  NoDup m.*1 → NoDup (map_delete key m).*1.
Proof.
  induction m as [|[k v] m IH]; [done|]. csimpl.
  intros [Hk Hm]%NoDup_cons. case_decide; [done|].
  csimpl. apply NoDup_cons. split; [|by apply IH].
  intros Hin. apply Hk. apply list_elem_of_fmap in Hin as ([k' v']&->&Hin).
  apply list_elem_of_fmap. exists (k', v'). split; [done|].
  by eapply map_delete_elem.
Qed.

Lemma map_set_keys key v (m : FormatMap) :
  NoDup m.*1 → NoDup (map_set key v m).*1.
Proof.
  induction m as [|[k v'] m IH]; simpl.
  - intros _. apply NoDup_singleton.
  - csimpl. intros [Hk Hm]%NoDup_cons. case_decide as Hkey.
    + csimpl. by apply NoDup_cons.
    + csimpl. apply NoDup_cons. split; [|by apply IH].
      intros Hin. apply list_elem_of_fmap in Hin as ([k' v'']&Heq&Hin).
      simpl in Heq. subst k'.
      apply map_set_elem_key in Hin as [Hin|Hin]; simpl in Hin; [|done].
      by subst.
Qed.

Lemma merge_keys_NoDup f data fmt fmt' :
  merge f data fmt = Some fmt' → NoDup (fmap_ fmt).*1 → NoDup (fmap_ fmt').*1.
Proof.
  intros Hm Hnd. apply merge_inv in Hm as [->|[->|(l&_&->)]]; [done| |].
  - by apply map_delete_keys.
  - by apply map_set_keys.
Qed.

Lemma merge_other_key f data fmt fmt' g :
  merge f data fmt = Some fmt' → g ≠ f →
  map_get g (fmap_ fmt') = map_get g (fmap_ fmt).
Proof.
  intros Hm Hne. apply merge_inv in Hm as [->|[->|(l&_&->)]]; [done| |]; simpl.
  - by apply map_get_delete_ne.
  - by apply map_get_set_ne.
Qed.

Lemma merge_local f data fmt1 fmt2 :
  slot fmt1 = slot fmt2 →
  map_get f (fmap_ fmt1) = map_get f (fmap_ fmt2) →
  NoDup (fmap_ fmt1).*1 → NoDup (fmap_ fmt2).*1 →
  match merge f data fmt1, merge f data fmt2 with
  | Some a, Some b => map_get f (fmap_ a) = map_get f (fmap_ b)
  | None, None => True
  | _, _ => False
  end.
Proof.
  intros Hslot Hget Hnd1 Hnd2. unfold merge. rewrite Hslot, Hget.
  repeat first
    [ progress simplify_eq/=
    | match goal with
      | |- context [mbind _ ?x] => destruct x eqn:?
      end
    | case_match ];
    rewrite ?map_get_set_eq, ?map_get_delete_eq by done; try done;
    congruence.
Qed.

(** [merge] on a formatter keeps the slot and the list of every other
    formatter. *)
Theorem merge_frame (f g : Formatter) (data : MergeData) (fmt fmt' : Format) :
  merge f data fmt = Some fmt' → g ≠ f →
  slot fmt' = slot fmt ∧ map_get g (fmap_ fmt') = map_get g (fmap_ fmt).
Proof.
  intros Hm Hne. split; [by eapply merge_slot|by eapply merge_other_key].
Qed.

Lemma merge_frame_witness :
  map_get italic
    (fmap_ (mkFormat slot10 [(italic, [mkRange 3 7 vtrue]);
                             (bold, [mkRange 0 10 vtrue])]))
  = map_get italic (fmap_ (mkFormat slot10 [(italic, [mkRange 3 7 vtrue])])).
Proof.
  apply (merge_frame bold italic (InlineData (mkRange 0 10 vtrue))
           (mkFormat slot10 [(italic, [mkRange 3 7 vtrue])])
           (mkFormat slot10 [(italic, [mkRange 3 7 vtrue]);
                             (bold, [mkRange 0 10 vtrue])])).
  - reflexivity.
  - discriminate.
Defined.

(** Two merges on different formatters commute: in either order both
    return or both fail, and when they return the two stores have the same
    slot and the same list for every formatter. *)
Theorem merge_commute (f g : Formatter) (d1 d2 : MergeData) (fmt : Format) :
  f ≠ g → NoDup (fmap_ fmt).*1 →
  match merge f d1 fmt ≫= merge g d2, merge g d2 fmt ≫= merge f d1 with
  | Some a, Some b =>
      slot a = slot b ∧ ∀ h, map_get h (fmap_ a) = map_get h (fmap_ b)
  | None, None => True
  | _, _ => False
  end.
Proof.
  intros Hne Hnd.
  destruct (merge f d1 fmt) as [a|] eqn:Ha;
    destruct (merge g d2 fmt) as [b|] eqn:Hb; simpl.
  - pose proof (merge_local g d2 a fmt (merge_slot _ _ _ _ Ha)
                  (merge_other_key _ _ _ _ g Ha (not_eq_sym Hne))
                  (merge_keys_NoDup _ _ _ _ Ha Hnd) Hnd) as Hg.
    pose proof (merge_local f d1 b fmt (merge_slot _ _ _ _ Hb)
                  (merge_other_key _ _ _ _ f Hb Hne)
                  (merge_keys_NoDup _ _ _ _ Hb Hnd) Hnd) as Hf.
    rewrite Hb in Hg. rewrite Ha in Hf.
    destruct (merge g d2 a) as [a'|] eqn:Ha'; [|done].
    destruct (merge f d1 b) as [b'|] eqn:Hb'; [|done].
    split.
    + rewrite (merge_slot _ _ _ _ Ha'), (merge_slot _ _ _ _ Ha),
        (merge_slot _ _ _ _ Hb'), (merge_slot _ _ _ _ Hb). done.
    + intros h. destruct (decide (h = f)) as [->|Hhf].
      * rewrite (merge_other_key _ _ _ _ f Ha' Hne). by rewrite Hf.
      * destruct (decide (h = g)) as [->|Hhg].
        -- rewrite (merge_other_key _ _ _ _ g Hb' (not_eq_sym Hne)). done.
        -- rewrite (merge_other_key _ _ _ _ h Ha' Hhg),
             (merge_other_key _ _ _ _ h Ha Hhf),
             (merge_other_key _ _ _ _ h Hb' Hhf),
             (merge_other_key _ _ _ _ h Hb Hhg). done.
  - pose proof (merge_local g d2 a fmt (merge_slot _ _ _ _ Ha)
                  (merge_other_key _ _ _ _ g Ha (not_eq_sym Hne))
                  (merge_keys_NoDup _ _ _ _ Ha Hnd) Hnd) as Hg.
    rewrite Hb in Hg. by destruct (merge g d2 a).
  - pose proof (merge_local f d1 b fmt (merge_slot _ _ _ _ Hb)
                  (merge_other_key _ _ _ _ f Hb Hne)
                  (merge_keys_NoDup _ _ _ _ Hb Hnd) Hnd) as Hf.
    rewrite Ha in Hf. by destruct (merge f d1 b).
  - done.
Qed.

Lemma merge_commute_witness :
  match
    merge bold (InlineData (mkRange 0 10 vtrue))
      (mkFormat slot10 [(italic, [mkRange 3 7 vtrue])])
    ≫= merge comment (InlineData (mkRange 2 4 (vstr "a"))),
    merge comment (InlineData (mkRange 2 4 (vstr "a")))
      (mkFormat slot10 [(italic, [mkRange 3 7 vtrue])])
    ≫= merge bold (InlineData (mkRange 0 10 vtrue))
  with
  | Some a, Some b =>
      slot a = slot b ∧ ∀ h, map_get h (fmap_ a) = map_get h (fmap_ b)
  | None, None => True
  | _, _ => False
  end.
Proof.
  apply (merge_commute bold comment (InlineData (mkRange 0 10 vtrue))
           (InlineData (mkRange 2 4 (vstr "a")))
           (mkFormat slot10 [(italic, [mkRange 3 7 vtrue])])).
  - discriminate.
  - simpl. repeat constructor; set_solver.
Defined.

(** ** [merge] on a block formatter *)

(** On a block formatter whose [overlap] flag is false, setting a value and
    then merging the [CleanFormatRule] of that value removes the key, whatever
    was stored before. *)
Theorem merge_block_set_then_clean (f : Formatter) (v : FormatValue)
    (ref : nat) (fmt : Format) :
  type f = Block → overlap f = false → isVoid v = false →
  (∀ ref' inner, v ≠ VClean ref' inner) →
  merge f (BlockData v) fmt ≫= merge f (BlockData (VClean ref v))
  = Some (with_map fmt (map_delete f (fmap_ fmt))).
Proof.
  intros Hty Hov Hv Hclean.
  assert (merge f (BlockData v) fmt
          = Some (with_map fmt
                    (map_set f [mkRange 0 (slot_length (slot fmt)) v]
                       (fmap_ fmt)))) as ->.
  { unfold merge. rewrite Hty, Hv, Hov.
    destruct v; try done. by destruct (Hclean ref0 v). }
  simpl. unfold merge. rewrite Hty, Hov. simpl. rewrite Hv.
  rewrite map_get_set_eq. simpl. rewrite equal_refl. simpl.
  by rewrite map_delete_set.
Qed.

Lemma merge_block_set_then_clean_witness :
  merge (mkFormatter 3 "align" Block false false) (BlockData (vstr "left"))
    (mkFormat slot10 [(bold, [mkRange 2 5 vtrue])])
  ≫= merge (mkFormatter 3 "align" Block false false)
       (BlockData (VClean 0 (vstr "left")))
  = Some (mkFormat slot10 [(bold, [mkRange 2 5 vtrue])]).
Proof.
  apply (merge_block_set_then_clean (mkFormatter 3 "align" Block false false)
           (vstr "left") 0 (mkFormat slot10 [(bold, [mkRange 2 5 vtrue])]));
    [reflexivity|reflexivity|reflexivity|discriminate].
Defined.

(** ** The formats of the tree *)

Section scan_items.
Context (s e : nat).

Lemma scan_fold_spec f xs st kept :
  (foldl (scan_range s e f) (st, kept) xs).2
  = reverse (kept_ranges s e f xs) ++ kept
  ∧ scan_formats (foldl (scan_range s e f) (st, kept) xs).1
    = scan_formats st
      ++ (if columned f then []
          else item_of f <$> filter (spanning s e) xs)
  ∧ columnedFormats (foldl (scan_range s e f) (st, kept) xs).1
    = columnedFormats st
      ++ (if columned f then item_of f <$> filter (spanning s e) xs
          else [])
  ∧ nextStartIndex (foldl (scan_range s e f) (st, kept) xs).1
    ≤ nextStartIndex st
  ∧ Forall (λ r, spanning s e r
                 ∨ nextStartIndex (foldl (scan_range s e f) (st, kept) xs).1
                   ≤ startIndex r) xs.
Proof.
  revert st kept. induction xs as [|r xs IH]; intros st kept.
  - simpl. destruct (columned f); rewrite !app_nil_r; by repeat split.
  - change (foldl (scan_range s e f) (st, kept) (r :: xs))
      with (foldl (scan_range s e f) (scan_range s e f (st, kept) r) xs).
    destruct (scan_range s e f (st, kept) r) as [st1 kept1] eqn:Hstep.
    destruct (IH st1 kept1) as (IH1&IH2&IH3&IH4&IH5).
    rewrite IH1, IH2, IH3. clear IH1 IH2 IH3.
    unfold kept_ranges. rewrite !filter_cons.
    unfold scan_range in Hstep. unfold spanning in *.
    destruct (columned f) eqn:Hcol;
      repeat case_decide; simplify_eq/=;
      rewrite ?reverse_cons, <-?app_assoc; simpl;
      try (exfalso; tauto);
      (split_and!;
       [done|done|done|simpl in *; lia
       |apply Forall_cons; split; [tauto || (right; simpl in *; lia)|done]]).
Qed.

Lemma scan_ranges_spec f rs st :
  (scan_ranges s e f st rs).2 = kept_ranges s e f rs
  ∧ scan_formats (scan_ranges s e f st rs).1
    = scan_formats st
      ++ (if columned f then []
          else item_of f <$> filter (spanning s e) (reverse rs))
  ∧ columnedFormats (scan_ranges s e f st rs).1
    = columnedFormats st
      ++ (if columned f then item_of f <$> filter (spanning s e) (reverse rs)
          else [])
  ∧ nextStartIndex (scan_ranges s e f st rs).1 ≤ nextStartIndex st
  ∧ Forall (λ r, spanning s e r
                 ∨ nextStartIndex (scan_ranges s e f st rs).1 ≤ startIndex r)
      rs.
Proof.
  unfold scan_ranges.
  destruct (scan_fold_spec f (reverse rs) st []) as (H1&H2&H3&H4&H5).
  split_and!; try done.
  - rewrite H1, app_nil_r. unfold kept_ranges.
    by rewrite filter_reverse, reverse_involutive.
  - by apply Forall_reverse.
Qed.

Lemma scan_entries_spec entries st :
  (scan_entries s e st entries).2 = omap (kept_entry s e) entries
  ∧ scan_formats (scan_entries s e st entries).1
    = scan_formats st
      ++ (entries ≫= λ kv : Formatter * list FormatRange,
            if columned kv.1 then []
            else item_of kv.1 <$> filter (spanning s e) (reverse kv.2))
  ∧ columnedFormats (scan_entries s e st entries).1
    = columnedFormats st
      ++ (entries ≫= λ kv : Formatter * list FormatRange,
            if columned kv.1
            then item_of kv.1 <$> filter (spanning s e) (reverse kv.2)
            else [])
  ∧ nextStartIndex (scan_entries s e st entries).1 ≤ nextStartIndex st
  ∧ Forall (λ kv,
       Forall (λ r, spanning s e r
                    ∨ nextStartIndex (scan_entries s e st entries).1
                      ≤ startIndex r) kv.2) entries.
Proof.
  revert st. induction entries as [|[f rs] entries IH]; intros st.
  - simpl. rewrite !app_nil_r. by repeat split.
  - cbn [scan_entries].
    destruct (scan_ranges_spec f rs st) as (H1&H2&H3&H4&H5).
    destruct (scan_ranges s e f st rs) as [st1 kept] eqn:Hscan.
    simpl in H1, H2, H3, H4, H5.
    destruct (IH st1) as (I1&I2&I3&I4&I5).
    destruct (scan_entries s e st1 entries) as [st2 rest] eqn:Hrest.
    simpl in I1, I2, I3, I4, I5. simpl.
    split_and!.
    + unfold kept_entry at 1. simpl. rewrite <-H1, I1.
      by destruct kept.
    + rewrite I2, H2, <-app_assoc. done.
    + rewrite I3, H3, <-app_assoc. done.
    + lia.
    + apply Forall_cons. split; [|done]. simpl.
      eapply Forall_impl; [exact H5|]. intros r [?|?]; [by left|right; lia].
Qed.

End scan_items.

Lemma tree_items_children s e cs fo :
  tree_items (mkTree s e (Some cs) fo) = default [] fo ++ tree_items_list cs.
Proof.
  simpl. by f_equal.
Qed.

Lemma tree_items_list_app ts1 ts2 :
  tree_items_list (ts1 ++ ts2) = tree_items_list ts1 ++ tree_items_list ts2.
Proof. unfold tree_items_list. apply bind_app. Qed.

Lemma tree_items_list_singleton t : tree_items_list [t] = tree_items t.
Proof. unfold tree_items_list. simpl. apply app_nil_r. Qed.

Lemma tree_items_push t : tree_items_list (push t) = tree_items t.
Proof.
  destruct t as [s e [cs|] [fo|]]; unfold push; simpl tree_formats;
    simpl tree_children; cbv iota.
  - apply tree_items_list_singleton.
  - by rewrite tree_items_children.
  - apply tree_items_list_singleton.
  - apply tree_items_list_singleton.
Qed.

Lemma well_spanned_children s e cs fo :
  well_spanned (mkTree s e (Some cs) fo)
  ↔ Forall (λ it, item_startIndex it = s ∧ item_endIndex it = e)
           (default [] fo)
    ∧ Forall (child_ok s e) cs.
Proof.
  simpl. apply and_iff_compat_l.
  induction cs as [|c cs IH]; simpl.
  - split; [constructor|done].
  - rewrite Forall_cons, IH. done.
Qed.

Lemma child_ok_weaken s e s' e' c :
  s' ≤ s → e ≤ e' → child_ok s e c → child_ok s' e' c.
Proof. unfold child_ok. intros ?? (?&?&?). split_and!; [lia|lia|done]. Qed.

Lemma child_ok_push s e c :
  child_ok s e c → Forall (child_ok s e) (push c).
Proof.
  intros Hc. destruct c as [a b [cs|] [fo|]]; unfold push; simpl tree_formats;
    simpl tree_children; cbv iota;
    try (constructor; [exact Hc|constructor]).
  destruct Hc as (Ha&Hb&Hw). simpl in Ha, Hb.
  apply well_spanned_children in Hw as [_ Hcs].
  eapply Forall_impl; [exact Hcs|]. intros c. by apply child_ok_weaken.
Qed.

Lemma tree_at_app items1 items2 f v j :
  tree_at (items1 ++ items2) f v j
  ↔ tree_at items1 f v j ∨ tree_at items2 f v j.
Proof.
  unfold tree_at. split.
  - intros (it&[Hin|Hin]%elem_of_app&H); [left|right]; by exists it.
  - intros [(it&Hin&H)|(it&Hin&H)]; exists it; (split; [|done]);
      apply elem_of_app; tauto.
Qed.

Lemma tree_at_nil f v j : ¬ tree_at [] f v j.
Proof. intros (it&Hin&_). by apply elem_of_nil in Hin. Qed.

Lemma omap_keys_NoDup (g : Formatter * list FormatRange
                           → option (Formatter * list FormatRange))
    (m : FormatMap) :
  (∀ kv kv', g kv = Some kv' → kv'.1 = kv.1) →
  NoDup m.*1 → NoDup (omap g m).*1.
Proof.
  intros Hg. induction m as [|kv m IH]; [done|]. csimpl.
  intros [Hk Hnd]%NoDup_cons. destruct (g kv) as [kv'|] eqn:Hkv; csimpl.
  - apply NoDup_cons. split; [|by apply IH].
    rewrite (Hg _ _ Hkv). intros Hin. apply Hk.
    apply list_elem_of_fmap in Hin as (kv2&->&Hin).
    apply list_elem_of_omap in Hin as (kv1&Hin&Hkv1).
    rewrite (Hg _ _ Hkv1). apply list_elem_of_fmap. by exists kv1.
  - by apply IH.
Qed.

Lemma kept_entry_NoDup s e (m : FormatMap) :
  NoDup m.*1 → NoDup (omap (kept_entry s e) m).*1.
Proof.
  apply omap_keys_NoDup. intros kv kv'. unfold kept_entry.
  destruct (nonempty_opt _); simpl; [|done]. by intros [= <-].
Qed.

Lemma nonempty_opt_Some {A} (l l' : list A) :
  nonempty_opt l = Some l' ↔ l' = l ∧ l ≠ [].
Proof. destruct l; simpl; naive_solver. Qed.

Lemma stored_at_kept s e (entries : FormatMap) f v j :
  stored_at (omap (kept_entry s e) entries) f v j
  ↔ ∃ rs r, (f, rs) ∈ entries ∧ r ∈ rs
            ∧ ¬ (spanning s e r ∧ columned f = false)
            ∧ value r = v ∧ covers r j.
Proof.
  unfold stored_at. split.
  - intros (rs'&r&Hin&Hr&Hv&Hc).
    apply list_elem_of_omap in Hin as ([k rs]&Hin&Hkv).
    unfold kept_entry in Hkv. simpl in Hkv.
    destruct (nonempty_opt (kept_ranges s e k rs)) as [l|] eqn:Hl; [|done].
    simpl in Hkv. injection Hkv as -> ->.
    apply nonempty_opt_Some in Hl as [-> _].
    apply list_elem_of_filter in Hr as [Hkeep Hr]. by exists rs, r.
  - intros (rs&r&Hin&Hr&Hkeep&Hv&Hc).
    exists (kept_ranges s e f rs), r.
    assert (r ∈ kept_ranges s e f rs) as Hr'
      by by apply list_elem_of_filter.
    split_and!; try done.
    apply list_elem_of_omap. exists (f, rs). split; [done|].
    unfold kept_entry. simpl.
    destruct (kept_ranges s e f rs); [by apply elem_of_nil in Hr'|done].
Qed.

Lemma stored_at_extract s e fmt f v j :
  NoDup (fmap_ fmt).*1 →
  stored_at (fmap_ (extract s e fmt)) f v j
  ↔ s ≤ j ∧ j < e ∧ stored_at (fmap_ fmt) f v j.
Proof.
  intros Hnd. rewrite (extract_explicit _ _ _ Hnd). unfold stored_at. split.
  - intros (rs'&r'&Hin&Hr&Hv&Hc).
    apply list_elem_of_omap in Hin as ([k rs]&Hin&Hkv).
    unfold clip_entry in Hkv. simpl in Hkv.
    destruct (nonempty_opt (rs ≫= extract_range s e)) as [l|] eqn:Hl; [|done].
    simpl in Hkv. injection Hkv as -> ->.
    apply nonempty_opt_Some in Hl as [-> _].
    apply list_elem_of_bind in Hr as (r&Hr'&Hr).
    rewrite extract_range_eq in Hr'. case_decide; [|by apply elem_of_nil in Hr'].
    apply list_elem_of_singleton in Hr'. subst r'. unfold covers in *.
    simpl in *. split_and!; [lia|lia|]. exists rs, r. split_and!; try done; lia.
  - intros (Hs&He&rs&r&Hin&Hr&Hv&Hc).
    assert (mkRange (startIndex r `max` s) (endIndex r `min` e) (value r)
            ∈ rs ≫= extract_range s e) as Hr'.
    { apply list_elem_of_bind. exists r. split; [|done].
      rewrite extract_range_eq. unfold covers in Hc.
      rewrite decide_True by lia. by apply list_elem_of_singleton. }
    eexists _, _. split_and!; [|exact Hr'|done|unfold covers in *; simpl; lia].
    apply list_elem_of_omap. exists (f, rs). split; [done|].
    unfold clip_entry. simpl.
    destruct (rs ≫= extract_range s e); [by apply elem_of_nil in Hr'|done].
Qed.

Lemma hoisted_items_elem s e (b : bool) (entries : FormatMap) it :
  it ∈ (entries ≫= λ kv : Formatter * list FormatRange,
          if columned kv.1
          then (if b then item_of kv.1 <$> filter (spanning s e) (reverse kv.2)
                else [])
          else (if b then []
                else item_of kv.1 <$> filter (spanning s e) (reverse kv.2)))
  ↔ ∃ f rs r, (f, rs) ∈ entries ∧ r ∈ rs ∧ spanning s e r
              ∧ columned f = b ∧ it = item_of f r.
Proof.
  rewrite list_elem_of_bind. split.
  - intros ([f rs]&Hit&Hin). simpl in Hit.
    assert (it ∈ item_of f <$> filter (spanning s e) (reverse rs)
            ∧ columned f = b) as [Hit' Hb].
    { destruct (columned f), b; try done; by apply elem_of_nil in Hit. }
    apply list_elem_of_fmap in Hit' as (r&->&Hr).
    apply list_elem_of_filter in Hr as [Hsp Hr].
    rewrite elem_of_reverse in Hr. exists f, rs, r. by split_and!.
  - intros (f&rs&r&Hin&Hr&Hsp&Hb&->). exists (f, rs). split; [|done]. simpl.
    assert (item_of f r ∈ item_of f <$> filter (spanning s e) (reverse rs)).
    { apply list_elem_of_fmap. exists r. split; [done|].
      apply list_elem_of_filter. split; [done|]. by rewrite elem_of_reverse. }
    rewrite Hb. by destruct b.
Qed.

Lemma filter_length_all {A} (P : A → Prop) `{!∀ x, Decision (P x)} (l : list A) :
  length l ≤ length (filter P l) → Forall P l.
Proof.
  induction l as [|x l IH]; [constructor|]. rewrite filter_cons.
  pose proof (length_filter P l). case_decide; simpl; intros Hlen.
  - constructor; [done|]. apply IH. lia.
  - lia.
Qed.

Lemma entry_count s e f rs :
  length (if columned f
          then item_of f <$> filter (spanning s e) (reverse rs) else [])
  ≤ length (kept_ranges s e f rs)
  ∧ (length (kept_ranges s e f rs)
     ≤ length (if columned f
               then item_of f <$> filter (spanning s e) (reverse rs) else [])
     → Forall (spanning s e) rs).
Proof.
  unfold kept_ranges. destruct (columned f).
  - rewrite length_fmap, filter_reverse, length_reverse.
    assert (filter (λ r, ¬ (spanning s e r ∧ true = false)) rs = rs) as ->.
    { induction rs as [|r rs IH]; [done|]. rewrite filter_cons_True by naive_solver.
      by rewrite IH. }
    split; [apply length_filter|apply filter_length_all].
  - simpl. split; [lia|]. intros Hlen.
    apply Forall_forall. intros r Hr.
    destruct (decide (spanning s e r)) as [|Hns]; [done|].
    assert (r ∈ filter (λ r, ¬ (spanning s e r ∧ false = false)) rs) as Hin
      by (apply list_elem_of_filter; naive_solver).
    destruct (filter _ rs); [by apply elem_of_nil in Hin|simpl in Hlen; lia].
Qed.

Lemma rangeCount_kept s e kv (entries : FormatMap) :
  rangeCount (omap (kept_entry s e) (kv :: entries))
  = length (kept_ranges s e kv.1 kv.2)
    + rangeCount (omap (kept_entry s e) entries).
Proof.
  cbn [omap list_omap]. unfold kept_entry at 1.
  destruct (kept_ranges s e kv.1 kv.2) eqn:Hk; simpl; [done|].
  by rewrite rangeCount_cons.
Qed.

Lemma scan_no_children s e (entries : FormatMap) :
  length (entries ≫= λ kv : Formatter * list FormatRange,
            if columned kv.1
            then item_of kv.1 <$> filter (spanning s e) (reverse kv.2)
            else [])
  ≤ rangeCount (omap (kept_entry s e) entries)
  ∧ (rangeCount (omap (kept_entry s e) entries)
     ≤ length (entries ≫= λ kv : Formatter * list FormatRange,
                 if columned kv.1
                 then item_of kv.1 <$> filter (spanning s e) (reverse kv.2)
                 else [])
     → Forall (λ kv, Forall (spanning s e) kv.2) entries).
Proof.
  induction entries as [|[f rs] entries [IH1 IH2]].
  - split; [done|constructor].
  - rewrite rangeCount_kept.
    change (((f, rs) :: entries) ≫= ?g) with (g (f, rs) ++ (entries ≫= g)).
    rewrite length_app. simpl.
    destruct (entry_count s e f rs) as [H1 H2].
    split; [lia|]. intros Hle. constructor.
    + apply H2. lia.
    + apply IH2. lia.
Qed.

Lemma tree_at_hoisted s e (entries : FormatMap) items (b : bool) :
  (∀ it, it ∈ items
         ↔ ∃ f rs r, (f, rs) ∈ entries ∧ r ∈ rs ∧ spanning s e r
                     ∧ columned f = b ∧ it = item_of f r) →
  ∀ f v j, tree_at items f v j
           ↔ ∃ rs r, (f, rs) ∈ entries ∧ r ∈ rs ∧ spanning s e r
                     ∧ columned f = b ∧ value r = v ∧ covers r j.
Proof.
  intros Hitems f v j. unfold tree_at, covers. split.
  - intros (it&Hin&Hf&Hv&Hj1&Hj2).
    apply Hitems in Hin as (f'&rs&r&Hin&Hr&Hsp&Hb&->). simpl in *. subst f'.
    exists rs, r. by split_and!.
  - intros (rs&r&Hin&Hr&Hsp&Hb&Hv&Hj1&Hj2). exists (item_of f r).
    split; [|by split_and!]. apply Hitems. exists f, rs, r. by split_and!.
Qed.

Lemma items_span s e (entries : FormatMap) items (b : bool) :
  (∀ it, it ∈ items
         ↔ ∃ f rs r, (f, rs) ∈ entries ∧ r ∈ rs ∧ spanning s e r
                     ∧ columned f = b ∧ it = item_of f r) →
  Forall (λ it, item_startIndex it = s ∧ item_endIndex it = e) items.
Proof.
  intros Hitems. apply Forall_forall. intros it Hin.
  apply Hitems in Hin as (f&rs&r&_&_&Hsp&_&->). exact Hsp.
Qed.

Lemma toTree_fuel_ok fuel s e fmt t :
  NoDup (fmap_ fmt).*1 →
  toTree_fuel fuel s e fmt = Some t → tree_ok s e (fmap_ fmt) t.
Proof.
  revert s e fmt t. induction fuel as [|fuel IH]; intros s e fmt t Hnd Ht;
    [done|].
  cbn [toTree_fuel] in Ht.
  assert (∀ f v j, stored_at (fmap_ (extract s e fmt)) f v j
                   ↔ s ≤ j ∧ j < e ∧ stored_at (fmap_ fmt) f v j) as HE
    by (intros; by apply stored_at_extract).
  assert (NoDup (fmap_ (extract s e fmt)).*1) as HndE.
  { rewrite extract_explicit by done. by apply clip_entry_NoDup. }
  pose proof (scan_next_window s e fmt) as Hwindow.
  remember (fmap_ (extract s e fmt)) as E eqn:HeqE.
  pose proof (scan_entries_spec s e E (mkScan e s [] [])) as Hspec.
  destruct (scan_entries s e (mkScan e s [] []) E) as [st m] eqn:Hscan.
  cbn [fst snd scan_formats columnedFormats app] in Hspec.
  destruct Hspec as (Hm&Hfs&Hcs&_&Hnext).
  assert (NoDup m.*1) as Hndm by (rewrite Hm; by apply kept_entry_NoDup).
  assert (∀ it, it ∈ scan_formats st
                ↔ ∃ f rs r, (f, rs) ∈ E ∧ r ∈ rs ∧ spanning s e r
                            ∧ columned f = false ∧ it = item_of f r) as Hfs'.
  { intros it. rewrite Hfs. apply (hoisted_items_elem s e false). }
  assert (∀ it, it ∈ columnedFormats st
                ↔ ∃ f rs r, (f, rs) ∈ E ∧ r ∈ rs ∧ spanning s e r
                            ∧ columned f = true ∧ it = item_of f r) as Hcs'.
  { intros it. rewrite Hcs. apply (hoisted_items_elem s e true). }
  assert (∀ f v j, stored_at E f v j
                   ↔ tree_at (scan_formats st) f v j ∨ stored_at m f v j)
    as Hsplit.
  { intros f v j. rewrite (tree_at_hoisted _ _ _ _ _ Hfs'), Hm, stored_at_kept.
    unfold stored_at. split.
    - intros (rs&r&Hin&Hr&Hv&Hc).
      destruct (decide (spanning s e r ∧ columned f = false)) as [[??]|?].
      + left. exists rs, r. by split_and!.
      + right. exists rs, r. by split_and!.
    - intros [(rs&r&Hin&Hr&_&_&Hv&Hc)|(rs&r&Hin&Hr&_&Hv&Hc)];
        exists rs, r; by split_and!. }
  set (cf := with_map (extract s e fmt) m) in *.
  destruct (bool_decide (length (columnedFormats st) < rangeCount m)) eqn:Hch.
  - apply bool_decide_eq_true in Hch.
    destruct (Hwindow st m eq_refl Hch) as (Hs1&Hs2&Hs3&_).
    apply bind_Some in Ht as (before&Hbefore&Ht).
    apply bind_Some in Ht as (nextTree&Hnt&Ht).
    apply bind_Some in Ht as (after&Hafter&Ht).
    injection Ht as <-.
    assert (∀ a b, NoDup (fmap_ (extract a b cf)).*1) as Hndx.
    { intros a b. rewrite extract_explicit by done. by apply clip_entry_NoDup. }
    assert (∀ a b f v j, stored_at (fmap_ (extract a b cf)) f v j
                         ↔ a ≤ j ∧ j < b ∧ stored_at m f v j) as Hx
      by (intros; by apply (stored_at_extract _ _ cf)).
    assert (Forall (child_ok s (nextStartIndex st)) before
            ∧ ∀ f v j, tree_at (tree_items_list before) f v j
                       ↔ s ≤ j ∧ j < nextStartIndex st ∧ stored_at m f v j)
      as [Hb1 Hb2].
    { destruct (decide (s < nextStartIndex st)) as [Hlt|Hlt].
      - destruct (columnedFormats st) as [|c cs] eqn:Hcol.
        + injection Hbefore as <-. split.
          * repeat constructor; simpl; lia.
          * intros f v j. split; [by intros ?%tree_at_nil|].
            intros (Hj1&Hj2&Hst). exfalso.
            rewrite Hm in Hst.
            apply stored_at_kept in Hst as (rs&r&Hin&Hr&Hkeep&Hv&Hc).
            rewrite Forall_forall in Hnext.
            specialize (Hnext _ Hin). simpl in Hnext.
            rewrite Forall_forall in Hnext.
            destruct (Hnext _ Hr) as [Hsp|Hge]; [|unfold covers in Hc; lia].
            assert (item_of f r ∈ ([] : list FormatItem)) as Hnil.
            { apply Hcs'. exists f, rs, r. split_and!; try done.
              destruct (columned f); [done|]. by destruct Hkeep. }
            by apply elem_of_nil in Hnil.
        + apply bind_Some in Hbefore as (childTree&Hchild&[= <-]).
          apply IH in Hchild as (Hc1&Hc2&Hc3&Hc4); [|by apply Hndx].
          split.
          * repeat constructor; [lia|lia|done].
          * intros f v j. rewrite tree_items_list_singleton, Hc4, Hx. tauto.
      - injection Hbefore as <-. split; [constructor|].
        intros f v j. split; [by intros ?%tree_at_nil|lia]. }
    assert (tree_ok (nextStartIndex st) (nextEndIndex st) m nextTree)
      as (Hn1&Hn2&Hn3&Hn4) by (by apply (IH _ _ cf)).
    assert (Forall (child_ok (nextEndIndex st) e) after
            ∧ ∀ f v j, tree_at (tree_items_list after) f v j
                       ↔ nextEndIndex st ≤ j ∧ j < e ∧ stored_at m f v j)
      as [Ha1 Ha2].
    { destruct (decide (nextEndIndex st < e)) as [Hlt|Hlt].
      - apply bind_Some in Hafter as (afterTree&Hat&[= <-]).
        apply IH in Hat as (Hc1&Hc2&Hc3&Hc4); [|by apply Hndx].
        split.
        + apply child_ok_push. split_and!; [lia|lia|done].
        + intros f v j. rewrite tree_items_push, Hc4, Hx. tauto.
      - injection Hafter as <-. split; [constructor|].
        intros f v j. split; [by intros ?%tree_at_nil|lia]. }
    split_and!; [done|done| |].
    + apply well_spanned_children. split.
      * rewrite default_nonempty_opt. by eapply items_span.
      * rewrite !Forall_app. split_and!.
        -- eapply Forall_impl; [exact Hb1|].
           intros c. apply child_ok_weaken; lia.
        -- eapply Forall_impl;
             [apply (child_ok_push (nextStartIndex st) (nextEndIndex st));
              split_and!; [lia|lia|done]|].
           intros c. apply child_ok_weaken; lia.
        -- eapply Forall_impl; [exact Ha1|].
           intros c. apply child_ok_weaken; lia.
    + intros f v j.
      rewrite tree_items_children, default_nonempty_opt, !tree_items_list_app,
        tree_items_push, !tree_at_app, Hb2, Hn4, Ha2, <-HE, Hsplit.
      assert (stored_at m f v j → s ≤ j ∧ j < e) as Hin.
      { intros Hst. assert (stored_at E f v j) as HstE
          by (apply Hsplit; by right).
        apply HE in HstE. tauto. }
      split; [tauto|]. intros [?|Hst]; [by left|].
      destruct (Hin Hst). right.
      destruct (decide (j < nextStartIndex st)); [tauto|].
      destruct (decide (j < nextEndIndex st)); [right; left; split_and!; [lia|done..]|].
      right. right. split_and!; [lia|done..].
  - apply bool_decide_eq_false in Hch.
    injection Ht as <-.
    assert (Forall (λ kv, Forall (spanning s e) kv.2) E) as Hall.
    { destruct (scan_no_children s e E) as [_ Hno]. apply Hno.
      rewrite <-Hm.
      assert (length (columnedFormats st)
              = length (E ≫= λ kv : Formatter * list FormatRange,
                          if columned kv.1
                          then item_of kv.1
                                 <$> filter (spanning s e) (reverse kv.2)
                          else [])) as <-; [|lia].
      by rewrite Hcs. }
    split_and!; [done|done| |].
    + simpl. split; [|done]. rewrite default_nonempty_opt.
      apply Forall_app. split; by eapply items_span.
    + intros f v j. simpl. rewrite app_nil_r, default_nonempty_opt.
      rewrite tree_at_app, <-HE.
      rewrite (tree_at_hoisted _ _ _ _ _ Hfs'), (tree_at_hoisted _ _ _ _ _ Hcs').
      unfold stored_at. split.
      * intros [(rs&r&Hin&Hr&_&_&Hv&Hc)|(rs&r&Hin&Hr&_&_&Hv&Hc)];
          exists rs, r; by split_and!.
      * intros (rs&r&Hin&Hr&Hv&Hc).
        rewrite Forall_forall in Hall. specialize (Hall _ Hin). simpl in Hall.
        rewrite Forall_forall in Hall. specialize (Hall _ Hr).
        destruct (columned f) eqn:Hcol; [right|left]; exists rs, r;
          by split_and!.
Qed.

(** For a window with [s <= e] of a store with distinct keys, [toTree]
    returns a tree over [s, e) in which every item spans the window of its
    node and every child lies inside its parent, and which carries the
    formats of the store: an item for the formatter [f] with the value [v]
    holds position [j] exactly when [j] is in [s, e) and a stored range of
    [f] with the value [v] covers [j]. *)
Theorem toTree_formats (fmt : Format) (s e : nat) :
  s ≤ e → NoDup (fmap_ fmt).*1 →
  ∃ t, toTree s e fmt = Some t
       ∧ tree_start t = s ∧ tree_end t = e ∧ well_spanned t
       ∧ ∀ f v j, tree_at (tree_items t) f v j
                  ↔ s ≤ j ∧ j < e ∧ stored_at (fmap_ fmt) f v j.
Proof.
  intros Hse Hnd.
  assert (∃ t, toTree s e fmt = Some t) as [t Ht].
  { unfold toTree. destruct (decide (s = e)) as [<-|Hne].
    - destruct (toTree_fuel_empty_window (s - s) s fmt) as [formats ->].
      by eexists.
    - destruct (toTree_fuel_tiles (S (e - s)) s e fmt) as (t&->&_);
        [lia|lia|]. by eexists. }
  exists t. split; [done|]. by apply (toTree_fuel_ok _ _ _ _ _ Hnd Ht).
Qed.

Lemma toTree_formats_witness :
  ∃ t, toTree 0 10
         (mkFormat slot10 [(bold, [mkRange 0 10 vtrue]);
                           (italic, [mkRange 3 7 vtrue])]) = Some t
       ∧ tree_start t = 0 ∧ tree_end t = 10 ∧ well_spanned t
       ∧ ∀ f v j, tree_at (tree_items t) f v j
                  ↔ 0 ≤ j ∧ j < 10
                    ∧ stored_at (fmap_ (mkFormat slot10
                                          [(bold, [mkRange 0 10 vtrue]);
                                           (italic, [mkRange 3 7 vtrue])]))
                        f v j.
Proof.
  apply (toTree_formats
           (mkFormat slot10 [(bold, [mkRange 0 10 vtrue]);
                             (italic, [mkRange 3 7 vtrue])]) 0 10).
  - lia.
  - simpl. repeat constructor; set_solver.
Defined.

(** ** [stretch] twice *)

Lemma stretch_range_add index c1 c2 r :
  stretch_range index c2 (stretch_range index c1 r)
  = stretch_range index (c1 + c2) r.
Proof.
  destruct r as [s e v].
  unfold stretch_range, set_startIndex, set_endIndex.
  repeat (case_decide; simpl in * ); try lia; f_equal; lia.
Qed.

(** Stretching at the same index twice is stretching once by the sum of the
    two counts, and stretching by 0 changes nothing. *)
Theorem stretch_add (index c1 c2 : nat) (fmt : Format) :
  stretch index c2 (stretch index c1 fmt) = stretch index (c1 + c2) fmt
  ∧ stretch index 0 fmt = fmt.
Proof.
  unfold stretch, with_map, map_each_range. simpl. split.
  - f_equal. rewrite <-list_fmap_compose. apply list_fmap_ext.
    intros _ [f rs] _. simpl. f_equal.
    rewrite <-list_fmap_compose. apply list_fmap_ext.
    intros _ r _. apply stretch_range_add.
  - destruct fmt as [sl m]. simpl. f_equal.
    rewrite <-(list_fmap_id m) at 2. apply list_fmap_ext.
    intros _ [f rs] _. simpl. f_equal.
    rewrite <-(list_fmap_id rs) at 2. apply list_fmap_ext.
    intros _ [s e v] _. unfold stretch_range, set_startIndex, set_endIndex.
    repeat (case_decide; simpl in * ); try lia; f_equal; lia.
Qed.

(** ** Merging the same range twice *)

Lemma tileRanges_repaint len rs d :
  endIndex d ≤ max_end 0 rs →
  (∀ j, covers d j → j < len → paint_at j VUndefined rs = value d) →
  tileRanges len (rs ++ [d]) = tileRanges len rs.
Proof.
  intros Hend Hpaint.
  assert (max_end 0 (rs ++ [d]) = max_end 0 rs) as Hmax.
  { rewrite max_end_app. simpl. lia. }
  apply list_eq. intros j.
  destruct (decide (j < max_end 0 rs `min` len)) as [Hj|Hj].
  - rewrite !tileRanges_lookup by (rewrite ?Hmax; done). f_equal.
    rewrite paint_at_app. simpl. case_decide as Hc; [|done].
    symmetry. apply Hpaint; [done|lia].
  - rewrite !lookup_ge_None_2; [done|rewrite tileRanges_length; lia|].
    rewrite tileRanges_length, Hmax. lia.
Qed.

Lemma toRanges_tileRanges_repaint len rs d p :
  chain None rs → Forall (in_slot len) rs →
  value d = VPrim p → startIndex d < endIndex d → endIndex d ≤ len →
  (∀ j, covers d j → equal (paint_at j VUndefined rs) (value d) = Some true) →
  toRanges (tileRanges len (rs ++ [d])) = Some rs.
Proof.
  intros Hch Hslot Hv Hse Hlen Hpaint.
  assert (∀ j, covers d j → paint_at j VUndefined rs = value d) as Hp.
  { intros j Hj. specialize (Hpaint j Hj). rewrite Hv in *.
    by apply equal_prim_r. }
  rewrite tileRanges_repaint.
  - apply toRanges_tileRanges_normal; [done|..];
      (eapply Forall_impl; [exact Hslot|]); by intros r (?&?&?).
  - assert (covers d (endIndex d - 1)) as Hc by (unfold covers; lia).
    destruct (paint_at_covered (endIndex d - 1) VUndefined rs)
      as (r&Hr&Hcr).
    { rewrite (Hp _ Hc), Hv. done. }
    pose proof (max_end_elem 0 rs r Hr). unfold covers in Hcr. lia.
  - intros j Hj _. by apply Hp.
Qed.

(** On a non-overlap inline formatter, merging a non-empty range that lies
    inside the slot and carries a primitive value a second time changes
    nothing. *)
Theorem merge_idempotent (f : Formatter) (d : FormatRange) (p : Prim)
    (fmt fmt1 : Format) :
  type f = Inline → overlap f = false →
  value d = VPrim p →
  startIndex d < endIndex d → endIndex d ≤ slot_length (slot fmt) →
  merge f (InlineData d) fmt = Some fmt1 →
  merge f (InlineData d) fmt1 = Some fmt1.
Proof.
  intros Hty Hov Hv Hse Hlen Hm.
  assert (∃ out, fmt1 = with_map fmt (map_set f out (fmap_ fmt))
                 ∧ toRanges (tileRanges (slot_length (slot fmt)) (out ++ [d]))
                   = Some out ∧ out ≠ []) as (out&->&Hout&Hne).
  { unfold merge in Hm. rewrite Hty in Hm.
    destruct (map_get f (fmap_ fmt)) as [old|] eqn:Hget.
    - unfold normalizeFormatRange in Hm. rewrite Hov, Hv in Hm. simpl in Hm.
      destruct (toRanges (tileRanges (slot_length (slot fmt)) (old ++ [d])))
        as [out|] eqn:Hout; [|done]. simpl in Hm.
      assert (∀ j, covers d j
                   → equal (paint_at j VUndefined out) (value d) = Some true)
        as Hpaint.
      { intros j Hj.
        pose proof (toRanges_tileRanges_paint _ _ _ j Hout) as Hp.
        rewrite paint_at_app in Hp. simpl in Hp.
        rewrite decide_True in Hp by done. unfold same_value in Hp.
        rewrite Hv in *. simpl in Hp. apply Hp. unfold covers in Hj. lia. }
      assert (out ≠ []) as Hne.
      { intros ->. specialize (Hpaint (startIndex d)).
        rewrite Hv in Hpaint. simpl in Hpaint.
        assert (equal VUndefined (VPrim p) = Some true) as Heq
          by (apply Hpaint; unfold covers; lia).
        done. }
      exists out. split_and!; [by destruct out; injection Hm as <-| |done].
      eapply toRanges_tileRanges_repaint; try done.
      + by eapply toRanges_chain.
      + by eapply toRanges_tileRanges_in_slot.
    - rewrite Hv in Hm. simpl in Hm. injection Hm as <-.
      exists [d]. split_and!; [done| |done].
      eapply toRanges_tileRanges_repaint; try done.
      + repeat constructor; [done|done|by rewrite Hv].
      + intros j Hj. simpl. rewrite decide_True by done. apply equal_refl. }
  unfold merge. rewrite Hty. simpl. rewrite map_get_set_eq.
  unfold normalizeFormatRange. rewrite Hov, Hv. simpl. rewrite Hout. simpl.
  unfold with_map. simpl. rewrite map_set_set. by destruct out.
Qed.

Lemma merge_idempotent_witness :
  merge bold (InlineData (mkRange 4 8 vtrue))
    (mkFormat slot10 [(bold, [mkRange 2 8 vtrue])])
  = Some (mkFormat slot10 [(bold, [mkRange 2 8 vtrue])]).
Proof.
  apply (merge_idempotent bold (mkRange 4 8 vtrue) (PBool true)
           (mkFormat slot10 [(bold, [mkRange 2 5 vtrue])])
           (mkFormat slot10 [(bold, [mkRange 2 8 vtrue])]));
    try reflexivity; simpl; lia.
Defined.

Lemma map_delete_absent key (m : FormatMap) :
  map_get key m = None → map_delete key m = m.
Proof.
  induction m as [|[k v] m IH]; [done|]. simpl.
  case_decide; [done|]. intros H'. by rewrite IH.
Qed.

(** A range that starts at or beyond the end of the slot is stored as given
    by the first merge on an absent inline formatter, and the second merge
    of the same range removes the key again: the store is back to what it
    was. *)
Theorem merge_outside_slot_twice (f : Formatter) (d : FormatRange)
    (fmt : Format) :
  type f = Inline → map_get f (fmap_ fmt) = None →
  isVoid (value d) = false → (∀ ref inner, value d ≠ VClean ref inner) →
  slot_length (slot fmt) ≤ startIndex d →
  merge f (InlineData d) fmt
  = Some (with_map fmt (map_set f [d] (fmap_ fmt)))
  ∧ merge f (InlineData d) (with_map fmt (map_set f [d] (fmap_ fmt)))
    = Some fmt.
Proof.
  intros Hty Hget Hvoid Hclean Hout.
  assert (toRanges (tileRanges (slot_length (slot fmt)) [d; d]) = Some [])
    as Htile.
  { unfold toRanges. rewrite toRanges_from_void; [done|].
    apply tileRanges_outside. by repeat constructor. }
  split.
  - unfold merge. by rewrite Hty, Hget, Hvoid.
  - unfold merge. rewrite Hty. simpl. rewrite map_get_set_eq.
    assert (normalizeFormatRange (slot_length (slot fmt)) f [d] (Some d)
            = Some []) as ->.
    { unfold normalizeFormatRange. destruct (overlap f).
      - destruct (value d) as [| |p|ref fields|ref inner] eqn:Hv; try done;
          try (by destruct (Hclean ref inner));
          simpl; unfold formatRangesToMap; simpl; rewrite Hv, equal_refl;
          simpl; by rewrite Htile.
      - destruct (value d) as [| |p|ref fields|ref inner] eqn:Hv; try done;
          try (by destruct (Hclean ref inner)); simpl; by rewrite Htile. }
    simpl. rewrite map_delete_set, (map_delete_absent _ _ Hget).
    by destruct fmt.
Qed.

Lemma merge_outside_slot_twice_witness :
  merge bold (InlineData (mkRange 12 15 vtrue)) (empty_format slot10)
  = Some (with_map (empty_format slot10)
            (map_set bold [mkRange 12 15 vtrue] (fmap_ (empty_format slot10))))
  ∧ merge bold (InlineData (mkRange 12 15 vtrue))
      (with_map (empty_format slot10)
         (map_set bold [mkRange 12 15 vtrue] (fmap_ (empty_format slot10))))
    = Some (empty_format slot10).
Proof.
  apply (merge_outside_slot_twice bold (mkRange 12 15 vtrue)
           (empty_format slot10)); try reflexivity.
  - discriminate.
  - simpl. lia.
Defined.

(** ** [formatRangesToMap] *)

Lemma groups_add_cases item groups groups' :
  groups_add item groups = Some groups' →
  (∃ pre key ranges post,
     groups = pre ++ (key, ranges) :: post
     ∧ groups' = pre ++ (key, ranges ++ [item]) :: post
     ∧ equal key (value item) = Some true)
  ∨ (groups' = groups ++ [(value item, [item])]
     ∧ Forall (λ g, equal g.1 (value item) = Some false) groups).
Proof.
  revert groups'. induction groups as [|[key ranges] groups IH];
    intros groups'; simpl.
  - intros [= <-]. right. by split.
  - destruct (equal key (value item)) as [[|]|] eqn:Heq; simpl; [| |done].
    + intros [= <-]. left. by exists [], key, ranges, groups.
    + destruct (groups_add item groups) as [rest|]; simpl; [|done].
      intros [= <-].
      destruct (IH rest eq_refl)
        as [(pre&k&rs&post&->&->&Hk)|[-> Hall]].
      * left. by exists ((key, ranges) :: pre), k, rs, post.
      * right. split; [done|]. by constructor.
Qed.

Lemma groups_add_of item seen groups groups' :
  groups_of seen groups → groups_add item groups = Some groups' →
  groups_of (seen ++ [item]) groups'.
Proof.
  intros (Hperm&Hgroups&Hkeys) Hadd. unfold groups_of, flat, group_values in *.
  assert (∀ g : FormatValue * list FormatRange,
            (head (value <$> g.2) = Some g.1
             ∧ Forall (λ r, equal g.1 (value r) = Some true) g.2
             ∧ g.2 `sublist_of` seen)
            → head (value <$> g.2) = Some g.1
              ∧ Forall (λ r, equal g.1 (value r) = Some true) g.2
              ∧ g.2 `sublist_of` seen ++ [item]) as Hweak.
  { intros g (?&?&?). split_and!; [done|done|]. by apply sublist_inserts_r. }
  apply groups_add_cases in Hadd
    as [(pre&key&ranges&post&->&->&Hk)|[-> Hall]].
  - split_and!.
    + rewrite !fmap_app, !fmap_cons, !concat_app, !concat_cons in *. simpl in *.
      rewrite <-Hperm. rewrite <-!app_assoc.
      apply Permutation_app_head. apply Permutation_app_head.
      apply Permutation_app_comm.
    + apply Forall_app in Hgroups as [Hpre Hg].
      apply Forall_cons in Hg as [(Hhead&Hall&Hsub) Hpost]. simpl in *.
      apply Forall_app. split; [by eapply Forall_impl|].
      constructor; [|by eapply Forall_impl]. simpl. split_and!.
      * by destruct ranges.
      * apply Forall_app. split; [done|]. by repeat constructor.
      * by apply sublist_app.
    + intros i j k1 k2 Hij Hi Hj. apply (Hkeys i j); [done| |].
      * by rewrite fmap_app, fmap_cons in *.
      * by rewrite fmap_app, fmap_cons in *.
  - split_and!.
    + rewrite fmap_app, concat_app. simpl. rewrite ?app_nil_r.
      by apply Permutation_app_tail.
    + apply Forall_app. split; [eapply Forall_impl; [exact Hgroups|exact Hweak]|].
      repeat constructor; simpl.
      * apply equal_refl.
      * apply sublist_inserts_l. reflexivity.
    + intros i j k1 k2 Hij Hi Hj. rewrite fmap_app in Hi, Hj. simpl in Hi, Hj.
      destruct (decide (j < length groups)) as [Hlt|Hge].
      * rewrite lookup_app_l in Hi by (rewrite length_fmap; lia).
        rewrite lookup_app_l in Hj by (rewrite length_fmap; lia).
        by apply (Hkeys i j).
      * rewrite lookup_app_r in Hj by (rewrite length_fmap; lia).
        assert (i < length groups) as Hi'.
        { destruct (decide (i < length groups)); [done|].
          rewrite lookup_app_r in Hi by (rewrite length_fmap; lia).
          apply lookup_lt_Some in Hi. apply lookup_lt_Some in Hj.
          rewrite length_fmap in Hi, Hj. simpl in *. lia. }
        rewrite lookup_app_l in Hi by (rewrite length_fmap; lia).
        destruct (j - length groups.*1) as [|n] eqn:Hn; simpl in Hj; [|done].
        injection Hj as <-.
        apply list_lookup_fmap_Some in Hi as (g&->&Hg).
        rewrite Forall_lookup in Hall. by apply (Hall i g).
Qed.

Lemma formatRangesToMap_from_of groups seen rest out :
  groups_of seen groups →
  formatRangesToMap_from groups rest = Some out →
  groups_of (seen ++ rest) out.
Proof.
  revert groups seen. induction rest as [|item rest IH]; intros groups seen Hof.
  - simpl. intros [= <-]. by rewrite app_nil_r.
  - simpl. destruct (groups_add item groups) as [groups'|] eqn:Hadd; [|done].
    simpl. intros Hout.
    replace (seen ++ item :: rest) with ((seen ++ [item]) ++ rest)
      by by rewrite <-app_assoc.
    eapply IH; [|done]. by eapply groups_add_of.
Qed.

Lemma formatRangesToMap_of rs groups :
  formatRangesToMap rs = Some groups → groups_of rs groups.
Proof.
  intros H. apply (formatRangesToMap_from_of [] [] rs groups); [|done].
  split_and!; [done|constructor|]. intros i j k1 k2 _ Hi. done.
Qed.

(** [formatRangesToMap] returns when no value is void; the groups it returns
    hold every range once, each group in the order of the list, under the
    value of its first range and with every range equal to that value, and
    no two keys are equal. *)
Theorem formatRangesToMap_spec (rs : list FormatRange) :
  (Forall (λ r, isVoid (value r) = false) rs → is_Some (formatRangesToMap rs))
  ∧ ∀ groups, formatRangesToMap rs = Some groups → groups_of rs groups.
Proof.
  split.
  - intros Hrs.
    destruct (formatRangesToMap_ok (λ _, True) rs) as (groups&->&_); [|done].
    eapply Forall_impl; [exact Hrs|]. by intros r ?.
  - apply formatRangesToMap_of.
Qed.

Lemma formatRangesToMap_spec_witness :
  is_Some (formatRangesToMap [mkRange 0 5 (vstr "a"); mkRange 3 8 (vstr "b");
                              mkRange 6 9 (vstr "a")]).
Proof.
  apply (proj1 (formatRangesToMap_spec
                  [mkRange 0 5 (vstr "a"); mkRange 3 8 (vstr "b");
                   mkRange 6 9 (vstr "a")])).
  by repeat constructor.
Defined.

(** ** [merge] on a block formatter whose [overlap] flag is true *)

(** Merging a value on a block formatter whose [overlap] flag is true adds
    one range over the whole slot at the end of the list and keeps every
    stored range, also when a range with an equal value is stored
    already. *)
Theorem merge_block_overlap_appends (f : Formatter) (d : FormatValue)
    (fmt : Format) :
  type f = Block → overlap f = true →
  isVoid d = false → (∀ ref inner, d ≠ VClean ref inner) →
  Forall (λ r, isVoid (value r) = false)
    (default [] (map_get f (fmap_ fmt))) →
  ∃ l, merge f (BlockData d) fmt
       = Some (with_map fmt
                 (map_set f (l ++ [mkRange 0 (slot_length (slot fmt)) d])
                    (fmap_ fmt)))
       ∧ l ≡ₚ default [] (map_get f (fmap_ fmt)).
Proof.
  intros Hty Hov Hvoid Hclean Hold.
  destruct (formatRangesToMap_ok (λ _, True)
              (default [] (map_get f (fmap_ fmt)))) as (groups&Hg&_).
  { eapply Forall_impl; [exact Hold|]. by intros r ?. }
  exists (flat (group_values groups)). split.
  - unfold merge. rewrite Hty, Hvoid, Hov.
    destruct d as [| |p|ref fields|ref inner];
      try done; try (by destruct (Hclean ref inner));
      rewrite Hg; simpl; unfold flat; rewrite concat_app; simpl;
      by rewrite ?app_nil_r.
  - by apply formatRangesToMap_of in Hg as (Hperm&_).
Qed.

Lemma merge_block_overlap_appends_witness :
  ∃ l, merge (mkFormatter 4 "note" Block true false) (BlockData (vstr "a"))
         (mkFormat slot10 [(mkFormatter 4 "note" Block true false,
                            [mkRange 0 10 (vstr "a")])])
       = Some (with_map
                 (mkFormat slot10 [(mkFormatter 4 "note" Block true false,
                                    [mkRange 0 10 (vstr "a")])])
                 (map_set (mkFormatter 4 "note" Block true false)
                    (l ++ [mkRange 0 10 (vstr "a")])
                    [(mkFormatter 4 "note" Block true false,
                      [mkRange 0 10 (vstr "a")])]))
       ∧ l ≡ₚ [mkRange 0 10 (vstr "a")].
Proof.
  apply (merge_block_overlap_appends (mkFormatter 4 "note" Block true false)
           (vstr "a")
           (mkFormat slot10 [(mkFormatter 4 "note" Block true false,
                              [mkRange 0 10 (vstr "a")])]));
    try reflexivity.
  - discriminate.
  - by repeat constructor.
Defined.

(** ** [shrink] of the whole content *)

Lemma tileRanges_empty len rs :
  Forall (λ r, endIndex r = 0) rs → tileRanges len rs = [].
Proof.
  intros Hrs. apply nil_length_inv. rewrite tileRanges_length.
  assert (max_end 0 rs ≤ 0); [|lia].
  apply max_end_bound; [done|]. intros r Hr.
  rewrite Forall_forall in Hrs. by rewrite (Hrs r Hr).
Qed.

Lemma normalizeFormatRange_empty len f rs :
  Forall (λ r, isVoid (value r) = false) rs →
  Forall (λ r, endIndex r = 0) rs →
  normalizeFormatRange len f rs None = Some [].
Proof.
  intros Hdef Hend. unfold normalizeFormatRange. destruct (overlap f).
  - destruct (formatRangesToMap_ok (λ r, endIndex r = 0) rs)
      as (groups&->&Hgroups&_).
    { apply Forall_forall. intros r Hr. rewrite Forall_forall in Hdef, Hend.
      by split; [apply Hdef|apply Hend]. }
    simpl.
    assert (mapM (λ item, toRanges (tileRanges len item)) (group_values groups)
            = Some (replicate (length groups) [])) as ->.
    { apply mapM_Some_2. unfold group_values.
      clear -Hgroups. induction Hgroups as [|g groups (_&_&Hg) _ IH]; simpl.
      - constructor.
      - constructor; [|done]. by rewrite tileRanges_empty. }
    simpl. f_equal. unfold flat. clear. induction (length groups); [done|].
    done.
  - simpl. by rewrite tileRanges_empty.
Qed.

Lemma normalize_entries_empty len (m : FormatMap) :
  values_defined m →
  Forall (λ kv, Forall (λ r, endIndex r = 0) kv.2) m →
  normalize_entries len m = Some [].
Proof.
  intros Hdef Hend. induction m as [|[f rs] m IH]; [done|].
  apply Forall_cons in Hdef as [Hd Hdef]. apply Forall_cons in Hend as [He Hend].
  cbn [normalize_entries]. rewrite normalizeFormatRange_empty by done.
  simpl. by rewrite IH.
Qed.

(** Shrinking from 0 by a count that reaches the end of every stored range
    leaves no formatter in the store. *)
Theorem shrink_all_clears (count : nat) (fmt : Format) :
  values_defined (fmap_ fmt) →
  Forall (λ kv, Forall (λ r, startIndex r ≤ endIndex r ∧ endIndex r ≤ count)
                  kv.2) (fmap_ fmt) →
  shrink 0 count fmt = Some (with_map fmt []).
Proof.
  intros Hdef Hall. unfold shrink.
  rewrite normalize_entries_empty; [done| |].
  - unfold values_defined, map_each_range in *. rewrite Forall_fmap.
    eapply Forall_impl; [exact Hdef|]. intros [f rs] Hrs. simpl in *.
    rewrite Forall_fmap. eapply Forall_impl; [exact Hrs|].
    intros r Hr. simpl. by rewrite shrink_range_value.
  - unfold map_each_range. rewrite Forall_fmap.
    eapply Forall_impl; [exact Hall|]. intros [f rs] Hrs. simpl in *.
    rewrite Forall_fmap. eapply Forall_impl; [exact Hrs|].
    intros [s e v] [Hse He]. simpl in *.
    unfold shrink_range, set_startIndex, set_endIndex.
    repeat (case_decide; simpl in * ); lia.
Qed.

Lemma shrink_all_clears_witness :
  shrink 0 10
    (mkFormat slot10 [(bold, [mkRange 2 5 vtrue; mkRange 5 8 (vstr "a")]);
                      (comment, [mkRange 0 9 (vstr "b");
                                 mkRange 3 6 (vstr "c")])])
  = Some (with_map
            (mkFormat slot10
               [(bold, [mkRange 2 5 vtrue; mkRange 5 8 (vstr "a")]);
                (comment, [mkRange 0 9 (vstr "b"); mkRange 3 6 (vstr "c")])])
            []).
Proof.
  apply (shrink_all_clears 10
           (mkFormat slot10
              [(bold, [mkRange 2 5 vtrue; mkRange 5 8 (vstr "a")]);
               (comment, [mkRange 0 9 (vstr "b"); mkRange 3 6 (vstr "c")])])).
  - by repeat constructor.
  - repeat constructor; simpl; lia.
Defined.

(** ** A [CleanFormatRule] without a value on a non-overlap inline formatter *)

Lemma equal_clean_void x ref inner :
  isVoid inner = true → equal x (VClean ref inner) = Some true →
  ∃ ref', x = VClean ref' inner.
Proof.
  intros Hvoid. unfold equal, strict_eq. case_bool_decide as Hx.
  { intros _. by exists ref. }
  destruct x as [| |p|r fields|r i]; simpl; try done.
  - case_decide as Hlen; [|done]. intros [= Hall].
    destruct (elements (dom fields)) as [|k [|]] eqn:Hkeys; try done.
    simpl in Hall. rewrite andb_true_r in Hall.
    apply andb_true_iff in Hall as [Hk Heq].
    apply bool_decide_eq_true in Hk. apply list_elem_of_singleton in Hk.
    subst k. apply bool_decide_eq_true in Heq.
    rewrite decide_True in Heq by done.
    assert ("value"%string ∈ dom fields) as Hdom.
    { apply elem_of_elements. rewrite Hkeys. set_solver. }
    apply elem_of_dom in Hdom as [q Hq]. rewrite Hq in Heq. subst inner. done.
  - intros [= Hall]. rewrite andb_true_r in Hall.
    apply bool_decide_eq_true in Hall. subst i. by exists r.
Qed.

(** On a non-overlap inline formatter with stored ranges, merging a range
    whose value is a [CleanFormatRule] without a value clears nothing: the
    range is painted like any other, so that the new list carries a
    [CleanFormatRule] object as its value at every position of the range
    inside the slot. *)
Theorem merge_clean_void_paints_rule (fmt : Format) (f : Formatter)
    (old : list FormatRange) (data : FormatRange) (ref : nat)
    (inner : FormatValue) :
  type f = Inline → overlap f = false →
  map_get f (fmap_ fmt) = Some old →
  Forall (λ r, isVoid (value r) = false) old →
  value data = VClean ref inner → isVoid inner = true →
  ∃ newRanges,
    merge f (InlineData data) fmt
    = Some (with_map fmt
              match newRanges with
              | [] => map_delete f (fmap_ fmt)
              | _ => map_set f newRanges (fmap_ fmt)
              end)
    ∧ chain None newRanges
    ∧ ∀ j, covers data j → j < slot_length (slot fmt) →
           ∃ ref', paint_at j VUndefined newRanges = VClean ref' inner.
Proof.
  intros Hty Hov Hget Hold Hv Hvoid.
  destruct (toRanges_total
              (tileRanges (slot_length (slot fmt)) (old ++ [data])))
    as [out Hout].
  destruct (formatRangesToMap_ok (λ _, True) old) as (groups&Hg&_).
  { eapply Forall_impl; [exact Hold|]. by intros r ?. }
  exists out. split_and!.
  - unfold merge. rewrite Hty, Hget. unfold normalizeFormatRange.
    rewrite Hov, Hv, Hg. cbn [mbind option_bind]. rewrite Hvoid.
    cbn [mbind option_bind]. rewrite Hout. simpl. by destruct out.
  - by eapply toRanges_chain.
  - intros j Hj Hlen.
    pose proof (toRanges_tileRanges_paint _ _ _ j Hout Hlen) as Hp.
    rewrite paint_at_app in Hp. simpl in Hp. rewrite decide_True in Hp by done.
    rewrite Hv in Hp. unfold same_value in Hp. simpl in Hp.
    by eapply equal_clean_void.
Qed.

Lemma merge_clean_void_paints_rule_witness :
  ∃ newRanges,
    merge bold (InlineData (mkRange 4 6 (VClean 0 VNull)))
      (mkFormat slot10 [(bold, [mkRange 2 8 vtrue])])
    = Some (with_map (mkFormat slot10 [(bold, [mkRange 2 8 vtrue])])
              match newRanges with
              | [] => map_delete bold [(bold, [mkRange 2 8 vtrue])]
              | _ => map_set bold newRanges [(bold, [mkRange 2 8 vtrue])]
              end)
    ∧ chain None newRanges
    ∧ ∀ j, covers (mkRange 4 6 (VClean 0 VNull)) j → j < 10 →
           ∃ ref', paint_at j VUndefined newRanges = VClean ref' VNull.
Proof.
  apply (merge_clean_void_paints_rule
           (mkFormat slot10 [(bold, [mkRange 2 8 vtrue])]) bold
           [mkRange 2 8 vtrue] (mkRange 4 6 (VClean 0 VNull)) 0 VNull);
    try reflexivity.
  by repeat constructor.
Defined.
